(** * Gravity: quota guard, endpoint discovery and quota normalisation

    A shallow embedding of the core of the Gravity extension:

    - [PlatformStrategies]: the per-platform parsers of
      [platform_strategies.ts] (regular expressions included);
    - [ProcessFinder]: the discovery loop of [process_finder.ts];
    - [QuotaManager]: response normalisation and polling of
      [config_manager.ts] (class [QuotaManager]);
    - [QuotaGuard]: the guard state machine of [quota_guard.ts].

    Conventions.  A JavaScript [number] that carries a percentage, a
    fraction or a credit count is the rational [Q] it denotes.
    Comparisons are those of the rationals; every addition, subtraction,
    multiplication and division of the source is the exact operation
    followed by rounding to binary64 ([Float64]).  Millisecond clocks,
    process ids and ports are integers [Z].  NaN, where the source can
    produce one, is the [None] of an option; results beyond the range of
    binary64 (an overflow to [Infinity]) are not modelled.
    [Date.now()] and [new Date()] are arguments of the operation that
    reads them.  Logging and the text of user-facing messages are left
    out. *)

From Stdlib Require Import ZArith QArith Qround Qpower Qreduction String Ascii List Bool Lia Lqa.
From stdpp Require Import base option gmap strings list pretty.
Import ListNotations.

#[local] Open Scope string_scope.
#[local] Open Scope list_scope.

(** ** JavaScript numbers as rationals *)

Definition Qleb (x y : Q) : bool := Qle_bool x y.
Definition Qltb (x y : Q) : bool := negb (Qle_bool y x).
Definition Qgeb (x y : Q) : bool := Qle_bool y x.
Definition Qgtb (x y : Q) : bool := negb (Qle_bool x y).

(** *** binary64 arithmetic

    The value of an arithmetic operation of the source is the exact result
    rounded to the nearest binary64 number, ties to even. *)

Module Float64.

(** The exponent of the smallest subnormal number. *)
Definition emin : Z := -1074.

Definition pow2 (e : Z) : Q := Qpower 2 e.

(** The integer part of the binary logarithm of a positive rational. *)
Definition ilog2 (a : Q) : Z :=
  let e := (Z.log2 (Qnum a) - Z.log2 (Zpos (Qden a)))%Z in
  if Qltb a (pow2 e) then (e - 1)%Z else e.

(** The nearest integer, ties to even. *)
Definition rne (x : Q) : Z :=
  let f := Qfloor x in
  match (x - inject_Z f ?= 1 # 2)%Q with
  | Lt => f
  | Gt => (f + 1)%Z
  | Eq => if Z.even f then f else (f + 1)%Z
  end.

(** A positive rational rounded to 53 significant bits, or to a multiple
    of [2^emin] in the subnormal range. *)
Definition roundPos (a : Q) : Q :=
  let u := Z.max (ilog2 a - 52) emin in
  (inject_Z (rne (a / pow2 u)) * pow2 u)%Q.

Definition round (q : Q) : Q :=
  let q := Qred q in
  if Qeq_bool q 0 then 0%Q
  else if Qltb q 0 then Qred (- roundPos (- q))
  else Qred (roundPos q).

(** [x + y], [x - y], [x * y], [x / y] *)
Definition add (x y : Q) : Q := round (x + y).
Definition sub (x y : Q) : Q := round (x - y).
Definition mul (x y : Q) : Q := round (x * y).
Definition div (x y : Q) : Q := round (x / y).

(** A rational that is a binary64 number. *)
Definition representable (x : Q) : Prop := (round x == x)%Q.

End Float64.

(** An optional numeric field as JSON delivers it: absent ([undefined]),
    [null], or a number. *)
Inductive OptNumber : Type :=
| Undefined
| Null
| Num (q : Q).

(** ** Data model ([types.ts]) *)

(** A [Date]: epoch milliseconds, or the invalid date. *)
Inductive Date : Type :=
| DateMs (ms : Z)
| InvalidDate.

(** [Date.prototype.getTime]; [None] is NaN. *)
Definition getTime (d : Date) : option Z :=
  match d with
  | DateMs ms => Some ms
  | InvalidDate => None
  end.

Module ModelQuotaInfo.
Record t : Type := mk {
  label : string;
  modelId : string;
  remainingFraction : OptNumber;
  remainingPercentage : option Q;
  isExhausted : bool;
  resetTime : Date;
  timeUntilReset : option Z;
  timeUntilResetFormatted : string
}.
End ModelQuotaInfo.

Module PromptCreditsInfo.
Record t : Type := mk {
  available : Q;
  monthly : Q;
  usedPercentage : Q;
  remainingPercentage : Q
}.
End PromptCreditsInfo.

Record QuotaSnapshot : Type := mkQuotaSnapshot {
  timestamp : Date;
  promptCredits : option PromptCreditsInfo.t;
  models : list ModelQuotaInfo.t
}.

Inductive GuardLevel : Type := normal | warning | critical | blocked.

#[export] Instance GuardLevel_eq_dec : EqDecision GuardLevel.
Proof. solve_decision. Defined.

Module GuardState.
Record t : Type := mk {
  level : GuardLevel;
  modelsAtRisk : list ModelQuotaInfo.t;
  lowestQuota : Q;
  lowestQuotaModel : option ModelQuotaInfo.t;
  guardActive : bool
}.
End GuardState.

Module GuardCheckResult.
Record t : Type := mk {
  shouldWarn : bool;
  shouldBlock : bool;
  level : GuardLevel;
  model : ModelQuotaInfo.t
}.
End GuardCheckResult.

Record GravityConfig : Type := mkGravityConfig {
  enabled : bool;
  warningThreshold : Q;
  blockThreshold : Q;
  pollingInterval : Q;
  guardEnabled : bool;
  soundEnabled : bool;
  pinnedModels : list string
}.

Module ProcessInfo.
Record t : Type := mk {
  extensionPort : Z;
  connectPort : Z;
  csrfToken : string
}.
End ProcessInfo.

Module ParsedProcessInfo.
(** [pid] comes out of [parseInt]: [None] is NaN. *)
Record t : Type := mk {
  pid : option Z;
  extensionPort : Z;
  csrfToken : string
}.
End ParsedProcessInfo.

(** ** The quota guard ([quota_guard.ts], class [QuotaGuard]) *)

Module QuotaGuard.

Module Ack.
(** The value type of the [acknowledgments] map. *)
Record t : Type := mk {
  level : GuardLevel;
  timestamp : Z;
  percentage : Q
}.
End Ack.

(** The fields of the class.  [blockCooldown] is the constant below. *)
Record t : Type := mk {
  lastSnapshot : option QuotaSnapshot;
  config : GravityConfig;
  guardState : GuardState.t;
  acknowledgments : gmap string Ack.t;
  lastSeenPercentages : gmap string Q;
  lastBlockShown : Z
}.

Definition blockCooldown : Z := 15000.

Definition set_config (c : GravityConfig) (g : t) : t :=
  mk (lastSnapshot g) c (guardState g) (acknowledgments g)
     (lastSeenPercentages g) (lastBlockShown g).
Definition set_guardState (s : GuardState.t) (g : t) : t :=
  mk (lastSnapshot g) (config g) s (acknowledgments g)
     (lastSeenPercentages g) (lastBlockShown g).
Definition set_lastSnapshot (s : QuotaSnapshot) (g : t) : t :=
  mk (Some s) (config g) (guardState g) (acknowledgments g)
     (lastSeenPercentages g) (lastBlockShown g).
Definition set_acknowledgments (a : gmap string Ack.t) (g : t) : t :=
  mk (lastSnapshot g) (config g) (guardState g) a
     (lastSeenPercentages g) (lastBlockShown g).
Definition set_lastSeenPercentages (l : gmap string Q) (g : t) : t :=
  mk (lastSnapshot g) (config g) (guardState g) (acknowledgments g)
     l (lastBlockShown g).
Definition set_lastBlockShown (z : Z) (g : t) : t :=
  mk (lastSnapshot g) (config g) (guardState g) (acknowledgments g)
     (lastSeenPercentages g) z.
Definition set_guardActive (b : bool) (s : GuardState.t) : GuardState.t :=
  GuardState.mk (GuardState.level s) (GuardState.modelsAtRisk s)
                (GuardState.lowestQuota s) (GuardState.lowestQuotaModel s) b.

(** [constructor(config)] *)
Definition new (c : GravityConfig) : t :=
  mk None c (GuardState.mk normal [] 100 None (guardEnabled c)) ∅ ∅ 0.

(** [updateConfig(config)] *)
Definition updateConfig (c : GravityConfig) (g : t) : t :=
  let g := set_config c g in
  set_guardState (set_guardActive (guardEnabled c) (guardState g)) g.

(** The synthetic model both [analyzeQuotaState] and
    [getModelsRequiringAttention] build for the prompt credits. *)
Definition pcVirtualModel (now : Z) (pcPct : Q) : ModelQuotaInfo.t :=
  ModelQuotaInfo.mk "Global Prompt Credits" "prompt_credits" Undefined
    (Some pcPct) (Qleb pcPct 0) (DateMs (now + 3600000)) (Some 3600000%Z)
    "this billing cycle".

(** One turn of the [for] loop of [analyzeQuotaState]; the accumulator is
    ([modelsAtRisk], [lowestQuota], [lowestQuotaModel]). *)
Definition analyzeModel (c : GravityConfig)
    (acc : list ModelQuotaInfo.t * Q * option ModelQuotaInfo.t)
    (model : ModelQuotaInfo.t)
  : list ModelQuotaInfo.t * Q * option ModelQuotaInfo.t :=
  let '(modelsAtRisk, lowestQuota, lowestQuotaModel) := acc in
  let pct := default 100%Q (ModelQuotaInfo.remainingPercentage model) in
  let '(lowestQuota, lowestQuotaModel) :=
    if Qltb pct lowestQuota then (pct, Some model)
    else (lowestQuota, lowestQuotaModel) in
  let modelsAtRisk :=
    if Qleb pct (warningThreshold c) then modelsAtRisk ++ [model]
    else modelsAtRisk in
  (modelsAtRisk, lowestQuota, lowestQuotaModel).

(** The final [if] chain of [analyzeQuotaState]. *)
Definition levelOf (c : GravityConfig) (lowestQuota : Q) : GuardLevel :=
  if Qleb lowestQuota 0 then blocked
  else if Qleb lowestQuota (blockThreshold c) then critical
  else if Qleb lowestQuota (warningThreshold c) then warning
  else normal.

(** [analyzeQuotaState(snapshot)]; [now] is the [Date.now()] read for the
    placeholder reset time of the synthetic model. *)
Definition analyzeQuotaState (now : Z) (c : GravityConfig)
    (snapshot : QuotaSnapshot) : GuardState.t :=
  let acc := fold_left (analyzeModel c) (models snapshot) ([], 100%Q, None) in
  let '(modelsAtRisk, lowestQuota, lowestQuotaModel) :=
    match promptCredits snapshot with
    | Some pc =>
        analyzeModel c acc
          (pcVirtualModel now (PromptCreditsInfo.remainingPercentage pc))
    | None => acc
    end in
  GuardState.mk (levelOf c lowestQuota) modelsAtRisk lowestQuota
                lowestQuotaModel (guardEnabled c).

(** The body of the [for] loop of [updateSnapshot]. *)
Definition trackModel (g : t) (model : ModelQuotaInfo.t) : t :=
  let currentPct := default 100%Q (ModelQuotaInfo.remainingPercentage model) in
  let lastPct := lastSeenPercentages g !! ModelQuotaInfo.modelId model in
  let g :=
    match lastPct with
    | Some lastPct =>
        if Qgeb currentPct (Float64.add lastPct 2) then
          set_acknowledgments
            (delete "prompt_credits"
               (delete (ModelQuotaInfo.modelId model) (acknowledgments g))) g
        else g
    | None => g
    end in
  set_lastSeenPercentages
    (<[ModelQuotaInfo.modelId model := currentPct]> (lastSeenPercentages g)) g.

(** The prompt-credits block of [updateSnapshot]. *)
Definition trackPromptCredits (g : t) (pc : PromptCreditsInfo.t) : t :=
  let currentPct := PromptCreditsInfo.remainingPercentage pc in
  let lastPct := lastSeenPercentages g !! "prompt_credits" in
  let g :=
    match lastPct with
    | Some lastPct =>
        if Qgeb currentPct (Float64.add lastPct 2) then
          set_acknowledgments (delete "prompt_credits" (acknowledgments g)) g
        else g
    | None => g
    end in
  set_lastSeenPercentages
    (<["prompt_credits" := currentPct]> (lastSeenPercentages g)) g.

(** [updateSnapshot(snapshot)]; the returned [GuardState] is the
    [guardState] field of the result. *)
Definition updateSnapshot (now : Z) (snapshot : QuotaSnapshot) (g : t) : t :=
  let g := fold_left trackModel (models snapshot) g in
  let g :=
    match promptCredits snapshot with
    | Some pc => trackPromptCredits g pc
    | None => g
    end in
  let g := set_lastSnapshot snapshot g in
  set_guardState (analyzeQuotaState now (config g) snapshot) g.

Definition getState (g : t) : GuardState.t := guardState g.

Definition isGuardActive (g : t) : bool := GuardState.guardActive (guardState g).

(** [toggleGuard()]: the flag of the current [guardState] object is
    flipped in place; the new value is returned. *)
Definition toggleGuard (g : t) : bool * t :=
  let b := negb (GuardState.guardActive (guardState g)) in
  (b, set_guardState (set_guardActive b (guardState g)) g).

(** [getModelsRequiringAttention()] *)
Definition getModelsRequiringAttention (now : Z) (g : t) : list ModelQuotaInfo.t :=
  match lastSnapshot g with
  | None => []
  | Some snapshot =>
      let atRisk :=
        List.filter
          (fun model =>
             Qleb (default 100%Q (ModelQuotaInfo.remainingPercentage model))
                  (warningThreshold (config g)))
          (models snapshot) in
      match promptCredits snapshot with
      | Some pc =>
          let pcPct := PromptCreditsInfo.remainingPercentage pc in
          if Qleb pcPct (warningThreshold (config g))
          then atRisk ++ [pcVirtualModel now pcPct]
          else atRisk
      | None => atRisk
      end
  end.

(** [checkModel(model)] (the message text is not modelled). *)
Definition checkModel (c : GravityConfig) (model : ModelQuotaInfo.t)
  : GuardCheckResult.t :=
  let pct := default 100%Q (ModelQuotaInfo.remainingPercentage model) in
  if Qleb pct 0 then GuardCheckResult.mk false true blocked model
  else if Qleb pct (blockThreshold c) then GuardCheckResult.mk false true critical model
  else if Qleb pct (warningThreshold c) then GuardCheckResult.mk true false warning model
  else GuardCheckResult.mk false false normal model.

(** The [levelOrder] table of [shouldShowAlert]. *)
Definition levelOrder (l : GuardLevel) : Z :=
  match l with
  | normal => 0
  | warning => 1
  | critical => 2
  | blocked => 3
  end.

(** [shouldShowAlert(check)]; [now] is its [Date.now()]. *)
Definition shouldShowAlert (now : Z) (g : t) (check : GuardCheckResult.t) : bool :=
  match acknowledgments g !! ModelQuotaInfo.modelId (GuardCheckResult.model check) with
  | None => true
  | Some ack =>
      if (levelOrder (Ack.level ack) <? levelOrder (GuardCheckResult.level check))%Z
      then true
      else if bool_decide (GuardCheckResult.level check = critical)
              || bool_decide (GuardCheckResult.level check = blocked)
      then false
      else
        let beenLongEnough := (600000 <? now - Ack.timestamp ack)%Z in
        let droppedSignificantly :=
          Qgtb (Float64.sub (Ack.percentage ack)
                  (default 0%Q (ModelQuotaInfo.remainingPercentage
                                  (GuardCheckResult.model check)))) 5 in
        beenLongEnough || droppedSignificantly
  end.

(** What the user answers to a modal: the button pressed, or [None] when
    the notification is dismissed. *)
Definition UserChoice : Type := option string.

Definition recordAck (nowAck : Z) (check : GuardCheckResult.t) (g : t) : t :=
  set_acknowledgments
    (<[ModelQuotaInfo.modelId (GuardCheckResult.model check) :=
         Ack.mk (GuardCheckResult.level check) nowAck
                (default 0%Q (ModelQuotaInfo.remainingPercentage
                                (GuardCheckResult.model check)))]>
       (acknowledgments g)) g.

(** [showWarningModal(check)]; [nowAck] is the clock when the user has
    answered. *)
Definition showWarningModal (nowAck : Z) (result : UserChoice)
    (check : GuardCheckResult.t) (g : t) : bool * t :=
  if bool_decide (result = Some "Show Details") then (false, g)
  else (true, recordAck nowAck check g).

(** [showBlockModal(check)] *)
Definition showBlockModal (now nowAck : Z) (result : UserChoice)
    (check : GuardCheckResult.t) (g : t) : bool * t :=
  if (now - lastBlockShown g <? blockCooldown)%Z then (false, g)
  else
    let g := set_lastBlockShown now g in
    let g := recordAck nowAck check g in
    if bool_decide (result = Some "Proceed Anyway") then (true, g)
    else (false, g).

(** The [reduce] of [checkAndWarn]: the first model with the lowest
    percentage. *)
Definition worse (worst current : ModelQuotaInfo.t) : ModelQuotaInfo.t :=
  let worstPct := default 100%Q (ModelQuotaInfo.remainingPercentage worst) in
  let currentPct := default 100%Q (ModelQuotaInfo.remainingPercentage current) in
  if Qltb currentPct worstPct then current else worst.

(** [checkAndWarn()].  [now] serves the clock reads before the modal,
    [nowAck] those after the user's answer [result]. *)
Definition checkAndWarn (now nowAck : Z) (result : UserChoice) (g : t) : bool * t :=
  if negb (GuardState.guardActive (guardState g)) then (true, g)
  else
    match getModelsRequiringAttention now g with
    | [] => (true, g)
    | first :: rest =>
        let worstModel := fold_left worse rest first in
        let check := checkModel (config g) worstModel in
        if negb (shouldShowAlert now g check) then (true, g)
        else if GuardCheckResult.shouldBlock check
        then showBlockModal now nowAck result check g
        else if GuardCheckResult.shouldWarn check
        then showWarningModal nowAck result check g
        else (true, g)
    end.

(** The percentage the guard works with for a model: an absent one is
    read as 100 ([model.remainingPercentage ?? 100]). *)
Definition pctOf (model : ModelQuotaInfo.t) : Q :=
  default 100%Q (ModelQuotaInfo.remainingPercentage model).

(** [clearDismissedWarnings()] *)
Definition clearDismissedWarnings (now : Z) (g : t) : t :=
  set_acknowledgments
    (filter (fun kv : string * Ack.t =>
               ¬ (Ack.level kv.2 = warning ∧ (3600000 < now - Ack.timestamp kv.2)%Z))
            (acknowledgments g)) g.

(** *** The classification as the specification words it

    "p ≤ 0 ⇒ blocked; 0 < p ≤ blockThreshold ⇒ critical;
    blockThreshold < p ≤ warningThreshold ⇒ warning; otherwise normal",
    the clauses read in this order. *)
Definition spec_classify (blockT warnT p : Q) : GuardLevel :=
  if Qleb p 0 then blocked
  else if Qltb 0 p && Qleb p blockT then critical
  else if Qltb blockT p && Qleb p warnT then warning
  else normal.

(** The percentages a snapshot reports: those of the models that carry
    one, then that of the prompt credits. *)
Definition reportedPercentages (snapshot : QuotaSnapshot) : list Q :=
  omap ModelQuotaInfo.remainingPercentage (models snapshot)
  ++ match promptCredits snapshot with
     | Some pc => [PromptCreditsInfo.remainingPercentage pc]
     | None => []
     end.

(** [p] is the lowest of 100 and the percentages [l]. *)
Definition lowestOf (l : list Q) (p : Q) : Prop :=
  (p = 100%Q ∨ p ∈ l) ∧ (p <= 100)%Q ∧ ∀ q, q ∈ l → (p <= q)%Q.

(** "Strictly more severe": normal, then warning, then critical, then
    blocked. *)
Inductive moreSevere : GuardLevel → GuardLevel → Prop :=
| warning_over_normal : moreSevere warning normal
| critical_over_normal : moreSevere critical normal
| blocked_over_normal : moreSevere blocked normal
| critical_over_warning : moreSevere critical warning
| blocked_over_warning : moreSevere blocked warning
| blocked_over_critical : moreSevere blocked critical.

(** *** Reset detection, seen from the two maps

    [snapshotEntries] lists what [updateSnapshot] walks through: every
    model with its percentage, then the prompt credits. *)
Definition snapshotEntries (snapshot : QuotaSnapshot) : list (string * Q) :=
  map (fun model => (ModelQuotaInfo.modelId model, pctOf model)) (models snapshot)
  ++ match promptCredits snapshot with
     | Some pc => [("prompt_credits", PromptCreditsInfo.remainingPercentage pc)]
     | None => []
     end.

(** "current ≥ last + 2.0", the sum being the binary64 one. *)
Definition isReset (last current : Q) : Prop := (Float64.add last 2 <= current)%Q.

(** Some entry of the snapshot is a reset against what [g] has recorded. *)
Definition anyReset (g : t) (snapshot : QuotaSnapshot) : Prop :=
  ∃ id current last,
    (id, current) ∈ snapshotEntries snapshot
    ∧ lastSeenPercentages g !! id = Some last
    ∧ isReset last current.

(** The acknowledgments a walk over the entries of a snapshot clears, as
    the specification words it: an entry whose id has a last-observed
    percentage and whose percentage is a reset against it clears the
    acknowledgment of that id and the one of the prompt credits; every
    entry becomes the last-observed percentage of its id, reset or not. *)
Fixpoint cleared (seen : gmap string Q) (entries : list (string * Q)) (k : string)
  : Prop :=
  match entries with
  | [] => False
  | (id, current) :: entries =>
      (∃ last, seen !! id = Some last ∧ isReset last current
               ∧ (k = id ∨ k = "prompt_credits"))
      ∨ cleared (<[id := current]> seen) entries k
  end.

(** The last-observed percentages after the walk. *)
Definition recorded (seen : gmap string Q) (entries : list (string * Q))
  : gmap string Q :=
  fold_left (fun seen e => <[e.1 := e.2]> seen) entries seen.

(** The two maps after one entry has been looked at. *)
Definition observe (st : gmap string Ack.t * gmap string Q) (e : string * Q)
  : gmap string Ack.t * gmap string Q :=
  (match st.2 !! e.1 with
   | Some last =>
       if Qgeb e.2 (Float64.add last 2)
       then delete "prompt_credits" (delete e.1 st.1)
       else st.1
   | None => st.1
   end,
   <[e.1 := e.2]> st.2).

Definition maps (g : t) : gmap string Ack.t * gmap string Q :=
  (acknowledgments g, lastSeenPercentages g).

(** *** An absent percentage read as 100

    [read100 model] is [model] with its percentage made explicit the way
    the guard reads it; [read100Snapshot] does so for every model. *)
Definition read100 (model : ModelQuotaInfo.t) : ModelQuotaInfo.t :=
  ModelQuotaInfo.mk
    (ModelQuotaInfo.label model) (ModelQuotaInfo.modelId model)
    (ModelQuotaInfo.remainingFraction model) (Some (pctOf model))
    (ModelQuotaInfo.isExhausted model) (ModelQuotaInfo.resetTime model)
    (ModelQuotaInfo.timeUntilReset model)
    (ModelQuotaInfo.timeUntilResetFormatted model).

Definition read100Snapshot (snapshot : QuotaSnapshot) : QuotaSnapshot :=
  mkQuotaSnapshot (timestamp snapshot) (promptCredits snapshot)
                  (map read100 (models snapshot)).

(** *** Sample data *)

(** The defaults of [ConfigManager.getConfig]. *)
Definition defaultConfig : GravityConfig :=
  mkGravityConfig true 20 2 120000 true true [].

Definition modelAt (id : string) (pct : option Q) : ModelQuotaInfo.t :=
  ModelQuotaInfo.mk id id Undefined pct false (DateMs 3600000) (Some 3600000%Z) "60m".

Definition snapshotOf (ms : list ModelQuotaInfo.t) : QuotaSnapshot :=
  mkQuotaSnapshot (DateMs 0) None ms.

End QuotaGuard.

(** ** Endpoint discovery ([process_finder.ts], class [ProcessFinder]) *)

(** The interface [PlatformStrategy] of [platform_strategies.ts]. *)
Class PlatformStrategy : Type := {
  getProcessListCommand : string → string;
  parseProcessInfo : string → option ParsedProcessInfo.t;
  getPortListCommand : option Z → string;
  parseListeningPorts : string → option Z → list Z
}.

Module ProcessFinder.

(** What [execAsync(cmd)] does: resolve with the two outputs, or reject. *)
Inductive ExecResult : Type :=
| ExecOk (stdout stderr : string)
| ExecThrows (message : string).

(** What comes back from the probe request of [testPort]. *)
Inductive ProbeResult : Type :=
| ProbeResponse (statusCode : Z) (body : string)
| ProbeError (message : string)
| ProbeTimeout.

(** The two places that call [execAsync]. *)
Inductive ExecSite : Type := ProcessList | PortList.

(** What the finder does to the outside world, in order. *)
Inductive Event : Type :=
| EvExec (site : ExecSite) (cmd : string) (r : ExecResult)
| EvProbe (port : Z) (csrfToken : string) (r : ProbeResult)
| EvSleep (ms : Z).

(** The outside world: its answers may depend on all that happened before. *)
Record Env : Type := mkEnv {
  execAsync : list Event → string → ExecResult;
  httpsRequest : list Event → Z → string → ProbeResult
}.

(** Computations that extend the trace of events. *)
Definition M (A : Type) : Type := list Event → A * list Event.

#[export] Instance M_ret : MRet M := fun A (a : A) tr => (a, tr).

#[export] Instance M_bind : MBind M :=
  fun A B (k : A → M B) (m : M A) tr => let '(a, tr) := m tr in k a tr.

(** A loop that may run out of fuel. *)
Inductive Outcome (A : Type) : Type :=
| Done (a : A)
| OutOfFuel.
Arguments Done {A} a.
Arguments OutOfFuel {A}.

Section Finder.
Context {strategy : PlatformStrategy}.
Variable processName : string.
Variable env : Env.
(** [JSON.parse] succeeds on this text. *)
Variable isJSON : string → bool.

Definition exec (site : ExecSite) (cmd : string) : M ExecResult :=
  fun tr => let r := execAsync env tr cmd in (r, tr ++ [EvExec site cmd r]).

Definition sleep (ms : Z) : M unit := fun tr => (tt, tr ++ [EvSleep ms]).

(** The verdict of [testPort] on what came back. *)
Definition answers (r : ProbeResult) : bool :=
  match r with
  | ProbeResponse statusCode body => (statusCode =? 200)%Z && isJSON body
  | ProbeError _ => false
  | ProbeTimeout => false
  end.

(** [testPort(port, csrfToken)] *)
Definition testPort (port : Z) (csrfToken : string) : M bool :=
  fun tr =>
    let r := httpsRequest env tr port csrfToken in
    (answers r, tr ++ [EvProbe port csrfToken r]).

(** [findWorkingPort(ports, csrfToken)] *)
Fixpoint findWorkingPort (ports : list Z) (csrfToken : string) : M (option Z) :=
  match ports with
  | [] => mret None
  | port :: ports =>
      isWorking ← testPort port csrfToken;
      if isWorking : bool then mret (Some port)
      else findWorkingPort ports csrfToken
  end.

(** [getListeningPorts(pid)] *)
Definition getListeningPorts (pid : option Z) : M (list Z) :=
  r ← exec PortList (getPortListCommand pid);
  match r with
  | ExecOk stdout _ => mret (parseListeningPorts stdout pid)
  | ExecThrows _ => mret []
  end.

(** One turn of the [for] loop of [detectProcessInfo], up to the delay:
    [Some] is the value returned from inside the loop. *)
Definition attemptOnce : M (option ProcessInfo.t) :=
  r ← exec ProcessList (getProcessListCommand processName);
  match r with
  | ExecThrows _ => mret None
  | ExecOk stdout _ =>
      match parseProcessInfo stdout with
      | None => mret None
      | Some info =>
          ports ← getListeningPorts (ParsedProcessInfo.pid info);
          if (0 <? Z.of_nat (length ports))%Z then
            validPort ← findWorkingPort ports (ParsedProcessInfo.csrfToken info);
            match validPort with
            | Some validPort =>
                (* [if (validPort)]: the number 0 does not pass *)
                if (validPort =? 0)%Z then mret None
                else mret (Some (ProcessInfo.mk
                                  (ParsedProcessInfo.extensionPort info)
                                  validPort
                                  (ParsedProcessInfo.csrfToken info)))
            | None => mret None
            end
          else mret None
      end
  end.

(** The [for] loop of [detectProcessInfo], from the turn [attempt] on. *)
Fixpoint detectLoop (fuel : nat) (attempt maxRetries : Z)
  : M (Outcome (option ProcessInfo.t)) :=
  if (attempt <? maxRetries)%Z then
    match fuel with
    | O => mret OutOfFuel
    | S fuel =>
        r ← attemptOnce;
        match r with
        | Some info => mret (Done (Some info))
        | None =>
            _ ← (if (attempt <? maxRetries - 1)%Z then sleep 500 else mret tt);
            detectLoop fuel (attempt + 1) maxRetries
        end
    end
  else mret (Done None).

(** [detectProcessInfo(maxRetries)]; [maxRetries] is an integer. *)
Definition detectProcessInfo (maxRetries : Z) : M (Outcome (option ProcessInfo.t)) :=
  detectLoop (Z.to_nat maxRetries) 0 maxRetries.

(** *** Port validation, spelled out *)

(** The events of probing [ports] one after the other, after [tr]. *)
Fixpoint probeEvents (tr : list Event) (ports : list Z) (csrfToken : string)
  : list Event :=
  match ports with
  | [] => []
  | port :: ports =>
      let e := EvProbe port csrfToken (httpsRequest env tr port csrfToken) in
      e :: probeEvents (tr ++ [e]) ports csrfToken
  end.

(** What came back is "HTTP 200 with a parseable JSON body". *)
Definition working (r : ProbeResult) : Prop :=
  ∃ body, r = ProbeResponse 200 body ∧ isJSON body = true.

(** None of [ports], probed one after the other after [tr], works. *)
Fixpoint allFail (tr : list Event) (ports : list Z) (csrfToken : string) : Prop :=
  match ports with
  | [] => True
  | port :: ports =>
      let r := httpsRequest env tr port csrfToken in
      ¬ working r
      ∧ allFail (tr ++ [EvProbe port csrfToken r]) ports csrfToken
  end.

(** *** The retry discipline as the specification words it

    [Retries tr k evs r]: starting after [tr], [k] attempts take place,
    producing the events [evs]; all but the last fail, consecutive
    attempts are 500 ms apart, and the last one returns [r]. *)
Inductive Retries : list Event → nat → list Event → option ProcessInfo.t → Prop :=
| Retries_last tr seg r :
    attemptOnce tr = (r, tr ++ seg) →
    Retries tr 1 seg r
| Retries_again tr seg k evs r :
    attemptOnce tr = (None, tr ++ seg) →
    Retries (tr ++ seg ++ [EvSleep 500]) k evs r →
    Retries tr (S k) (seg ++ [EvSleep 500] ++ evs) r.

End Finder.

(** The process-list commands among some events. *)
Definition processListCommands (evs : list Event) : list string :=
  omap (fun e => match e with
                 | EvExec ProcessList cmd _ => Some cmd
                 | _ => None
                 end) evs.

Definition delays (evs : list Event) : list Z :=
  omap (fun e => match e with EvSleep ms => Some ms | _ => None end) evs.

(** The ports probed by some events, in order. *)
Definition probedPorts (evs : list Event) : list Z :=
  omap (fun e => match e with EvProbe port _ _ => Some port | _ => None end) evs.

End ProcessFinder.

(** ** Quota source ([config_manager.ts], class [QuotaManager]) *)

Module ServerModelConfig.
(** [quotaInfo] of a [ServerModelConfig]. *)
Record QuotaInfo : Type := mkQuotaInfo {
  remainingFraction : OptNumber;
  resetTime : string
}.

(** [modelOrAlias] carries the [model] string when present. *)
Record t : Type := mk {
  label : string;
  modelOrAlias : option string;
  quotaInfo : option QuotaInfo
}.
End ServerModelConfig.

Module PlanStatus.
Record PlanInfo : Type := mkPlanInfo {
  monthlyPromptCredits : OptNumber
}.

(** [parseResponse] tests [planInfo] for truth and
    [availablePromptCredits] against [undefined]. *)
Record t : Type := mk {
  planInfo : option PlanInfo;
  availablePromptCredits : OptNumber
}.
End PlanStatus.

(** [ServerUserStatusResponse.userStatus]; an absent
    [cascadeModelConfigData] is [None]. *)
Record UserStatus : Type := mkUserStatus {
  planStatus : option PlanStatus.t;
  cascadeModelConfigData : option (list ServerModelConfig.t)
}.

(** A parsed body need not carry a [userStatus] (the body [{}] does
    not). *)
Record ServerUserStatusResponse : Type := mkServerUserStatusResponse {
  userStatus : option UserStatus
}.

Module QuotaManager.

(** How the HTTPS exchange of [request] ends. *)
Inductive Transport : Type :=
| NetworkError (message : string)   (* the ['error'] event *)
| TimedOut                          (* the ['timeout'] event *)
| Responded (body : string).        (* the response's ['end'] event *)

(** An [Error], by its message. *)
Definition Error : Type := string.

Section Manager.
(** The part of the extension the callbacks act on. *)
Variable World : Type.
(** [JSON.parse] followed by the cast to the response type; [None] when
    the text is not JSON. *)
Variable JSON_parse : string → option ServerUserStatusResponse.
(** [new Date(text)] *)
Variable Date_parse : string → Date.
(** [toLocaleDateString] and [toLocaleTimeString] with the options of
    [formatTime]. *)
Variable toLocaleDateString : Date → string.
Variable toLocaleTimeString : Date → string.

(** The fields of the class.  An update callback may throw (it runs
    inside the [try] of [fetchQuota]): it returns the error thrown, if
    any.  The polling timer is not modelled. *)
Record t : Type := mk {
  port : Z;
  csrfToken : string;
  updateCallback : option (QuotaSnapshot → World → World * option Error);
  errorCallback : option (Error → World → World);
  lastSnapshot : option QuotaSnapshot
}.

Definition new : t := mk 0 "" None None None.

Definition init (port : Z) (csrfToken : string) (m : t) : t :=
  mk port csrfToken (updateCallback m) (errorCallback m) (lastSnapshot m).

Definition getLastSnapshot (m : t) : option QuotaSnapshot := lastSnapshot m.

Definition onUpdate (callback : QuotaSnapshot → World → World * option Error)
    (m : t) : t :=
  mk (port m) (csrfToken m) (Some callback) (errorCallback m) (lastSnapshot m).

Definition onError (callback : Error → World → World) (m : t) : t :=
  mk (port m) (csrfToken m) (updateCallback m) (Some callback) (lastSnapshot m).

Definition set_lastSnapshot (s : QuotaSnapshot) (m : t) : t :=
  mk (port m) (csrfToken m) (updateCallback m) (errorCallback m) (Some s).

(** [request(path, body)]: the promise rejects ([inl]) or resolves. *)
Definition request (tr : Transport) : Error + ServerUserStatusResponse :=
  match tr with
  | NetworkError message => inl message
  | TimedOut => inl "Request timeout"
  | Responded body =>
      match JSON_parse body with
      | Some data => inr data
      | None => inl "Invalid JSON response"
      end
  end.

(** [formatTime(ms, resetTime)]; [ms = None] is NaN. *)
Definition formatTime (ms : option Z) (resetTime : Date) : string :=
  match ms with
  | Some ms =>
      if (ms <=? 0)%Z then "Ready"
      else
        let mins := ((ms + 59999) / 60000)%Z in   (* [Math.ceil(ms / 60000)] *)
        let duration :=
          if (mins <? 60)%Z then pretty mins +:+ "m"
          else
            let hours := (mins / 60)%Z in
            let remainingMins := (mins mod 60)%Z in
            if (0 <? remainingMins)%Z
            then pretty hours +:+ "h " +:+ pretty remainingMins +:+ "m"
            else pretty hours +:+ "h" in
        duration +:+ " (" +:+ toLocaleDateString resetTime +:+ " "
                 +:+ toLocaleTimeString resetTime +:+ ")"
  | None =>
      "NaNh (" +:+ toLocaleDateString resetTime +:+ " "
               +:+ toLocaleTimeString resetTime +:+ ")"
  end.

(** [Number(x)] on an optional number; [None] is NaN. *)
Definition Number (x : OptNumber) : option Q :=
  match x with
  | Undefined => None
  | Null => Some 0%Q
  | Num q => Some q
  end.

(** The prompt-credits part of [parseResponse]. *)
Definition parsePromptCredits (userStatus : UserStatus) : option PromptCreditsInfo.t :=
  match planStatus userStatus with
  | Some ps =>
      match PlanStatus.planInfo ps, PlanStatus.availablePromptCredits ps with
      | None, _ => None
      | Some _, Undefined => None
      | Some planInfo, availableCredits =>
          match Number (PlanStatus.monthlyPromptCredits planInfo),
                Number availableCredits with
          | Some monthly, Some available =>
              if Qgtb monthly 0 then
                Some (PromptCreditsInfo.mk available monthly
                        (Float64.mul
                           (Float64.div (Float64.sub monthly available) monthly) 100)
                        (Float64.mul (Float64.div available monthly) 100))
              else None
          | _, _ => None                        (* [NaN > 0] is false *)
          end
      end
  | None => None
  end.

(** The body of the [map] of [parseResponse], for a model that has passed
    the [filter]; [now] is the [new Date()] read in that turn. *)
Definition parseModel (now : Z) (label : string) (modelOrAlias : option string)
    (quotaInfo : ServerModelConfig.QuotaInfo) : ModelQuotaInfo.t :=
  let resetTime := Date_parse (ServerModelConfig.resetTime quotaInfo) in
  let diff := (fun t => t - now)%Z <$> getTime resetTime in
  let remainingFraction := ServerModelConfig.remainingFraction quotaInfo in
  ModelQuotaInfo.mk
    label
    (match modelOrAlias with
     | Some model => if bool_decide (model = "") then "unknown" else model
     | None => "unknown"
     end)
    remainingFraction
    (match remainingFraction with
     | Undefined => None
     | Null => Some 0%Q                          (* [null * 100] *)
     | Num f => Some (Float64.mul f 100)
     end)
    (match remainingFraction with
     | Num f => Qeq_bool f 0
     | _ => false
     end)
    resetTime
    diff
    (formatTime diff resetTime).

(** The raw models that pass [.filter((m) => m.quotaInfo)]. *)
Definition withQuotaInfo (rawModels : list ServerModelConfig.t)
  : list (string * option string * ServerModelConfig.QuotaInfo) :=
  omap (fun m => (fun q => (ServerModelConfig.label m, ServerModelConfig.modelOrAlias m, q))
                 <$> ServerModelConfig.quotaInfo m) rawModels.

(** The [TypeError] of reading a property of [undefined] (the wording is
    V8's). *)
Definition typeError : Error :=
  "Cannot read properties of undefined (reading 'planStatus')".

(** [parseResponse(data)]: it throws ([inl]) when [userStatus] is
    absent.  [clock i] is the [i]-th reading of the clock during the call:
    one per model kept, then one for the timestamp. *)
Definition parseResponse (clock : nat → Z) (data : ServerUserStatusResponse)
  : Error + QuotaSnapshot :=
  match userStatus data with
  | None => inl typeError
  | Some userStatus =>
      let promptCredits := parsePromptCredits userStatus in
      let rawModels := default [] (cascadeModelConfigData userStatus) in
      let kept := withQuotaInfo rawModels in
      let models := imap (fun i '(label, modelOrAlias, q) =>
                            parseModel (clock i) label modelOrAlias q) kept in
      inr (mkQuotaSnapshot (DateMs (clock (length kept))) promptCredits models)
  end.

Definition reportError (m : t) (err : Error) (w : World) : World :=
  match errorCallback m with
  | Some callback => callback err w
  | None => w
  end.

(** [fetchQuota()], given how the exchange ends. *)
Definition fetchQuota (tr : Transport) (clock : nat → Z) (m : t) (w : World)
  : option QuotaSnapshot * t * World :=
  match request tr with
  | inr data =>
      match parseResponse clock data with
      | inr snapshot =>
          let m := set_lastSnapshot snapshot m in
          match updateCallback m with
          | Some callback =>
              match callback snapshot w with
              | (w, None) => (Some snapshot, m, w)
              | (w, Some err) => (None, m, reportError m err w)
              end
          | None => (Some snapshot, m, w)
          end
      | inl err => (None, m, reportError m err w)
      end
  | inl err => (None, m, reportError m err w)
  end.

(** The transport failures of the specification, with the error each
    one raises. *)
Definition transportFailure (tr : Transport) (err : Error) : Prop :=
  match tr with
  | NetworkError message => err = message
  | TimedOut => err = "Request timeout"
  | Responded body => JSON_parse body = None ∧ err = "Invalid JSON response"
  end.

End Manager.

Arguments mk {World} _ _ _ _ _.
Arguments port {World} _.
Arguments csrfToken {World} _.
Arguments updateCallback {World} _.
Arguments errorCallback {World} _.
Arguments lastSnapshot {World} _.
Arguments reportError {World} _ _ _.

End QuotaManager.

(** ** Platform strategies ([platform_strategies.ts]) *)

Module PlatformStrategies.

(** *** Characters and strings

    A string is a sequence of characters with codes below 256; the parsers
    work on [list ascii]. *)

Definition code (c : ascii) : N := N_of_ascii c.

Definition inRange (lo hi c : ascii) : bool :=
  (code lo <=? code c)%N && (code c <=? code hi)%N.

Definition isLower (c : ascii) : bool := inRange "a" "z" c.
Definition isUpper (c : ascii) : bool := inRange "A" "Z" c.

Definition toUpper (c : ascii) : ascii :=
  if isLower c then ascii_of_N (code c - 32) else c.
Definition toLower (c : ascii) : ascii :=
  if isUpper c then ascii_of_N (code c + 32) else c.

(** [\d] *)
Definition isDigit (c : ascii) : bool := inRange "0" "9" c.

(** [\s], and what [trim] strips: tab, line feed, vertical tab, form feed,
    carriage return, space, no-break space. *)
Definition isSpace (c : ascii) : bool :=
  ((9 <=? code c)%N && (code c <=? 13)%N) || (code c =? 32)%N || (code c =? 160)%N.

(** [.]: any character but a line terminator. *)
Definition isLineTerminator (c : ascii) : bool :=
  (code c =? 10)%N || (code c =? 13)%N.

(** *** Regular expressions

    The fragment of the JavaScript syntax the source uses: literal
    characters, character classes, greedy [+], [*] and [{n}] on a class,
    [?] on a character, concatenation and capturing groups. *)

Inductive ClassItem : Type :=
| One (c : ascii)            (* a character *)
| Range (lo hi : ascii)      (* [lo-hi] *)
| Digits                     (* [\d] *)
| Spaces.                    (* [\s] *)

Inductive CharClass : Type :=
| Among (items : list ClassItem)      (* [[...]] *)
| NotAmong (items : list ClassItem)   (* [[^...]] *)
| Dot.                                (* [.] *)

Inductive Regex : Type :=
| Chr (c : ascii)
| Cls (p : CharClass)
| OptChr (c : ascii)                  (* [c?] *)
| PlusCls (p : CharClass)             (* [p+] *)
| StarCls (p : CharClass)             (* [p*] *)
| TimesCls (n : nat) (p : CharClass)  (* [p{n}] *)
| Group (r : Regex)                   (* [(r)] *)
| Cat (r1 r2 : Regex)
| Eps.

(** A literal text, character by character. *)
Fixpoint Lit (s : string) : Regex :=
  match s with
  | EmptyString => Eps
  | String c s => Cat (Chr c) (Lit s)
  end.

Fixpoint Cats (rs : list Regex) : Regex :=
  match rs with
  | [] => Eps
  | r :: rs => Cat r (Cats rs)
  end.

Section Matcher.
(** The [i] flag. *)
Variable ignoreCase : bool.

Definition sameChar (p c : ascii) : bool :=
  if ignoreCase then Ascii.eqb (toUpper p) (toUpper c) else Ascii.eqb p c.

Definition itemMatches (it : ClassItem) (c : ascii) : bool :=
  match it with
  | One p => sameChar p c
  | Range lo hi =>
      inRange lo hi c
      || (ignoreCase && (inRange lo hi (toUpper c) || inRange lo hi (toLower c)))
  | Digits => isDigit c
  | Spaces => isSpace c
  end.

Definition classMatches (p : CharClass) (c : ascii) : bool :=
  match p with
  | Among items => existsb (fun it => itemMatches it c) items
  | NotAmong items => negb (existsb (fun it => itemMatches it c) items)
  | Dot => negb (isLineTerminator c)
  end.

(** The backtracking matcher, in continuation-passing style.  [caps] are
    the texts of the groups closed so far, in order; a greedy repetition
    first tries to take one more character and falls back to the
    continuation. *)
Fixpoint matchHere (r : Regex)
    (k : list ascii → list (list ascii) → option (list (list ascii)))
    (s : list ascii) (caps : list (list ascii)) : option (list (list ascii)) :=
  match r with
  | Eps => k s caps
  | Chr p =>
      match s with
      | c :: s' => if sameChar p c then k s' caps else None
      | [] => None
      end
  | Cls p =>
      match s with
      | c :: s' => if classMatches p c then k s' caps else None
      | [] => None
      end
  | OptChr p =>
      match (match s with
             | c :: s' => if sameChar p c then k s' caps else None
             | [] => None
             end) with
      | Some res => Some res
      | None => k s caps
      end
  | PlusCls p =>
      (fix plus (s : list ascii) : option (list (list ascii)) :=
         match s with
         | c :: s' =>
             if classMatches p c then
               match plus s' with
               | Some res => Some res
               | None => k s' caps
               end
             else None
         | [] => None
         end) s
  | StarCls p =>
      (fix star (s : list ascii) : option (list (list ascii)) :=
         match (match s with
                | c :: s' => if classMatches p c then star s' else None
                | [] => None
                end) with
         | Some res => Some res
         | None => k s caps
         end) s
  | TimesCls n p =>
      (fix times (n : nat) (s : list ascii) : option (list (list ascii)) :=
         match n with
         | O => k s caps
         | S n =>
             match s with
             | c :: s' => if classMatches p c then times n s' else None
             | [] => None
             end
         end) n s
  | Group r =>
      matchHere r
        (fun s' caps' => k s' (caps' ++ [take (length s - length s') s])) s caps
  | Cat r1 r2 => matchHere r1 (matchHere r2 k) s caps
  end.

(** [String.prototype.match] without the [g] flag: the groups of the
    leftmost match, or [None]. *)
Fixpoint search (r : Regex) (s : list ascii) : option (list (list ascii)) :=
  match matchHere r (fun _ caps => Some caps) s [] with
  | Some caps => Some caps
  | None =>
      match s with
      | [] => None
      | _ :: s' => search r s'
      end
  end.

End Matcher.

(** Group number [n] of a match ([match[n]], [n ≥ 1]). *)
Definition group (n : nat) (m : list (list ascii)) : list ascii :=
  default [] (m !! (n - 1)%nat).

(** *** String operations *)

Fixpoint takeWhile (f : ascii → bool) (s : list ascii) : list ascii :=
  match s with
  | c :: s' => if f c then c :: takeWhile f s' else []
  | [] => []
  end.

Fixpoint dropWhile (f : ascii → bool) (s : list ascii) : list ascii :=
  match s with
  | c :: s' => if f c then dropWhile f s' else s
  | [] => []
  end.

(** [String.prototype.trim] *)
Definition trimStart (s : list ascii) : list ascii := dropWhile isSpace s.
Definition trim (s : list ascii) : list ascii := rev (trimStart (rev (trimStart s))).

(** [s.split('\n')] *)
Fixpoint splitLines (s : list ascii) (cur : list ascii) : list (list ascii) :=
  match s with
  | [] => [rev cur]
  | c :: s' =>
      if (code c =? 10)%N then rev cur :: splitLines s' []
      else splitLines s' (c :: cur)
  end.

(** [s.split(/\s+/)]; [sep] tells that the previous character was a
    separator. *)
Fixpoint splitSpaces (s : list ascii) (cur : list ascii) (sep : bool)
  : list (list ascii) :=
  match s with
  | [] => [rev cur]
  | c :: s' =>
      if isSpace c then
        if sep then splitSpaces s' cur true
        else rev cur :: splitSpaces s' [] true
      else splitSpaces s' (c :: cur) false
  end.

(** [parts.join(' ')] *)
Fixpoint joinSpace (parts : list (list ascii)) : list ascii :=
  match parts with
  | [] => []
  | [p] => p
  | p :: parts => p ++ " "%char :: joinSpace parts
  end.

(** [stdout.split('\n').filter((l) => l.trim())] *)
Definition nonBlankLines (stdout : list ascii) : list (list ascii) :=
  List.filter (fun l => negb (bool_decide (trim l = []))) (splitLines stdout []).

Definition startsWith (prefix s : list ascii) : bool :=
  bool_decide (take (length prefix) s = prefix).

Definition digitValue (c : ascii) : Z := Z.of_N (code c - 48).

(** The value of a run of decimal digits. *)
Definition decimal (ds : list ascii) : Z :=
  fold_left (fun acc d => acc * 10 + digitValue d)%Z ds 0%Z.

(** [parseInt(s, 10)]: leading white space, an optional sign, then the
    longest run of digits; [None] (NaN) when there is no digit. *)
Definition parseInt (s : list ascii) : option Z :=
  let s := trimStart s in
  let '(negative, s) :=
    match s with
    | "-"%char :: s' => (true, s')
    | "+"%char :: s' => (false, s')
    | _ => (false, s)
    end in
  match takeWhile isDigit s with
  | [] => None
  | ds => Some (if negative : bool then - decimal ds else decimal ds)%Z
  end.

(** *** The regular expressions of the source *)

(** The double quote, as a text. *)
Definition dquote : string := String (ascii_of_N 34) EmptyString.

Definition chars (s : string) : list ascii := list_ascii_of_string s.
Definition text (s : list ascii) : string := string_of_list_ascii s.

Definition eqOrSpace : CharClass := Among [One "="; Spaces].          (* [[=\s]] *)
Definition digits : CharClass := Among [Digits].                      (* [\d] *)
Definition hexDash : CharClass :=                                     (* [[a-f0-9-]] *)
  Among [Range "a" "f"; Range "0" "9"; One "-"].
Definition hex : CharClass := Among [Range "a" "f"; Range "0" "9"].   (* [[a-f0-9]] *)

(** [/--extension_server_port[=\s]+(\d+)/] *)
Definition reExtensionPort : Regex :=
  Cats [Lit "--extension_server_port"; PlusCls eqOrSpace; Group (PlusCls digits)].

(** [/--grpc_server_port[=\s]+(\d+)/] *)
Definition reGrpcPort : Regex :=
  Cats [Lit "--grpc_server_port"; PlusCls eqOrSpace; Group (PlusCls digits)].

(** [/--csrf_token[=\s]+([a-f0-9-]+)/i] *)
Definition reCsrfToken : Regex :=
  Cats [Lit "--csrf_token"; PlusCls eqOrSpace; Group (PlusCls hexDash)].

(** [/--api_server_url=https?:\/\/[^/]+\/([a-f0-9-]+)/i] *)
Definition reApiServerUrl : Regex :=
  Cats [Lit "--api_server_url=http"; OptChr "s"; Lit "://";
        PlusCls (NotAmong [One "/"]); Chr "/"; Group (PlusCls hexDash)].

(** [/([a-f0-9]{8}-[a-f0-9]{4}-[a-f0-9]{4}-[a-f0-9]{4}-[a-f0-9]{12})/i]:
    the group, and what is inside. *)
Definition uuidBody : Regex :=
  Cats [TimesCls 8 hex; Chr "-"; TimesCls 4 hex; Chr "-"; TimesCls 4 hex;
        Chr "-"; TimesCls 4 hex; Chr "-"; TimesCls 12 hex].

Definition reUuid : Regex := Group uuidBody.

Definition spaces : CharClass := Among [Spaces].                      (* [\s] *)

(** [/:(\d+)\s+.*LISTENING\s+(\d+)/i] *)
Definition reNetstatWindows : Regex :=
  Cats [Chr ":"; Group (PlusCls digits); PlusCls spaces; StarCls Dot;
        Lit "LISTENING"; PlusCls spaces; Group (PlusCls digits)].

(** [/:(\d+)\s*\(LISTEN\)/i] *)
Definition reLsof : Regex :=
  Cats [Chr ":"; Group (PlusCls digits); StarCls spaces; Lit "(LISTEN)"].

(** [/[*:](\d+)\s/] *)
Definition reLsofName : Regex :=
  Cats [Cls (Among [One "*"; One ":"]); Group (PlusCls digits); Cls spaces].

(** [/LISTEN\s+\d+\s+\d+\s+[\d.*:]+:(\d+)/] *)
Definition reSs : Regex :=
  Cats [Lit "LISTEN"; PlusCls spaces; PlusCls digits; PlusCls spaces;
        PlusCls digits; PlusCls spaces;
        PlusCls (Among [Digits; One "."; One "*"; One ":"]); Chr ":";
        Group (PlusCls digits)].

(** [/:(\d+)\s+.*LISTEN/i] *)
Definition reNetstat : Regex :=
  Cats [Chr ":"; Group (PlusCls digits); PlusCls spaces; StarCls Dot; Lit "LISTEN"].

(** [[...new Set(ports)]]: the first occurrence of each port, in order. *)
Fixpoint dedupe (seen : list Z) (ports : list Z) : list Z :=
  match ports with
  | [] => []
  | port :: ports =>
      if bool_decide (port ∈ seen) then dedupe seen ports
      else port :: dedupe (port :: seen) ports
  end.

(** A process id inside a command: [`${pid}`]. *)
Definition pidText (pid : option Z) : string :=
  match pid with
  | Some pid => pretty pid
  | None => "NaN"
  end.

(** The line feed, as a text. *)
Definition newline : string := String (ascii_of_N 10) EmptyString.

(** [a || b] on match results. *)
Definition orElse {A} (a b : option A) : option A :=
  match a with
  | Some x => Some x
  | None => b
  end.

(** The port both variants extract: [--extension_server_port] first, then
    [--grpc_server_port]. *)
Definition portMatch (cmd : list ascii) : option (list (list ascii)) :=
  orElse (search false reExtensionPort cmd) (search false reGrpcPort cmd).

(** *** [WindowsStrategy] *)

Module Windows.

Definition getProcessListCommand (processName : string) : string :=
  "wmic process where " +:+ dquote +:+ "name='" +:+ processName
  +:+ "'" +:+ dquote +:+ " get ProcessId,CommandLine /format:list".

(** [extractFromCommandLine(cmd, pid)] *)
Definition extractFromCommandLine (cmd : list ascii) (pid : Z)
  : option ParsedProcessInfo.t :=
  match portMatch cmd with
  | None => None
  | Some portMatch =>
      let extensionPort := default 0%Z (parseInt (group 1 portMatch)) in
      let csrfMatch := search true reCsrfToken cmd in
      let tokenMatch :=
        orElse csrfMatch
          (orElse (search true reApiServerUrl cmd) (search true reUuid cmd)) in
      let csrfToken :=
        match tokenMatch with
        | Some m => group 1 m
        | None => []
        end in
      if bool_decide (csrfToken = []) then None
      else Some (ParsedProcessInfo.mk (Some pid) extensionPort (text csrfToken))
  end.

(** The [for] loop of [parseProcessInfo] over the lines. *)
Definition scanLine (acc : list ascii * option Z) (line : list ascii)
  : list ascii * option Z :=
  let '(commandLine, pid) := acc in
  if startsWith (chars "CommandLine=") line
  then (trim (drop (length (chars "CommandLine=")) line), pid)
  else if startsWith (chars "ProcessId=") line
  then (commandLine, parseInt (trim (drop (length (chars "ProcessId=")) line)))
  else (commandLine, pid).

(** [parseProcessInfo(stdout)]; [pid] starts at 0. *)
Definition parseProcessInfo (stdout : string) : option ParsedProcessInfo.t :=
  let lines := nonBlankLines (chars stdout) in
  let '(commandLine, pid) := fold_left scanLine lines ([], Some 0%Z) in
  match commandLine, pid with
  | [], _ => None                        (* [!commandLine] *)
  | _, None => None                      (* [!pid]: NaN *)
  | _ :: _, Some pid =>
      if (pid =? 0)%Z then None          (* [!pid]: 0 *)
      else extractFromCommandLine commandLine pid
  end.

Definition getPortListCommand (pid : option Z) : string :=
  "netstat -ano | findstr " +:+ pidText pid +:+ " | findstr LISTENING".

(** [parseListeningPorts(stdout, pid)] *)
Definition parseListeningPorts (stdout : string) (pid : option Z) : list Z :=
  let lines := nonBlankLines (chars stdout) in
  let ports :=
    omap (fun line =>
            match search true reNetstatWindows line with
            | Some m =>
                if bool_decide (is_Some pid ∧ parseInt (group 2 m) = pid)
                then parseInt (group 1 m)
                else None
            | None => None
            end) lines in
  dedupe [] ports.

End Windows.

#[export] Instance WindowsStrategy : PlatformStrategy := {|
  getProcessListCommand := Windows.getProcessListCommand;
  parseProcessInfo := Windows.parseProcessInfo;
  getPortListCommand := Windows.getPortListCommand;
  parseListeningPorts := Windows.parseListeningPorts
|}.

(** *** [UnixStrategy] *)

Module Unix.

Definition getProcessListCommand (processName : string) : string :=
  "ps aux | grep -i " +:+ dquote +:+ processName +:+ dquote +:+ " | grep -v grep".

(** [parseProcessLine(line)] *)
Definition parseProcessLine (line : list ascii) : option ParsedProcessInfo.t :=
  let parts := splitSpaces (trim line) [] false in
  if (length parts <? 11)%nat then None
  else
    let pid := parseInt (default [] (parts !! 1%nat)) in
    let commandLine := joinSpace (drop 10 parts) in
    match portMatch commandLine with
    | None => None
    | Some portMatch =>
        let extensionPort := default 0%Z (parseInt (group 1 portMatch)) in
        let csrfMatch := search true reCsrfToken commandLine in
        let tokenMatch := orElse csrfMatch (search true reUuid commandLine) in
        let csrfToken :=
          match tokenMatch with
          | Some m => group 1 m
          | None => []
          end in
        if bool_decide (csrfToken = []) then None
        else Some (ParsedProcessInfo.mk pid extensionPort (text csrfToken))
    end.

(** [parseProcessInfo(stdout)]: the first line that parses. *)
Definition parseProcessInfo (stdout : string) : option ParsedProcessInfo.t :=
  let lines := nonBlankLines (chars stdout) in
  (fix first (lines : list (list ascii)) : option ParsedProcessInfo.t :=
     match lines with
     | [] => None
     | line :: lines =>
         match parseProcessLine line with
         | Some result => Some result
         | None => first lines
         end
     end) lines.

Inductive Platform : Type := darwin | linux.

Definition getPortListCommand (platform : Platform) (pid : option Z) : string :=
  match platform with
  | darwin => "lsof -i -P -n | grep " +:+ pidText pid +:+ " | grep LISTEN"
  | linux =>
      "ss -tlnp 2>/dev/null | grep " +:+ dquote +:+ "pid=" +:+ pidText pid
      +:+ dquote +:+ " || netstat -tlnp 2>/dev/null | grep " +:+ pidText pid
  end.

(** [parseListeningPorts(stdout, _pid)] *)
Definition parseListeningPorts (stdout : string) (_pid : option Z) : list Z :=
  let lines := nonBlankLines (chars stdout) in
  let ports :=
    omap (fun line =>
            m ← orElse (orElse (search true reLsof line) (search false reLsofName line))
                  (orElse (search false reSs line) (search true reNetstat line));
            parseInt (group 1 m)) lines in
  dedupe [] ports.

End Unix.

#[export] Instance UnixStrategy (platform : Unix.Platform) : PlatformStrategy := {|
  getProcessListCommand := Unix.getProcessListCommand;
  parseProcessInfo := Unix.parseProcessInfo;
  getPortListCommand := Unix.getPortListCommand platform;
  parseListeningPorts := Unix.parseListeningPorts
|}.

(** *** What the regular expressions mean

    [prefixMatches pat s]: the first characters of [s] satisfy the
    predicates of [pat], one each. *)
Fixpoint prefixMatches (pat : list (ascii → bool)) (s : list ascii) : bool :=
  match pat, s with
  | [], _ => true
  | f :: pat, c :: s => f c && prefixMatches pat s
  | _ :: _, [] => false
  end.

(** A hexadecimal digit of either case; the dash. *)
Definition isHexDigit (c : ascii) : bool :=
  isDigit c || inRange "a" "f" c || inRange "A" "F" c.
Definition isDash (c : ascii) : bool := Ascii.eqb c "-".

(** The shape of a UUID: 8-4-4-4-12 hexadecimal digits. *)
Definition uuidPattern : list (ascii → bool) :=
  replicate 8 isHexDigit ++ [isDash] ++ replicate 4 isHexDigit ++ [isDash]
  ++ replicate 4 isHexDigit ++ [isDash] ++ replicate 4 isHexDigit ++ [isDash]
  ++ replicate 12 isHexDigit.

Definition uuidShaped (t : list ascii) : Prop :=
  length t = 36%nat ∧ prefixMatches uuidPattern t = true.

(** [t] is the first substring of [s] that satisfies [P]: it occurs after
    [pre], and no occurrence starts earlier. *)
Definition firstSubstring (P : list ascii → Prop) (s pre t : list ascii) : Prop :=
  (∃ post, s = pre ++ t ++ post)
  ∧ P t
  ∧ ∀ pre' t' post', s = pre' ++ t' ++ post' → P t' → (length pre <= length pre')%nat.

(** The pattern of a regular expression of fixed width without groups. *)
Fixpoint fixedPattern (ignoreCase : bool) (r : Regex) : option (list (ascii → bool)) :=
  match r with
  | Eps => Some []
  | Chr c => Some [sameChar ignoreCase c]
  | Cls p => Some [classMatches ignoreCase p]
  | TimesCls n p => Some (replicate n (classMatches ignoreCase p))
  | Cat r1 r2 =>
      match fixedPattern ignoreCase r1, fixedPattern ignoreCase r2 with
      | Some p1, Some p2 => Some (p1 ++ p2)
      | _, _ => None
      end
  | _ => None
  end.

(** The number of groups of a regular expression. *)
Fixpoint groups (r : Regex) : nat :=
  match r with
  | Group r => S (groups r)
  | Cat r1 r2 => groups r1 + groups r2
  | _ => 0
  end.

(** A regular expression that ends with its only group, [(p+)]. *)
Fixpoint endsWithGroup (r : Regex) : bool :=
  match r with
  | Cat (Group (PlusCls _)) Eps => true
  | Cat r1 r2 => (groups r1 =? 0)%nat && endsWithGroup r2
  | _ => false
  end.

(** The first match among alternatives tried in order. *)
Fixpoint firstOf {A} (tries : list (option A)) : option A :=
  match tries with
  | [] => None
  | Some x :: _ => Some x
  | None :: tries => firstOf tries
  end.

(** [parseInt(portMatch[1], 10)] *)
Definition portOf (portMatch : list (list ascii)) : Z :=
  default 0%Z (parseInt (group 1 portMatch)).


End PlatformStrategies.

(** ** Sample runs of the discovery *)

Module Samples.
Import PlatformStrategies ProcessFinder.

Definition psOutput : string :=
  "user 4321 0.0 0.1 1 2 ? S 10:00 0:01 /opt/language_server_linux_x64"
  +:+ " --extension_server_port 42100"
  +:+ " --csrf_token 0a1b2c3d-1111-2222-3333-444455556666" +:+ newline.

Definition ssOutput : string :=
  "LISTEN 0 128 127.0.0.1:42100 0.0.0.0:* users:((ls,pid=4321,fd=9))" +:+ newline
  +:+ "LISTEN 0 128 127.0.0.1:42101 0.0.0.0:* users:((ls,pid=4321,fd=10))" +:+ newline
  +:+ "LISTEN 0 128 127.0.0.1:42102 0.0.0.0:* users:((ls,pid=4321,fd=11))" +:+ newline.

(** The process list fails the first time; of the three ports the last
    two answer. *)
Definition flakyEnv : Env :=
  mkEnv (fun tr cmd =>
           if String.prefix "ps aux" cmd
           then match tr with
                | [] => ExecThrows "Command failed"
                | _ => ExecOk psOutput ""
                end
           else ExecOk ssOutput "")
        (fun tr port csrfToken =>
           if (port =? 42100)%Z then ProbeError "ECONNREFUSED"
           else ProbeResponse 200 "{}").

(** No process is ever found. *)
Definition deadEnv : Env :=
  mkEnv (fun tr cmd => ExecThrows "Command failed")
        (fun tr port csrfToken => ProbeTimeout).

Definition isEmptyObject (body : string) : bool := bool_decide (body = "{}").

Definition processName : string := "language_server_linux_x64".

End Samples.


(** ** Settings ([config_manager.ts], class [ConfigManager]) *)

Module ConfigManager.

(** The [gravity] section of the settings, as one layer: a key is set or
    not, and what [update] writes is what [get] reads. *)
Record Settings : Type := mkSettings {
  enabled_ : option bool;
  warningThreshold_ : option Q;
  blockThreshold_ : option Q;
  pollingInterval_ : option Q;        (* seconds *)
  guardEnabled_ : option bool;
  soundEnabled_ : option bool;
  pinnedModels_ : option (list string)
}.

Definition noSettings : Settings := mkSettings None None None None None None None.

(** [getConfig()] *)
Definition getConfig (s : Settings) : GravityConfig :=
  mkGravityConfig
    (default true (enabled_ s))
    (default 20%Q (warningThreshold_ s))
    (default 2%Q (blockThreshold_ s))
    (default 120%Q (pollingInterval_ s) * 1000)%Q
    (default true (guardEnabled_ s))
    (default true (soundEnabled_ s))
    (default [] (pinnedModels_ s)).

(** [updateConfig('guardEnabled', value)] *)
Definition updateGuardEnabled (value : bool) (s : Settings) : Settings :=
  mkSettings (enabled_ s) (warningThreshold_ s) (blockThreshold_ s)
             (pollingInterval_ s) (Some value) (soundEnabled_ s) (pinnedModels_ s).

(** [updateConfig('pinnedModels', value)] *)
Definition updatePinnedModels (value : list string) (s : Settings) : Settings :=
  mkSettings (enabled_ s) (warningThreshold_ s) (blockThreshold_ s)
             (pollingInterval_ s) (guardEnabled_ s) (soundEnabled_ s) (Some value).

(** [Array.prototype.includes] on model ids. *)
Definition includes (ids : list string) (modelId : string) : bool :=
  bool_decide (modelId ∈ ids).

(** [toggleGuard()]: the new value, and the settings. *)
Definition toggleGuard (s : Settings) : bool * Settings :=
  let config := getConfig s in
  let newValue := negb (guardEnabled config) in
  (newValue, updateGuardEnabled newValue s).

(** [addPinnedModel(modelId)] *)
Definition addPinnedModel (modelId : string) (s : Settings) : Settings :=
  let config := getConfig s in
  if negb (includes (pinnedModels config) modelId)
  then updatePinnedModels (pinnedModels config ++ [modelId]) s
  else s.

(** [removePinnedModel(modelId)] *)
Definition removePinnedModel (modelId : string) (s : Settings) : Settings :=
  let config := getConfig s in
  updatePinnedModels
    (List.filter (fun id => negb (bool_decide (id = modelId))) (pinnedModels config)) s.

(** [togglePinnedModel(modelId)] *)
Definition togglePinnedModel (modelId : string) (s : Settings) : bool * Settings :=
  let config := getConfig s in
  let isPinned := includes (pinnedModels config) modelId in
  (negb isPinned,
   if isPinned then removePinnedModel modelId s else addPinnedModel modelId s).

End ConfigManager.

(** ** Presentation ([status_bar.ts], [quota_menu.ts], [sound.ts]) *)

Module Ui.

(** The four status icons: [$(error)], [$(flame)], [$(warning)], [$(check)]. *)
Inductive Icon : Type := IconError | IconFlame | IconWarning | IconCheck.

(** [QuotaMenu.getStatusIcon(percentage, config)] *)
Definition menuStatusIcon (percentage : Q) (config : GravityConfig) : Icon :=
  if Qleb percentage 0 then IconError
  else if Qleb percentage (blockThreshold config) then IconFlame
  else if Qleb percentage (warningThreshold config) then IconWarning
  else IconCheck.

(** [StatusBarManager.getStatusIcon(percentage, config)] *)
Definition statusBarStatusIcon (percentage : Q) (config : GravityConfig) : Icon :=
  if Qleb percentage 0 then IconError
  else if Qltb percentage (blockThreshold config) then IconFlame
  else if Qltb percentage (warningThreshold config) then IconWarning
  else IconCheck.

(** The icon that goes with a guard level. *)
Definition iconOfLevel (l : GuardLevel) : Icon :=
  match l with
  | blocked => IconError
  | critical => IconFlame
  | warning => IconWarning
  | normal => IconCheck
  end.

(** The two characters of the progress bar. *)
Inductive Cell : Type := Filled | Empty.

(** [Math.round]: the nearest integer, halves upwards. *)
Definition round (x : Q) : Z := Qfloor (x + (1 # 2)).

(** [String.prototype.repeat]: [None] is the [RangeError] of a negative
    count. *)
Definition repeatCell (c : Cell) (count : Z) : option (list Cell) :=
  if (count <? 0)%Z then None else Some (replicate (Z.to_nat count) c).

(** [drawProgressBar(percentage)], the same in the status bar and in the
    menu; [None] when a [repeat] throws. *)
Definition drawProgressBar (percentage : Q) : option (list Cell) :=
  let total := 10%Z in
  let filled := round (Float64.mul (Float64.div percentage 100) (inject_Z total)) in
  let empty := (total - filled)%Z in
  f ← repeatCell Filled filled;
  e ← repeatCell Empty empty;
  Some (f ++ e).

(** [StatusBarManager.update]: the models put on the status bar. *)
Definition modelsToShow (snapshot : QuotaSnapshot) (guardState : GuardState.t)
    (config : GravityConfig) : list ModelQuotaInfo.t :=
  let pinned := pinnedModels config in
  if (0 <? Z.of_nat (length pinned))%Z
  then List.filter (fun m => ConfigManager.includes pinned (ModelQuotaInfo.modelId m))
                   (models snapshot)
  else match GuardState.lowestQuotaModel guardState with
       | Some m => [m]
       | None => []
       end.

(** [model.remainingPercentage ?? 0]: the percentage the status bar and
    the menu show for a model. *)
Definition shownPercentage (model : ModelQuotaInfo.t) : Q :=
  default 0%Q (ModelQuotaInfo.remainingPercentage model).

(** [StatusBarManager.update]: the icon and the percentage of each part of
    the status bar text (abbreviation and number formatting are not
    modelled). *)
Definition statusBarParts (snapshot : QuotaSnapshot) (guardState : GuardState.t)
    (config : GravityConfig) : list (Icon * Q) :=
  map (fun model =>
         let pct := shownPercentage model in
         (statusBarStatusIcon pct config, pct))
      (modelsToShow snapshot guardState config).

(** [QuotaMenu.buildMenuItems]: for each model of the snapshot, whether
    it is pinned, its icon, its bar and its percentage.  A bar that is
    [None] is the exception that ends [buildMenuItems]. *)
Definition menuModelRows (snapshot : QuotaSnapshot) (config : GravityConfig)
  : list (bool * Icon * option (list Cell) * Q) :=
  map (fun model =>
         let pct := shownPercentage model in
         (ConfigManager.includes (pinnedModels config) (ModelQuotaInfo.modelId model),
          menuStatusIcon pct config, drawProgressBar pct, pct))
      (models snapshot).

End Ui.

Module Sound.

Inductive SoundType : Type := WarningSound | CriticalSound.

Definition SOUND_COOLDOWN_MS : Z := 10000.

Definition freedesktop (name : string) : string :=
  "/usr/share/sounds/freedesktop/stereo/" +:+ name +:+ ".oga 2>/dev/null".

Definition linuxCommand (name description : string) : string :=
  "canberra-gtk-play -i " +:+ name +:+ " --description=" +:+ 
  PlatformStrategies.dquote +:+ description +:+ PlatformStrategies.dquote
  +:+ " 2>/dev/null || pw-play --volume=0.15 " +:+ freedesktop name
  +:+ " || paplay " +:+ freedesktop name
  +:+ " || ffplay -nodisp -autoexit -loglevel quiet -volume 30 " +:+ freedesktop name.

Definition powershell (sound : string) : string :=
  "powershell -c " +:+ PlatformStrategies.dquote
  +:+ "[System.Media.SystemSounds]::" +:+ sound +:+ ".Play()"
  +:+ PlatformStrategies.dquote.

(** [SOUND_COMMANDS[platform]] *)
Definition SOUND_COMMANDS (platform : string) : option (SoundType → string) :=
  if bool_decide (platform = "linux") then
    Some (fun type => match type with
                      | WarningSound => linuxCommand "dialog-warning" "Gravity Warning"
                      | CriticalSound => linuxCommand "dialog-error" "Gravity Alert"
                      end)
  else if bool_decide (platform = "darwin") then
    Some (fun type => match type with
                      | WarningSound => "afplay /System/Library/Sounds/Funk.aiff"
                      | CriticalSound => "afplay /System/Library/Sounds/Sosumi.aiff"
                      end)
  else if bool_decide (platform = "win32") then
    Some (fun type => match type with
                      | WarningSound => powershell "Exclamation"
                      | CriticalSound => powershell "Hand"
                      end)
  else None.

(** [playAlertSound(type)] on [platform] at the clock [now]: the command
    handed to [exec], if any, and the new [lastSoundTime]. *)
Definition playAlertSound (platform : string) (now : Z) (type : SoundType)
    (lastSoundTime : Z) : option string * Z :=
  if (now - lastSoundTime <? SOUND_COOLDOWN_MS)%Z then (None, lastSoundTime)
  else
    match SOUND_COMMANDS platform with
    | None => (None, lastSoundTime)
    | Some commands => (Some (commands type), now)
    end.

(** A series of calls, each with its clock: the clocks at which a sound
    was played, and the final [lastSoundTime]. *)
Fixpoint playAll (platform : string) (calls : list (Z * SoundType))
    (lastSoundTime : Z) : list Z * Z :=
  match calls with
  | [] => ([], lastSoundTime)
  | (now, type) :: calls =>
      let '(played, last) := playAlertSound platform now type lastSoundTime in
      let '(times, final) := playAll platform calls last in
      (match played with Some _ => now :: times | None => times end, final)
  end.

(** Consecutive elements are at least [gap] apart, the first one at least
    [gap] after [start]. *)
Fixpoint spaced (gap start : Z) (times : list Z) : Prop :=
  match times with
  | [] => True
  | t :: times => (start + gap <= t)%Z ∧ spaced gap t times
  end.

End Sound.


(** ** Further notions for the guard *)

Module GuardNotions.
Import QuotaGuard.

(** Everything [analyzeQuotaState] looks at: the models, then the
    synthetic prompt-credits model. *)
Definition analyzed (now : Z) (snapshot : QuotaSnapshot) : list ModelQuotaInfo.t :=
  models snapshot
  ++ match promptCredits snapshot with
     | Some pc => [pcVirtualModel now (PromptCreditsInfo.remainingPercentage pc)]
     | None => []
     end.

(** The model [checkAndWarn] checks: the result of its [reduce]. *)
Definition worstModel (now : Z) (g : t) : option ModelQuotaInfo.t :=
  match getModelsRequiringAttention now g with
  | [] => None
  | first :: rest => Some (fold_left worse rest first)
  end.

(** Two models with the same id and the same percentage. *)
Definition sameQuota (m m' : ModelQuotaInfo.t) : Prop :=
  ModelQuotaInfo.modelId m = ModelQuotaInfo.modelId m'
  ∧ ModelQuotaInfo.remainingPercentage m = ModelQuotaInfo.remainingPercentage m'.

End GuardNotions.


(** ** Further notions for the finder and the parsers *)

Module ParserNotions.
Import ProcessFinder PlatformStrategies.

(** A probe of some port with [csrfToken] that did not come back with
    status 200 and a JSON body. *)
Definition failedProbe (isJSON : string → bool) (csrfToken : string) (e : Event) : Prop :=
  ∃ port r, e = EvProbe port csrfToken r ∧ ¬ working isJSON r.

(** The classes of the groups of a regular expression, in order, when
    every group is of the form [(p+)]. *)
Fixpoint groupClasses (r : Regex) : option (list CharClass) :=
  match r with
  | Group (PlusCls p) => Some [p]
  | Group _ => None
  | Cat r1 r2 =>
      ps1 ← groupClasses r1;
      ps2 ← groupClasses r2;
      Some (ps1 ++ ps2)
  | _ => Some []
  end.

(** What a token is made of: hexadecimal digits of either case and
    dashes. *)
Definition isTokenChar (c : ascii) : bool := isHexDigit c || isDash c.

(** *** The flags of a command line, read character by character *)

(** [s] starts with the text [lit]; with [ignoreCase], letters are
    compared without their case. *)
Definition startsWithText (ignoreCase : bool) (lit : string) (s : list ascii) : bool :=
  prefixMatches (map (sameChar ignoreCase) (chars lit)) s.

(** What stands between a flag and its value: [=] or white space. *)
Definition isFlagSeparator (c : ascii) : bool := Ascii.eqb c "=" || isSpace c.

Definition isNotSlash (c : ascii) : bool := negb (Ascii.eqb c "/").

(** The value of the flag [name] when [s] starts with it: after the name
    come one or more separators, then the value, the longest run of
    characters a value is made of, at least one. *)
Definition flagValueHere (ignoreCase : bool) (name : string) (isValue : ascii → bool)
    (s : list ascii) : option (list ascii) :=
  if startsWithText ignoreCase name s then
    let rest := drop (length (chars name)) s in
    match takeWhile isFlagSeparator rest,
          takeWhile isValue (dropWhile isFlagSeparator rest) with
    | _ :: _, c :: value => Some (c :: value)
    | _, _ => None
    end
  else None.

(** The path segment of an [--api_server_url=http(s)://host/segment]
    flag when [s] starts with it: the host is the longest run of
    characters other than [/], at least one; the segment the longest run
    of token characters after the [/], at least one. *)
Definition urlSegmentHere (s : list ascii) : option (list ascii) :=
  if startsWithText true "--api_server_url=http" s then
    let rest := drop (length (chars "--api_server_url=http")) s in
    let rest := match rest with
                | c :: rest' => if sameChar true "s" c then rest' else rest
                | [] => rest
                end in
    if startsWithText true "://" rest then
      let rest := drop (length (chars "://")) rest in
      match takeWhile isNotSlash rest, dropWhile isNotSlash rest with
      | _ :: _, _ :: path =>
          match takeWhile isTokenChar path with
          | [] => None
          | segment => Some segment
          end
      | _, _ => None
      end
    else None
  else None.

(** What [f] finds at the leftmost place of [s] where it finds
    something. *)
Fixpoint leftmost {A} (f : list ascii → option A) (s : list ascii) : option A :=
  match f s with
  | Some x => Some x
  | None =>
      match s with
      | [] => None
      | _ :: s' => leftmost f s'
      end
  end.

(** The explicit [--csrf_token] flag of a command line. *)
Definition csrfTokenFlag (cmd : list ascii) : option (list ascii) :=
  leftmost (flagValueHere true "--csrf_token" isTokenChar) cmd.

(** The path segment following the [--api_server_url] flag. *)
Definition apiServerUrlSegment (cmd : list ascii) : option (list ascii) :=
  leftmost urlSegmentHere cmd.

(** The digits of the port: those of [--extension_server_port], else
    those of [--grpc_server_port]. *)
Definition portFlag (cmd : list ascii) : option (list ascii) :=
  match leftmost (flagValueHere false "--extension_server_port" isDigit) cmd with
  | Some ds => Some ds
  | None => leftmost (flagValueHere false "--grpc_server_port" isDigit) cmd
  end.

(** The process the Windows variant reads out of the process list: the
    command line of the last [CommandLine=] line and the pid of the last
    [ProcessId=] line; none when either is missing, when the command
    line is empty, or when the pid is not a number or is 0. *)
Definition windowsProcess (stdout : string) : option (list ascii * Z) :=
  let lines := nonBlankLines (chars stdout) in
  c ← last (List.filter (startsWith (chars "CommandLine=")) lines);
  p ← last (List.filter (startsWith (chars "ProcessId=")) lines);
  pid ← parseInt (trim (drop (length (chars "ProcessId=")) p));
  let commandLine := trim (drop (length (chars "CommandLine=")) c) in
  if bool_decide (commandLine = []) || (pid =? 0)%Z then None
  else Some (commandLine, pid).

(** The process of a line of [ps aux]: the command line is made of the
    fields from the eleventh on, the pid is the second field; none when
    the line has fewer than eleven fields. *)
Definition unixProcess (line : list ascii) : option (list ascii * option Z) :=
  let fields := splitSpaces (trim line) [] false in
  if (length fields <? 11)%nat then None
  else Some (joinSpace (drop 10 fields), parseInt (default [] (fields !! 1%nat))).


End ParserNotions.


(** * Part II: verification *)

(** ** Boolean comparisons on [Q] *)

Lemma Qleb_le x y : Qleb x y = true <-> (x <= y)%Q.
Proof. apply Qle_bool_iff. Qed.

Lemma Qleb_nle x y : Qleb x y = false <-> (y < x)%Q.
Proof.
  unfold Qleb. split; intros H.
  - apply Qnot_le_lt. intros Hle. apply Qle_bool_iff in Hle. congruence.
  - destruct (Qle_bool x y) eqn:E; [|reflexivity].
    apply Qle_bool_iff in E. exfalso. exact (Qlt_not_le _ _ H E).
Qed.

Lemma Qltb_lt x y : Qltb x y = true <-> (x < y)%Q.
Proof.
  unfold Qltb. rewrite negb_true_iff. apply (Qleb_nle y x).
Qed.

Lemma Qltb_nlt x y : Qltb x y = false <-> (y <= x)%Q.
Proof.
  unfold Qltb. rewrite negb_false_iff. apply (Qleb_le y x).
Qed.

Lemma Qgeb_ge x y : Qgeb x y = true <-> (y <= x)%Q.
Proof. apply (Qleb_le y x). Qed.

Lemma Qgeb_nge x y : Qgeb x y = false <-> (x < y)%Q.
Proof. apply (Qleb_nle y x). Qed.

Lemma Qgtb_gt x y : Qgtb x y = true <-> (y < x)%Q.
Proof. unfold Qgtb. rewrite negb_true_iff. apply (Qleb_nle x y). Qed.

Lemma Qgtb_ngt x y : Qgtb x y = false <-> (x <= y)%Q.
Proof. unfold Qgtb. rewrite negb_false_iff. apply (Qleb_le x y). Qed.

(** ** binary64 rounding *)

Module Float64Facts.
Import Float64.

Lemma pow2_pos e : (0 < pow2 e)%Q.
Proof. apply Qpower_0_lt. reflexivity. Qed.

Lemma pow2_plus n m : (pow2 (n + m) == pow2 n * pow2 m)%Q.
Proof. apply Qpower_plus. discriminate. Qed.

Lemma pow2_le n m : (n <= m)%Z → (pow2 n <= pow2 m)%Q.
Proof. intros H. apply Qpower_le_compat_l; [done | discriminate]. Qed.

Lemma pow2_Z n : (0 <= n)%Z → (pow2 n == inject_Z (2 ^ n))%Q.
Proof. intros H. symmetry. apply (Zpower_Qpower 2 n H). Qed.

Lemma Qmult_lt_cancel_r x y z : (0 < z)%Q → (x * z < y * z)%Q → (x < y)%Q.
Proof. intros Hz H. by apply (Qmult_lt_r x y z Hz). Qed.

Lemma Qmult_le_cancel_r x y z : (0 < z)%Q → (x * z <= y * z)%Q → (x <= y)%Q.
Proof. intros Hz H. by apply (Qmult_le_r x y z Hz). Qed.

Lemma ilog2_bounds a :
  (0 < a)%Q →
  let e := (Z.log2 (Qnum a) - Z.log2 (Zpos (Qden a)))%Z in
  (pow2 (e - 1) < a)%Q ∧ (a < pow2 (e + 1))%Q.
Proof.
  intros Ha. cbn zeta.
  destruct a as [n d]. cbn [Qnum Qden].
  assert (Hn : (0 < n)%Z).
  { unfold Qlt in Ha. cbn in Ha. lia. }
  pose proof (Z.log2_spec n Hn) as [Hn1 Hn2].
  pose proof (Z.log2_spec (Zpos d) ltac:(lia)) as [Hd1 Hd2].
  pose proof (Z.log2_nonneg n) as Hln.
  pose proof (Z.log2_nonneg (Zpos d)) as Hld.
  set (ln := Z.log2 n) in *. set (ld := Z.log2 (Zpos d)) in *.
  assert (Hnd : (n # d == inject_Z n / inject_Z (Zpos d))%Q) by apply Qmake_Qdiv.
  assert (Hdpos : (0 < inject_Z (Zpos d))%Q) by reflexivity.
  assert (Hval : ((n # d) * inject_Z (Zpos d) == inject_Z n)%Q).
  { rewrite Hnd. field. discriminate. }
  split.
  - apply (Qmult_lt_cancel_r _ _ (pow2 (ld + 1))); [apply pow2_pos|].
    rewrite <- pow2_plus. replace (ln - ld - 1 + (ld + 1))%Z with ln by lia.
    apply Qle_lt_trans with (inject_Z n).
    + rewrite pow2_Z by lia. by rewrite <- Zle_Qle.
    + rewrite <- Hval. apply Qmult_lt_l; [exact Ha|].
      rewrite pow2_Z by lia. rewrite <- Zlt_Qlt. lia.
  - apply (Qmult_lt_cancel_r _ _ (pow2 ld)); [apply pow2_pos|].
    rewrite <- pow2_plus. replace (ln - ld + 1 + ld)%Z with (ln + 1)%Z by lia.
    apply Qle_lt_trans with (inject_Z n).
    + rewrite <- Hval. apply Qmult_le_l; [exact Ha|].
      rewrite pow2_Z by lia. rewrite <- Zle_Qle. lia.
    + rewrite pow2_Z by lia. rewrite <- Zlt_Qlt. lia.
Qed.

Lemma ilog2_spec a :
  (0 < a)%Q → (pow2 (ilog2 a) <= a)%Q ∧ (a < pow2 (ilog2 a + 1))%Q.
Proof.
  intros Ha. destruct (ilog2_bounds a Ha) as [Hlo Hhi]. unfold ilog2.
  set (e := (Z.log2 (Qnum a) - Z.log2 (Zpos (Qden a)))%Z) in *.
  destruct (Qltb a (pow2 e)) eqn:E.
  - apply Qltb_lt in E. split; [by apply Qlt_le_weak|].
    by replace (e - 1 + 1)%Z with e by lia.
  - apply Qltb_nlt in E. done.
Qed.

Lemma ilog2_mono a b : (0 < a)%Q → (a <= b)%Q → (ilog2 a <= ilog2 b)%Z.
Proof.
  intros Ha Hab.
  assert (Hb : (0 < b)%Q) by (eapply Qlt_le_trans; eauto).
  destruct (ilog2_spec a Ha) as [Ha1 _]. destruct (ilog2_spec b Hb) as [_ Hb2].
  destruct (Z_le_gt_dec (ilog2 a) (ilog2 b)) as [|Hgt]; [done|]. exfalso.
  assert (H : (pow2 (ilog2 b + 1) <= pow2 (ilog2 a))%Q) by (apply pow2_le; lia).
  apply (Qlt_irrefl b).
  eapply Qlt_le_trans; [exact Hb2|]. eapply Qle_trans; [exact H|].
  eapply Qle_trans; eauto.
Qed.

Lemma rne_cases x :
  let f := Qfloor x in
  (rne x = f ∧ (x - inject_Z f <= 1 # 2)%Q)
  ∨ (rne x = (f + 1)%Z ∧ (1 # 2 <= x - inject_Z f)%Q).
Proof.
  cbn zeta. unfold rne.
  destruct (x - inject_Z (Qfloor x) ?= 1 # 2)%Q eqn:E.
  - apply Qeq_alt in E. destruct (Z.even (Qfloor x)).
    + left. split; [done|]. rewrite E. apply Qle_refl.
    + right. split; [done|]. rewrite E. apply Qle_refl.
  - apply Qlt_alt in E. left. split; [done|]. by apply Qlt_le_weak.
  - apply Qgt_alt in E. right. split; [done|]. by apply Qlt_le_weak.
Qed.

Lemma rne_floor x : (Qfloor x <= rne x <= Qfloor x + 1)%Z.
Proof. destruct (rne_cases x) as [[-> _]|[-> _]]; lia. Qed.

Lemma rne_mono x y : (x <= y)%Q → (rne x <= rne y)%Z.
Proof.
  intros Hxy. pose proof (Qfloor_resp_le x y Hxy) as Hf.
  pose proof (rne_floor x) as Hx. pose proof (rne_floor y) as Hy.
  destruct (Z.eq_dec (Qfloor x) (Qfloor y)) as [E|Hne]; [|lia].
  unfold rne. rewrite <- E.
  assert (Hr : (x - inject_Z (Qfloor x) <= y - inject_Z (Qfloor x))%Q).
  { unfold Qminus. by apply Qplus_le_l. }
  destruct (x - inject_Z (Qfloor x) ?= 1 # 2)%Q eqn:Ex;
    destruct (y - inject_Z (Qfloor x) ?= 1 # 2)%Q eqn:Ey;
    try (destruct (Z.even (Qfloor x)); lia); try lia; exfalso.
  - apply Qeq_alt in Ex. apply Qlt_alt in Ey. rewrite Ex in Hr.
    exact (Qlt_not_le _ _ Ey Hr).
  - apply Qgt_alt in Ex. apply Qeq_alt in Ey. rewrite Ey in Hr.
    exact (Qlt_not_le _ _ Ex Hr).
  - apply Qgt_alt in Ex. apply Qlt_alt in Ey.
    exact (Qlt_not_le _ _ (Qlt_trans _ _ _ Ey Ex) Hr).
Qed.

Lemma rne_Z n : rne (inject_Z n) = n.
Proof.
  unfold rne. rewrite Qfloor_Z.
  assert (E : (inject_Z n - inject_Z n ?= 1 # 2)%Q = Lt).
  { apply Qlt_alt. assert (H : (inject_Z n - inject_Z n == 0)%Q) by ring.
    rewrite H. reflexivity. }
  by rewrite E.
Qed.

Lemma rne_le_Z x n : (x <= inject_Z n)%Q → (rne x <= n)%Z.
Proof. intros H. rewrite <- (rne_Z n). by apply rne_mono. Qed.

Lemma rne_ge_Z x n : (inject_Z n <= x)%Q → (n <= rne x)%Z.
Proof. intros H. rewrite <- (rne_Z n). by apply rne_mono. Qed.

Lemma rne_error x :
  (x - (1 # 2) <= inject_Z (rne x))%Q ∧ (inject_Z (rne x) <= x + (1 # 2))%Q.
Proof.
  pose proof (Qfloor_le x) as Hlo. pose proof (Qlt_floor x) as Hhi.
  rewrite inject_Z_plus in Hhi.
  destruct (rne_cases x) as [[-> H]|[-> H]]; rewrite ?inject_Z_plus;
    change (inject_Z 1) with 1%Q in *; split; lra.
Qed.

(** *** Rounding a positive number *)

Lemma roundPos_nonneg a : (0 <= a)%Q → (0 <= roundPos a)%Q.
Proof.
  intros Ha. unfold roundPos.
  apply Qmult_le_0_compat; [|apply Qlt_le_weak, pow2_pos].
  change 0%Q with (inject_Z 0). rewrite <- Zle_Qle. apply rne_ge_Z.
  apply Qle_shift_div_l; [apply pow2_pos|]. by rewrite Qmult_0_l.
Qed.

Lemma pow2_split n m : (pow2 n == pow2 (n - m) * pow2 m)%Q.
Proof. rewrite <- pow2_plus. by replace (n - m + m)%Z with n by lia. Qed.

(** Below a power of two the rounded value stays at or below it. *)
Lemma roundPos_le_pow2 a :
  (0 < a)%Q → (roundPos a <= pow2 (ilog2 a + 1))%Q.
Proof.
  intros Ha. destruct (ilog2_spec a Ha) as [_ Hhi]. unfold roundPos.
  set (e := ilog2 a) in *. set (u := Z.max (e - 52) emin).
  destruct (Z_le_gt_dec u (e + 1)) as [Hu|Hu].
  - rewrite (pow2_split (e + 1) u).
    apply Qmult_le_compat_r; [|apply Qlt_le_weak, pow2_pos].
    rewrite (pow2_Z (e + 1 - u)) by lia. rewrite <- Zle_Qle. apply rne_le_Z.
    rewrite <- (pow2_Z (e + 1 - u)) by lia.
    apply Qle_shift_div_r; [apply pow2_pos|].
    rewrite <- pow2_split. by apply Qlt_le_weak.
  - assert (E : rne (a / pow2 u) = 0%Z).
    { assert (H0 : (0 <= a / pow2 u)%Q).
      { apply Qle_shift_div_l; [apply pow2_pos|]. rewrite Qmult_0_l.
        by apply Qlt_le_weak. }
      assert (H1 : (a / pow2 u <= 1 # 2)%Q).
      { apply Qle_shift_div_r; [apply pow2_pos|].
        eapply Qle_trans; [apply Qlt_le_weak, Hhi|].
        change (1 # 2)%Q with (pow2 (-1)). rewrite <- pow2_plus.
        apply pow2_le. lia. }
      pose proof (rne_ge_Z _ 0 H0) as Hge.
      assert (Hle : (rne (a / pow2 u) <= rne (1 # 2))%Z) by by apply rne_mono.
      change (rne (1 # 2)) with 0%Z in Hle. lia. }
    rewrite E, Qmult_0_l. apply Qlt_le_weak, pow2_pos.
Qed.

(** A number in the normal range rounds to at least the power of two
    below it. *)
Lemma roundPos_ge_pow2 a :
  (0 < a)%Q → (emin <= ilog2 a - 52)%Z → (pow2 (ilog2 a) <= roundPos a)%Q.
Proof.
  intros Ha Hn. destruct (ilog2_spec a Ha) as [Hlo _]. unfold roundPos.
  set (e := ilog2 a) in *. rewrite Z.max_l by lia.
  rewrite (pow2_split e (e - 52)) at 1.
  apply Qmult_le_compat_r; [|apply Qlt_le_weak, pow2_pos].
  replace (e - (e - 52))%Z with 52%Z by lia.
  rewrite (pow2_Z 52) by lia. rewrite <- Zle_Qle. apply rne_ge_Z.
  rewrite <- (pow2_Z 52) by lia.
  apply Qle_shift_div_l; [apply pow2_pos|].
  replace 52%Z with (e - (e - 52))%Z at 1 by lia.
  by rewrite <- pow2_split.
Qed.

Lemma roundPos_mono a b : (0 < a)%Q → (a <= b)%Q → (roundPos a <= roundPos b)%Q.
Proof.
  intros Ha Hab.
  assert (Hb : (0 < b)%Q) by (eapply Qlt_le_trans; eauto).
  pose proof (ilog2_mono a b Ha Hab) as He.
  destruct (Z.eq_dec (Z.max (ilog2 a - 52) emin) (Z.max (ilog2 b - 52) emin))
    as [E|Hne].
  - unfold roundPos. rewrite E.
    apply Qmult_le_compat_r; [|apply Qlt_le_weak, pow2_pos].
    rewrite <- Zle_Qle. apply rne_mono.
    apply Qmult_le_compat_r; [done|].
    apply Qlt_le_weak, Qinv_lt_0_compat, pow2_pos.
  - eapply Qle_trans; [apply (roundPos_le_pow2 a Ha)|].
    eapply Qle_trans; [|apply (roundPos_ge_pow2 b Hb); lia].
    apply pow2_le. lia.
Qed.

(** *** Rounding *)

Lemma round_proper x y : (x == y)%Q → round x = round y.
Proof. intros E. unfold round. by rewrite (Qred_complete x y E). Qed.

Lemma round_cases x :
  ((x == 0)%Q ∧ round x = 0%Q)
  ∨ ((x < 0)%Q ∧ (round x == - roundPos (- Qred x))%Q)
  ∨ ((0 < x)%Q ∧ (round x == roundPos (Qred x))%Q).
Proof.
  unfold round. pose proof (Qred_correct x) as Hx.
  destruct (Qeq_bool (Qred x) 0) eqn:E0.
  { apply Qeq_bool_iff in E0. left. split; [|done]. by rewrite <- Hx. }
  apply Qeq_bool_neq in E0.
  destruct (Qltb (Qred x) 0) eqn:E1.
  - apply Qltb_lt in E1. right. left. rewrite Hx in E1. split; [done|].
    apply Qred_correct.
  - apply Qltb_nlt in E1. right. right. rewrite Hx in E1, E0. split.
    + apply Qle_lteq in E1 as [H|H]; [done|]. exfalso. apply E0. by symmetry.
    + apply Qred_correct.
Qed.

Lemma round_mono x y : (x <= y)%Q → (round x <= round y)%Q.
Proof.
  intros Hxy.
  assert (Hpos : ∀ z, (0 < z)%Q → (0 < Qred z)%Q) by (intros z Hz; by rewrite Qred_correct).
  destruct (round_cases x) as [[Hx ->]|[[Hx ->]|[Hx ->]]];
    destruct (round_cases y) as [[Hy ->]|[[Hy ->]|[Hy ->]]].
  - apply Qle_refl.
  - exfalso. rewrite Hx in Hxy. exact (Qlt_not_le _ _ Hy Hxy).
  - apply roundPos_nonneg. rewrite Qred_correct. by apply Qlt_le_weak.
  - apply (Qopp_le_compat 0). apply roundPos_nonneg.
    rewrite Qred_correct. apply (Qopp_le_compat x 0). by apply Qlt_le_weak.
  - apply Qopp_le_compat. apply roundPos_mono.
    + rewrite Qred_correct. by apply (Qopp_lt_compat y 0).
    + rewrite !Qred_correct. by apply Qopp_le_compat.
  - eapply Qle_trans.
    + apply (Qopp_le_compat 0). apply roundPos_nonneg.
      rewrite Qred_correct. apply (Qopp_le_compat x 0). by apply Qlt_le_weak.
    + apply roundPos_nonneg. rewrite Qred_correct. by apply Qlt_le_weak.
  - exfalso. rewrite Hy in Hxy. exact (Qlt_not_le _ _ Hx Hxy).
  - exfalso. exact (Qlt_not_le _ _ (Qlt_trans _ _ _ Hy Hx) Hxy).
  - apply roundPos_mono; [by apply Hpos | by rewrite !Qred_correct].
Qed.

Lemma round_0 : round 0 = 0%Q.
Proof. reflexivity. Qed.

Lemma round_nonneg x : (0 <= x)%Q → (0 <= round x)%Q.
Proof. intros H. rewrite <- round_0. by apply round_mono. Qed.

Lemma round_nonpos x : (x <= 0)%Q → (round x <= 0)%Q.
Proof. intros H. rewrite <- round_0. by apply round_mono. Qed.

(** Rounding stays between representable bounds. *)
Lemma round_between lo hi x :
  representable lo → representable hi →
  (lo <= x)%Q → (x <= hi)%Q → (lo <= round x)%Q ∧ (round x <= hi)%Q.
Proof.
  unfold representable. intros Hlo Hhi H1 H2. split.
  - rewrite <- Hlo. by apply round_mono.
  - rewrite <- Hhi. by apply round_mono.
Qed.

(** *** The rounding error *)

Lemma roundPos_error a :
  (0 < a)%Q →
  let u := Z.max (ilog2 a - 52) emin in
  (a - pow2 (u - 1) <= roundPos a)%Q ∧ (roundPos a <= a + pow2 (u - 1))%Q.
Proof.
  intros Ha u. unfold roundPos. fold u.
  pose proof (pow2_pos u) as Hu.
  destruct (rne_error (a / pow2 u)) as [Hlo Hhi].
  assert (Hhalf : (pow2 (u - 1) == (1 # 2) * pow2 u)%Q).
  { replace (u - 1)%Z with (-1 + u)%Z by lia. by rewrite pow2_plus. }
  assert (Ha' : (a == a / pow2 u * pow2 u)%Q).
  { field. intros E. rewrite E in Hu. exact (Qlt_irrefl _ Hu). }
  rewrite Hhalf. split.
  - apply Qle_trans with ((a / pow2 u - (1 # 2)) * pow2 u)%Q.
    + rewrite Ha' at 1. apply Qle_lteq. right. ring.
    + apply Qmult_le_compat_r; [done | by apply Qlt_le_weak].
  - apply Qle_trans with ((a / pow2 u + (1 # 2)) * pow2 u)%Q.
    + apply Qmult_le_compat_r; [done | by apply Qlt_le_weak].
    + rewrite Ha' at 2. apply Qle_lteq. right. ring.
Qed.

Lemma ilog2_lt a n : (0 < a)%Q → (a < pow2 n)%Q → (ilog2 a < n)%Z.
Proof.
  intros Ha Hn. destruct (ilog2_spec a Ha) as [Hlo _].
  destruct (Z_lt_ge_dec (ilog2 a) n) as [|Hge]; [done|]. exfalso.
  apply (Qlt_irrefl a). eapply Qlt_le_trans; [exact Hn|].
  eapply Qle_trans; [|exact Hlo]. apply pow2_le. lia.
Qed.

Lemma roundPos_error_128 a :
  (0 < a)%Q → (a < 128)%Q →
  (a - pow2 (-47) <= roundPos a)%Q ∧ (roundPos a <= a + pow2 (-47))%Q.
Proof.
  intros Ha H128. destruct (roundPos_error a Ha) as [Hlo Hhi]. cbn zeta in *.
  pose proof (ilog2_lt a 7 Ha H128) as He.
  assert (Hu : (pow2 (Z.max (ilog2 a - 52) emin - 1) <= pow2 (-47))%Q).
  { apply pow2_le. unfold emin. lia. }
  split; lra.
Qed.

(** Below 128 in absolute value the error is at most [2^-47]. *)
Lemma round_error_128 x :
  (-128 < x)%Q → (x < 128)%Q →
  (x - pow2 (-47) <= round x)%Q ∧ (round x <= x + pow2 (-47))%Q.
Proof.
  intros Hlo Hhi. pose proof (pow2_pos (-47)) as Hp.
  pose proof (Qred_correct x) as Hr.
  destruct (round_cases x) as [[Hx ->]|[[Hx ->]|[Hx ->]]].
  - split; lra.
  - destruct (roundPos_error_128 (- Qred x)) as [H1 H2]; [lra | lra |].
    split; lra.
  - destruct (roundPos_error_128 (Qred x)) as [H1 H2]; [lra | lra |].
    split; lra.
Qed.

(** *** The grid of the binary64 numbers *)

Lemma ilog2_unique a e :
  (0 < a)%Q → (pow2 e <= a)%Q → (a < pow2 (e + 1))%Q → ilog2 a = e.
Proof.
  intros Ha Hlo Hhi. destruct (ilog2_spec a Ha) as [L H].
  destruct (Z.lt_trichotomy (ilog2 a) e) as [Hlt|[E|Hgt]]; [exfalso|done|exfalso].
  - pose proof (pow2_le (ilog2 a + 1) e ltac:(lia)). lra.
  - pose proof (pow2_le (e + 1) (ilog2 a) ltac:(lia)). lra.
Qed.

(** A binary64 number between 2^e and 2^(e+1) is a multiple of
    2^(e-52). *)
Lemma representable_grid p e :
  representable p → (pow2 e <= p)%Q → (p < pow2 (e + 1))%Q → (emin <= e - 52)%Z →
  ∃ k : Z, (p == inject_Z k * pow2 (e - 52))%Q.
Proof.
  unfold representable. intros Hr Hlo Hhi He.
  pose proof (pow2_pos e) as Hpos.
  pose proof (Qred_correct p) as Hred.
  destruct (round_cases p) as [[H _]|[[H _]|[_ E]]]; [lra|lra|].
  unfold roundPos in E.
  rewrite (ilog2_unique (Qred p) e) in E by lra.
  rewrite Z.max_l in E by lia.
  eexists. rewrite <- E. symmetry. exact Hr.
Qed.

Lemma representable_grid_neg p e :
  representable p → (pow2 e <= - p)%Q → (- p < pow2 (e + 1))%Q → (emin <= e - 52)%Z →
  ∃ k : Z, (- p == inject_Z k * pow2 (e - 52))%Q.
Proof.
  unfold representable. intros Hr Hlo Hhi He.
  pose proof (pow2_pos e) as Hpos.
  pose proof (Qred_correct p) as Hred.
  destruct (round_cases p) as [[H _]|[[_ E]|[H _]]]; [lra| |lra].
  unfold roundPos in E.
  rewrite (ilog2_unique (- Qred p) e) in E by lra.
  rewrite Z.max_l in E by lia.
  match type of E with
  | (_ == - (inject_Z ?K * _))%Q => exists K
  end.
  set (v := (inject_Z _ * _)%Q) in *. lra.
Qed.

(** The binary64 numbers next to 105 and to -5. *)
Lemma representable_lt_105 p :
  representable p → (p < 105)%Q → (p <= 105 - pow2 (-46))%Q.
Proof.
  intros Hr Hp.
  assert (Hc : pow2 (-46) = (1 # 70368744177664)%Q) by reflexivity.
  destruct (Qlt_le_dec p 64) as [H64|H64]; [rewrite Hc; lra|].
  destruct (representable_grid p 6 Hr) as [k Hk]; [exact H64 | | done |].
  { change (pow2 (6 + 1)) with 128%Q. lra. }
  change (6 - 52)%Z with (-46)%Z in Hk. rewrite Hc in *.
  assert (Ek : (inject_Z k == p * inject_Z 70368744177664)%Q).
  { rewrite Hk. field. }
  assert (Hlt : (inject_Z k < inject_Z (105 * 70368744177664))%Q).
  { rewrite Ek. change (inject_Z (105 * 70368744177664)) with (105 * inject_Z 70368744177664)%Q.
    apply Qmult_lt_r; [reflexivity | exact Hp]. }
  rewrite <- Zlt_Qlt in Hlt.
  assert (Hle : (k <= 105 * 70368744177664 - 1)%Z) by lia.
  rewrite Zle_Qle in Hle. rewrite Hk.
  change (inject_Z (105 * 70368744177664 - 1)) with (7388718138654719 # 1)%Q in Hle.
  lra.
Qed.

Lemma representable_lt_m5 p :
  representable p → (p < -5)%Q → (p <= -5 - pow2 (-50))%Q.
Proof.
  intros Hr Hp.
  assert (Hc : pow2 (-50) = (1 # 1125899906842624)%Q) by reflexivity.
  destruct (Qlt_le_dec (- p) 8) as [H8|H8]; [|rewrite Hc; lra].
  destruct (representable_grid_neg p 2 Hr) as [k Hk]; [| exact H8 | done |].
  { change (pow2 2) with 4%Q. lra. }
  change (2 - 52)%Z with (-50)%Z in Hk. rewrite Hc in *.
  assert (Ek : (inject_Z k == - p * inject_Z 1125899906842624)%Q).
  { rewrite Hk. field. }
  assert (Hlt : (inject_Z (5 * 1125899906842624) < inject_Z k)%Q).
  { rewrite Ek. change (inject_Z (5 * 1125899906842624)) with (5 * inject_Z 1125899906842624)%Q.
    apply Qmult_lt_r; [reflexivity | lra]. }
  rewrite <- Zlt_Qlt in Hlt.
  assert (Hle : (5 * 1125899906842624 + 1 <= k)%Z) by lia.
  rewrite Zle_Qle in Hle.
  change (inject_Z (5 * 1125899906842624 + 1)) with (5629499534213121 # 1)%Q in Hle.
  lra.
Qed.

End Float64Facts.

(** ** The quota guard *)

Module QuotaGuardFacts.
Import QuotaGuard.

(** *** Classification *)

Lemma levelOf_spec c p :
  levelOf c p = spec_classify (blockThreshold c) (warningThreshold c) p.
Proof.
  unfold levelOf, spec_classify.
  destruct (Qleb p 0) eqn:E0; [reflexivity|].
  assert (Qltb 0 p = true) as -> by (apply Qltb_lt, Qleb_nle, E0).
  destruct (Qleb p (blockThreshold c)) eqn:Eb; simpl; [reflexivity|].
  assert (Qltb (blockThreshold c) p = true) as -> by (apply Qltb_lt, Qleb_nle, Eb).
  reflexivity.
Qed.

(** With [0 ≤ blockThreshold ≤ warningThreshold] the clauses of the
    classification do not overlap, and each one stands on its own. *)
Lemma spec_classify_intervals blockT warnT p :
  (0 <= blockT)%Q → (blockT <= warnT)%Q →
  ((p <= 0)%Q → spec_classify blockT warnT p = blocked)
  ∧ ((0 < p)%Q → (p <= blockT)%Q → spec_classify blockT warnT p = critical)
  ∧ ((blockT < p)%Q → (p <= warnT)%Q → spec_classify blockT warnT p = warning)
  ∧ ((warnT < p)%Q → spec_classify blockT warnT p = normal).
Proof.
  intros H0 Hbw. unfold spec_classify. repeat split.
  - intros H. apply Qleb_le in H. by rewrite H.
  - intros Hp Hb. apply Qleb_nle in Hp as E. rewrite E.
    apply Qltb_lt in Hp. apply Qleb_le in Hb. by rewrite Hp, Hb.
  - intros Hb Hw.
    assert (Hp : (0 < p)%Q) by (eapply Qle_lt_trans; eauto).
    apply Qleb_nle in Hp as E. rewrite E.
    apply Qleb_nle in Hb as Eb. rewrite Eb, andb_false_r.
    apply Qltb_lt in Hb. apply Qleb_le in Hw. by rewrite Hb, Hw.
  - intros Hw.
    assert (Hb : (blockT < p)%Q) by (eapply Qle_lt_trans; eauto).
    assert (Hp : (0 < p)%Q) by (eapply Qle_lt_trans; eauto).
    apply Qleb_nle in Hp as E. rewrite E.
    apply Qleb_nle in Hb as Eb. rewrite Eb, andb_false_r.
    apply Qleb_nle in Hw as Ew. by rewrite Ew, andb_false_r.
Qed.

Lemma checkModel_level c model :
  GuardCheckResult.level (checkModel c model) = levelOf c (pctOf model).
Proof.
  unfold checkModel, levelOf, pctOf.
  repeat match goal with |- context [if ?b then _ else _] => destruct b end;
    reflexivity.
Qed.

Lemma checkModel_model c model :
  GuardCheckResult.model (checkModel c model) = model.
Proof.
  unfold checkModel.
  repeat match goal with |- context [if ?b then _ else _] => destruct b end;
    reflexivity.
Qed.

(** The loop of [analyzeQuotaState] keeps a lower bound of what it has
    seen, and that bound is attained. *)
Lemma analyzeModel_lowest c risk lo lm model risk' lo' lm' :
  analyzeModel c (risk, lo, lm) model = (risk', lo', lm') →
  (lo' <= lo)%Q ∧ (lo' <= pctOf model)%Q ∧ (lo' = lo ∨ lo' = pctOf model).
Proof.
  unfold analyzeModel. fold (pctOf model).
  destruct (Qltb (pctOf model) lo) eqn:E; intros [= _ <- _].
  - apply Qltb_lt in E. split; [apply Qlt_le_weak, E|].
    split; [apply Qle_refl | by right].
  - apply Qltb_nlt in E. split; [apply Qle_refl|]. split; [exact E | by left].
Qed.

Lemma fold_analyzeModel_lowest c ms : ∀ risk lo lm risk' lo' lm',
  fold_left (analyzeModel c) ms (risk, lo, lm) = (risk', lo', lm') →
  (lo' <= lo)%Q
  ∧ (∀ m, m ∈ ms → (lo' <= pctOf m)%Q)
  ∧ (lo' = lo ∨ ∃ m, m ∈ ms ∧ lo' = pctOf m).
Proof.
  induction ms as [|m ms IH]; cbn [fold_left]; intros risk lo lm risk' lo' lm' H.
  - injection H as _ <- _. split; [apply Qle_refl|].
    split; [intros m Hm; inversion Hm | by left].
  - destruct (analyzeModel c (risk, lo, lm) m) as [[risk1 lo1] lm1] eqn:E.
    apply analyzeModel_lowest in E as (Hle & Hm & Hor).
    apply IH in H as (Hle' & Hall & Hor').
    split; [exact (Qle_trans _ _ _ Hle' Hle)|]. split.
    + intros m' [->|Hin]%elem_of_cons; [exact (Qle_trans _ _ _ Hle' Hm) | auto].
    + destruct Hor' as [->|(m' & Hin & ->)].
      * destruct Hor as [->| ->]; [by left|].
        right. exists m. split; [apply list_elem_of_here | reflexivity].
      * right. exists m'. split; [by apply list_elem_of_further | reflexivity].
Qed.

Lemma pctOf_reported m (ms : list ModelQuotaInfo.t) :
  m ∈ ms → pctOf m = 100%Q ∨ pctOf m ∈ omap ModelQuotaInfo.remainingPercentage ms.
Proof.
  intros Hin. unfold pctOf.
  destruct (ModelQuotaInfo.remainingPercentage m) as [p|] eqn:E; simpl; [|by left].
  right. apply list_elem_of_omap. eauto.
Qed.

Lemma reported_pctOf q (ms : list ModelQuotaInfo.t) :
  q ∈ omap ModelQuotaInfo.remainingPercentage ms → ∃ m, m ∈ ms ∧ pctOf m = q.
Proof.
  intros (m & Hin & E)%list_elem_of_omap. exists m. split; [done|].
  unfold pctOf. by rewrite E.
Qed.

Lemma analyzeQuotaState_lowest now c snapshot :
  lowestOf (reportedPercentages snapshot)
           (GuardState.lowestQuota (analyzeQuotaState now c snapshot)).
Proof.
  unfold analyzeQuotaState, reportedPercentages, lowestOf.
  destruct (fold_left (analyzeModel c) (models snapshot) ([], 100%Q, None))
    as [[risk lo] lm] eqn:E.
  apply fold_analyzeModel_lowest in E as (Hle & Hall & Hor).
  assert (Hlo : lo = 100%Q ∨ lo ∈ omap ModelQuotaInfo.remainingPercentage (models snapshot)).
  { destruct Hor as [->|(m & Hin & ->)]; [by left | by apply pctOf_reported]. }
  destruct (promptCredits snapshot) as [pc|].
  - destruct (analyzeModel c (risk, lo, lm) _) as [[risk' lo'] lm'] eqn:E'.
    apply analyzeModel_lowest in E' as (Hle' & Hpc & Hor'). simpl in *.
    change (pctOf (pcVirtualModel now (PromptCreditsInfo.remainingPercentage pc)))
      with (PromptCreditsInfo.remainingPercentage pc) in *.
    split; [|split].
    + destruct Hor' as [->| ->].
      * destruct Hlo as [->|Hin]; [by left|]. right. apply elem_of_app. by left.
      * right. apply elem_of_app. right. apply list_elem_of_here.
    + exact (Qle_trans _ _ _ Hle' Hle).
    + intros q [Hq|Hq]%elem_of_app.
      * apply reported_pctOf in Hq as (m & Hin & <-).
        eapply Qle_trans; [exact Hle'|]. auto.
      * apply list_elem_of_singleton in Hq as ->. exact Hpc.
  - simpl. rewrite app_nil_r. split; [exact Hlo|]. split; [exact Hle|].
    intros q Hq. apply reported_pctOf in Hq as (m & Hin & <-). auto.
Qed.

Lemma analyzeQuotaState_level now c snapshot :
  GuardState.level (analyzeQuotaState now c snapshot)
  = levelOf c (GuardState.lowestQuota (analyzeQuotaState now c snapshot)).
Proof.
  unfold analyzeQuotaState.
  destruct (match promptCredits snapshot with Some _ => _ | None => _ end)
    as [[risk lo] lm].
  reflexivity.
Qed.

(** C1.  With [blockThreshold ≤ warningThreshold], the level of the state
    computed by [analyzeQuotaState] is the specified classification
    (p ≤ 0: blocked; 0 < p ≤ blockThreshold: critical;
    blockThreshold < p ≤ warningThreshold: warning; otherwise normal,
    bounds inclusive above) of its [lowestQuota], which is the lowest of
    100 and the percentages the snapshot reports; and the level
    [checkModel] gives a model is the same classification of that model's
    percentage. *)
Theorem guard_classification now c snapshot :
  (blockThreshold c <= warningThreshold c)%Q →
  let st := analyzeQuotaState now c snapshot in
  GuardState.level st
  = spec_classify (blockThreshold c) (warningThreshold c) (GuardState.lowestQuota st)
  ∧ lowestOf (reportedPercentages snapshot) (GuardState.lowestQuota st)
  ∧ ∀ model p,
      ModelQuotaInfo.remainingPercentage model = Some p →
      GuardCheckResult.level (checkModel c model)
      = spec_classify (blockThreshold c) (warningThreshold c) p.
Proof.
  intros _ st. split; [|split].
  - subst st. rewrite analyzeQuotaState_level. apply levelOf_spec.
  - apply analyzeQuotaState_lowest.
  - intros model p Hp. rewrite checkModel_level, levelOf_spec.
    unfold pctOf. by rewrite Hp.
Qed.

(** The theorem at the default thresholds (2 and 20), for two models at
    1.5% and 50%. *)
Lemma guard_classification_witness :
  let c := defaultConfig in
  let snapshot := snapshotOf [modelAt "m1" (Some (3 # 2)); modelAt "m2" (Some 50%Q)] in
  let st := analyzeQuotaState 0 c snapshot in
  GuardState.level st
  = spec_classify (blockThreshold c) (warningThreshold c) (GuardState.lowestQuota st)
  ∧ lowestOf (reportedPercentages snapshot) (GuardState.lowestQuota st)
  ∧ ∀ model p,
      ModelQuotaInfo.remainingPercentage model = Some p →
      GuardCheckResult.level (checkModel c model)
      = spec_classify (blockThreshold c) (warningThreshold c) p.
Proof.
  apply (guard_classification 0 defaultConfig
           (snapshotOf [modelAt "m1" (Some (3 # 2)); modelAt "m2" (Some 50%Q)])).
  apply Qleb_le. reflexivity.
Defined.

Example classification_scenarios :
  let level_at p :=
    GuardState.level (analyzeQuotaState 0 defaultConfig (snapshotOf [modelAt "m" (Some p)])) in
  level_at 0%Q = blocked ∧ level_at (3 # 2) = critical ∧ level_at 2%Q = critical
  ∧ level_at (21 # 10) = warning ∧ level_at 20%Q = warning
  ∧ level_at (201 # 10) = normal.
Proof. repeat split. Qed.

(** *** The guard flag *)

Lemma trackModel_config g model : config (trackModel g model) = config g.
Proof.
  unfold trackModel.
  destruct (lastSeenPercentages g !! _) as [last|]; [|reflexivity].
  destruct (Qgeb _ _); reflexivity.
Qed.

Lemma fold_trackModel_config ms : ∀ g, config (fold_left trackModel ms g) = config g.
Proof.
  induction ms as [|m ms IH]; intros g; cbn [fold_left]; [reflexivity|].
  rewrite IH. apply trackModel_config.
Qed.

Lemma trackPromptCredits_config g pc : config (trackPromptCredits g pc) = config g.
Proof.
  unfold trackPromptCredits.
  destruct (lastSeenPercentages g !! _) as [last|]; [|reflexivity].
  destruct (Qgeb _ _); reflexivity.
Qed.

Lemma updateSnapshot_config now snapshot g :
  config (updateSnapshot now snapshot g) = config g.
Proof.
  unfold updateSnapshot. cbn [set_guardState set_lastSnapshot config].
  destruct (promptCredits snapshot) as [pc|].
  - rewrite trackPromptCredits_config. apply fold_trackModel_config.
  - apply fold_trackModel_config.
Qed.

Lemma updateSnapshot_guardState now snapshot g :
  guardState (updateSnapshot now snapshot g)
  = analyzeQuotaState now (config g) snapshot.
Proof.
  unfold updateSnapshot. cbn [set_guardState set_lastSnapshot config guardState].
  f_equal.
  destruct (promptCredits snapshot) as [pc|].
  - rewrite trackPromptCredits_config. apply fold_trackModel_config.
  - apply fold_trackModel_config.
Qed.

Lemma analyzeQuotaState_guardActive now c snapshot :
  GuardState.guardActive (analyzeQuotaState now c snapshot) = guardEnabled c.
Proof.
  unfold analyzeQuotaState.
  destruct (match promptCredits snapshot with Some _ => _ | None => _ end)
    as [[risk lo] lm].
  reflexivity.
Qed.

(** C10.  After [updateSnapshot] the guard flag is the configured
    [guardEnabled], whatever it was before; so a [toggleGuard] (which
    flips the flag and returns the flipped value) is undone by the next
    snapshot. *)
Theorem updateSnapshot_resets_guardActive now snapshot g :
  GuardState.guardActive (guardState (updateSnapshot now snapshot g))
  = guardEnabled (config g)
  ∧ (toggleGuard g).1 = negb (GuardState.guardActive (guardState g))
  ∧ GuardState.guardActive (guardState (toggleGuard g).2)
    = negb (GuardState.guardActive (guardState g))
  ∧ config (toggleGuard g).2 = config g
  ∧ GuardState.guardActive
      (guardState (updateSnapshot now snapshot (toggleGuard g).2))
    = guardEnabled (config g).
Proof.
  repeat split.
  - rewrite updateSnapshot_guardState. apply analyzeQuotaState_guardActive.
  - rewrite updateSnapshot_guardState. apply analyzeQuotaState_guardActive.
Qed.

(** *** Reset detection *)

Lemma Qgeb_isReset last current :
  Qgeb current (Float64.add last 2) = true ↔ isReset last current.
Proof. apply Qgeb_ge. Qed.

Lemma Qgeb_not_isReset last current :
  Qgeb current (Float64.add last 2) = false ↔ ¬ isReset last current.
Proof.
  rewrite <- Qgeb_isReset.
  destruct (Qgeb current (Float64.add last 2)); split; congruence.
Qed.

Lemma trackModel_maps g model :
  maps (trackModel g model)
  = observe (maps g) (ModelQuotaInfo.modelId model, pctOf model).
Proof.
  unfold trackModel, observe, maps, pctOf. cbn [fst snd].
  destruct (lastSeenPercentages g !! _) as [last|]; [|reflexivity].
  destruct (Qgeb _ _); reflexivity.
Qed.

Lemma trackPromptCredits_maps g pc :
  maps (trackPromptCredits g pc)
  = observe (maps g) ("prompt_credits", PromptCreditsInfo.remainingPercentage pc).
Proof.
  unfold trackPromptCredits, observe, maps. cbn [fst snd].
  destruct (lastSeenPercentages g !! _) as [last|]; [|reflexivity].
  destruct (Qgeb _ _); [|reflexivity].
  cbn [acknowledgments lastSeenPercentages set_acknowledgments set_lastSeenPercentages].
  f_equal. symmetry. apply delete_id, lookup_delete_eq.
Qed.

Lemma fold_trackModel_maps ms : ∀ g,
  maps (fold_left trackModel ms g)
  = fold_left observe
      (map (fun model => (ModelQuotaInfo.modelId model, pctOf model)) ms) (maps g).
Proof.
  induction ms as [|m ms IH]; intros g; cbn [fold_left map]; [reflexivity|].
  rewrite IH, trackModel_maps. reflexivity.
Qed.

Lemma updateSnapshot_maps now snapshot g :
  maps (updateSnapshot now snapshot g)
  = fold_left observe (snapshotEntries snapshot) (maps g).
Proof.
  unfold updateSnapshot, snapshotEntries. rewrite fold_left_app.
  rewrite <- fold_trackModel_maps.
  destruct (promptCredits snapshot) as [pc|]; cbn [fold_left].
  - rewrite <- trackPromptCredits_maps. reflexivity.
  - reflexivity.
Qed.

(** Acknowledgments are only ever removed by [observe]. *)
Lemma observe_acks_shrink st e k :
  (observe st e).1 !! k = None ∨ (observe st e).1 !! k = st.1 !! k.
Proof.
  unfold observe. cbn [fst snd].
  destruct (st.2 !! e.1) as [last|]; [|by right].
  destruct (Qgeb _ _); [|by right].
  destruct (decide (k = "prompt_credits")) as [->|Hpc].
  - left. apply lookup_delete_eq.
  - rewrite lookup_delete_ne by done.
    destruct (decide (k = e.1)) as [->|Hk].
    + left. apply lookup_delete_eq.
    + right. by rewrite lookup_delete_ne.
Qed.

Lemma fold_observe_acks_shrink es : ∀ st k,
  (fold_left observe es st).1 !! k = None
  ∨ (fold_left observe es st).1 !! k = st.1 !! k.
Proof.
  induction es as [|e es IH]; intros st k; cbn [fold_left]; [by right|].
  destruct (IH (observe st e) k) as [H|H]; [by left|].
  rewrite H. apply observe_acks_shrink.
Qed.

Lemma fold_observe_seen_other es : ∀ st k,
  k ∉ es.*1 → (fold_left observe es st).2 !! k = st.2 !! k.
Proof.
  induction es as [|e es IH]; intros st k Hk; cbn [fold_left]; [reflexivity|].
  rewrite fmap_cons in Hk. apply not_elem_of_cons in Hk as [Hne Hk].
  rewrite IH by done. unfold observe. cbn [snd].
  by rewrite lookup_insert_ne.
Qed.

(** The walk over entries with pairwise distinct ids. *)
Lemma fold_observe_entry es : ∀ st id current,
  NoDup es.*1 → (id, current) ∈ es →
  let st' := fold_left observe es st in
  st'.2 !! id = Some current
  ∧ ∀ last, st.2 !! id = Some last →
      (isReset last current →
         st'.1 !! id = None ∧ st'.1 !! "prompt_credits" = None)
      ∧ (¬ isReset last current → id ≠ "prompt_credits" →
           st'.1 !! id = st.1 !! id).
Proof.
  induction es as [|e es IH]; intros st id current Hnd Hin; [by inversion Hin|].
  rewrite fmap_cons in Hnd. apply NoDup_cons in Hnd as [Hfresh Hnd].
  cbn zeta. cbn [fold_left]. apply elem_of_cons in Hin as [<-|Hin].
  - (* the entry at hand *)
    cbn [fst] in Hfresh. split.
    + rewrite fold_observe_seen_other by done.
      unfold observe. cbn [fst snd]. apply lookup_insert_eq.
    + intros last Hlast. split.
      * intros Hr. apply Qgeb_isReset in Hr.
        assert (Ha : (observe st (id, current)).1 !! id = None
                     ∧ (observe st (id, current)).1 !! "prompt_credits" = None).
        { unfold observe. cbn [fst snd]. rewrite Hlast, Hr. split.
          - destruct (decide (id = "prompt_credits")) as [->|Hne].
            + apply lookup_delete_eq.
            + rewrite lookup_delete_ne by done. apply lookup_delete_eq.
          - apply lookup_delete_eq. }
        destruct Ha as [Ha1 Ha2]. split.
        -- destruct (fold_observe_acks_shrink es (observe st (id, current)) id)
             as [H|H]; [done | by rewrite H].
        -- destruct (fold_observe_acks_shrink es (observe st (id, current))
                       "prompt_credits") as [H|H]; [done | by rewrite H].
      * intros Hr Hpc. apply Qgeb_not_isReset in Hr.
        assert (Hes : ∀ st0, (fold_left observe es st0).1 !! id = st0.1 !! id).
        { clear -Hfresh Hpc. induction es as [|e es IH]; intros st0;
            cbn [fold_left]; [reflexivity|].
          rewrite fmap_cons in Hfresh.
          apply not_elem_of_cons in Hfresh as [Hne Hfresh].
          rewrite IH by done. unfold observe. cbn [fst snd].
          destruct (st0.2 !! e.1) as [l|]; [|reflexivity].
          destruct (Qgeb _ _); [|reflexivity].
          by rewrite !lookup_delete_ne. }
        rewrite Hes. unfold observe. cbn [fst snd]. by rewrite Hlast, Hr.
  - (* a later entry *)
    assert (Hne : e.1 ≠ id).
    { intros <-. apply Hfresh. apply list_elem_of_fmap.
      exists (e.1, current). split; [reflexivity | exact Hin]. }
    destruct (IH (observe st e) id current Hnd Hin) as [Hseen Hacks].
    split; [exact Hseen|].
    intros last Hlast.
    assert (Hlast' : (observe st e).2 !! id = Some last).
    { unfold observe. cbn [snd]. by rewrite lookup_insert_ne. }
    destruct (Hacks last Hlast') as [Hyes Hno]. split; [exact Hyes|].
    intros Hr Hpc. rewrite Hno by done.
    unfold observe. cbn [fst snd].
    destruct (st.2 !! e.1) as [l|]; [|reflexivity].
    destruct (Qgeb _ _); [|reflexivity].
    by rewrite !lookup_delete_ne.
Qed.

(** Without any reset the acknowledgments are left as they are. *)
Lemma fold_observe_no_reset es : ∀ st,
  NoDup es.*1 →
  (∀ id current last,
      (id, current) ∈ es → st.2 !! id = Some last → ¬ isReset last current) →
  (fold_left observe es st).1 = st.1.
Proof.
  induction es as [|e es IH]; intros st Hnd Hno; cbn [fold_left]; [reflexivity|].
  rewrite fmap_cons in Hnd. apply NoDup_cons in Hnd as [Hfresh Hnd].
  assert (H1 : (observe st e).1 = st.1).
  { unfold observe. destruct (st.2 !! e.1) as [last|] eqn:E; [|reflexivity].
    destruct e as [id current]. cbn [fst snd] in *.
    specialize (Hno id current last (list_elem_of_here _ _) E).
    apply Qgeb_not_isReset in Hno. by rewrite Hno. }
  rewrite IH; [exact H1 | exact Hnd |].
  intros id current last Hin Hl. apply (Hno id current last).
  - by apply list_elem_of_further.
  - unfold observe in Hl. cbn [snd] in Hl.
    rewrite lookup_insert_ne in Hl; [exact Hl|].
    intros Heq. apply Hfresh. rewrite Heq. apply list_elem_of_fmap.
    exists (id, current). split; [reflexivity | exact Hin].
Qed.

Lemma observe_fired st id current last k :
  st.2 !! id = Some last → isReset last current →
  k = id ∨ k = "prompt_credits" →
  (observe st (id, current)).1 !! k = None.
Proof.
  intros Hl Hr Hk. apply Qgeb_isReset in Hr.
  unfold observe. cbn [fst snd]. rewrite Hl, Hr.
  destruct Hk as [->| ->]; [|apply lookup_delete_eq].
  destruct (decide (id = "prompt_credits")) as [->|Hne]; [apply lookup_delete_eq|].
  rewrite lookup_delete_ne by done. apply lookup_delete_eq.
Qed.

(** The walk of the code clears exactly what [cleared] says. *)
Lemma fold_observe_cleared es : ∀ st k,
  (cleared st.2 es k → (fold_left observe es st).1 !! k = None)
  ∧ (¬ cleared st.2 es k → (fold_left observe es st).1 !! k = st.1 !! k).
Proof.
  induction es as [|[id current] es IH]; intros st k; cbn [fold_left cleared].
  { split; [done | reflexivity]. }
  destruct (IH (observe st (id, current)) k) as [IHyes IHno].
  change (observe st (id, current)).2 with (<[id := current]> st.2) in IHyes, IHno.
  split.
  - intros [(last & Hl & Hr & Hk)|Hc]; [|by apply IHyes].
    destruct (fold_observe_acks_shrink es (observe st (id, current)) k) as [H|H];
      [done|].
    rewrite H. by eapply observe_fired.
  - intros Hn. rewrite IHno by (intros Hc; apply Hn; by right).
    unfold observe. cbn [fst snd].
    destruct (st.2 !! id) as [last|] eqn:Hl; [|reflexivity].
    destruct (Qgeb current (Float64.add last 2)) eqn:Hr; [|reflexivity].
    apply Qgeb_isReset in Hr.
    assert (Hk : k ≠ id ∧ k ≠ "prompt_credits").
    { split; intros ->; apply Hn; left; exists last; tauto. }
    destruct Hk as [Hk1 Hk2]. by rewrite !lookup_delete_ne.
Qed.

Lemma fold_observe_recorded es : ∀ st,
  (fold_left observe es st).2 = recorded st.2 es.
Proof.
  induction es as [|e es IH]; intros st; cbn [fold_left]; [reflexivity|].
  rewrite IH. reflexivity.
Qed.

Lemma recorded_last pre id current post : ∀ seen,
  id ∉ post.*1 →
  recorded seen (pre ++ (id, current) :: post) !! id = Some current.
Proof.
  intros seen Hpost. unfold recorded. rewrite fold_left_app. cbn [fold_left fst snd].
  generalize (fold_left (fun seen e => <[e.1 := e.2]> seen) pre seen). intros seen'.
  assert (H : ∀ m : gmap string Q, m !! id = Some current →
            fold_left (fun seen e => <[e.1 := e.2]> seen) post m !! id = Some current).
  { clear seen seen'. induction post as [|e post IH]; intros m Hm; cbn [fold_left];
      [done|].
    rewrite fmap_cons in Hpost. apply not_elem_of_cons in Hpost as [Hne Hpost].
    apply IH; [done|]. by rewrite lookup_insert_ne. }
  apply H, lookup_insert_eq.
Qed.

(** C3.  Reset detection in [updateSnapshot]; "current ≥ last + 2.0" is
    read in the arithmetic of the program ([isReset]: the sum is the
    binary64 one).
    (1) Each turn of the model loop records the current percentage as
    last seen for the model's id; if a last-seen percentage was recorded,
    then the acknowledgments of that id and of the prompt credits are
    removed when current ≥ last + 2.0, and nothing is removed otherwise.
    (2) The same for the prompt-credits block.
    (3) For a whole snapshot, whatever its ids: the acknowledgments
    removed are exactly those [cleared] names (each entry is compared with
    the percentage last recorded for its id, which is that of an earlier
    entry of the same snapshot when the id occurs twice), every other one
    is left as it is, and the percentages recorded are those of the
    entries, the last entry of an id winning.
    (4) For a snapshot with pairwise distinct ids, entry by entry against
    the percentages recorded before the call.
    (5) A jump of exactly 2 to a binary64 number is a reset; for
    percentages between -130 and 126, a jump of at least 2 + 2^-47 is a
    reset and a jump below 2 - 2^-47 is not, one of at most 1.9 in
    particular.  From the binary64 number 0.3 to the binary64 number 2.3
    there is a reset, though the second is below the first plus 2. *)
Theorem updateSnapshot_reset_detection :
  (∀ g model,
      let id := ModelQuotaInfo.modelId model in
      let g' := trackModel g model in
      lastSeenPercentages g' !! id = Some (pctOf model)
      ∧ (lastSeenPercentages g !! id = None →
           acknowledgments g' = acknowledgments g)
      ∧ ∀ last, lastSeenPercentages g !! id = Some last →
          (isReset last (pctOf model) →
             acknowledgments g'
             = delete "prompt_credits" (delete id (acknowledgments g)))
          ∧ (¬ isReset last (pctOf model) →
               acknowledgments g' = acknowledgments g))
  ∧ (∀ g pc,
        let current := PromptCreditsInfo.remainingPercentage pc in
        let g' := trackPromptCredits g pc in
        lastSeenPercentages g' !! "prompt_credits" = Some current
        ∧ (lastSeenPercentages g !! "prompt_credits" = None →
             acknowledgments g' = acknowledgments g)
        ∧ ∀ last, lastSeenPercentages g !! "prompt_credits" = Some last →
            (isReset last current →
               acknowledgments g' = delete "prompt_credits" (acknowledgments g))
            ∧ (¬ isReset last current →
                 acknowledgments g' = acknowledgments g))
  ∧ (∀ now snapshot g,
        let g' := updateSnapshot now snapshot g in
        let entries := snapshotEntries snapshot in
        (∀ k, (cleared (lastSeenPercentages g) entries k →
                 acknowledgments g' !! k = None)
              ∧ (¬ cleared (lastSeenPercentages g) entries k →
                   acknowledgments g' !! k = acknowledgments g !! k))
        ∧ lastSeenPercentages g' = recorded (lastSeenPercentages g) entries
        ∧ (∀ pre id current post,
              entries = pre ++ (id, current) :: post → id ∉ post.*1 →
              lastSeenPercentages g' !! id = Some current)
        ∧ (∀ id, id ∉ entries.*1 →
              lastSeenPercentages g' !! id = lastSeenPercentages g !! id))
  ∧ (∀ now snapshot g,
        NoDup (snapshotEntries snapshot).*1 →
        let g' := updateSnapshot now snapshot g in
        (∀ id current, (id, current) ∈ snapshotEntries snapshot →
           lastSeenPercentages g' !! id = Some current
           ∧ ∀ last, lastSeenPercentages g !! id = Some last →
               (isReset last current →
                  acknowledgments g' !! id = None
                  ∧ acknowledgments g' !! "prompt_credits" = None)
               ∧ (¬ isReset last current → id ≠ "prompt_credits" →
                    acknowledgments g' !! id = acknowledgments g !! id))
        ∧ (¬ anyReset g snapshot → acknowledgments g' = acknowledgments g))
  ∧ (∀ last current,
        (Float64.representable current → (current == last + 2)%Q →
           isReset last current)
        ∧ ((-130 < last)%Q → (last < 126)%Q →
             ((last + 2 + Float64.pow2 (-47) <= current)%Q → isReset last current)
             ∧ ((current < last + 2 - Float64.pow2 (-47))%Q →
                  ¬ isReset last current)
             ∧ ((current <= last + (19 # 10))%Q → ¬ isReset last current)))
  ∧ (isReset (Float64.round (3 # 10)) (Float64.round (23 # 10))
     ∧ (Float64.round (23 # 10) < Float64.round (3 # 10) + 2)%Q).
Proof.
  split; [|split; [|split; [|split; [|split]]]]; [| | | | |by vm_compute].
  - intros g model id g'.
    pose proof (trackModel_maps g model) as Hm.
    pose proof (f_equal fst Hm) as Ha. pose proof (f_equal snd Hm) as Hs.
    unfold maps, observe in Ha, Hs. cbn [fst snd] in Ha, Hs.
    fold id g' in Ha, Hs. clear Hm. split; [|split].
    + rewrite Hs. apply lookup_insert_eq.
    + intros E. by rewrite Ha, E.
    + intros last E. rewrite Ha, E. split; intros Hr.
      * apply Qgeb_isReset in Hr. by rewrite Hr.
      * apply Qgeb_not_isReset in Hr. by rewrite Hr.
  - intros g pc current g'.
    pose proof (trackPromptCredits_maps g pc) as Hm.
    pose proof (f_equal fst Hm) as Ha. pose proof (f_equal snd Hm) as Hs.
    unfold maps, observe in Ha, Hs. cbn [fst snd] in Ha, Hs.
    fold current g' in Ha, Hs. clear Hm. split; [|split].
    + rewrite Hs. apply lookup_insert_eq.
    + intros E. by rewrite Ha, E.
    + intros last E. rewrite Ha, E. split; intros Hr.
      * apply Qgeb_isReset in Hr. rewrite Hr.
        apply delete_id, lookup_delete_eq.
      * apply Qgeb_not_isReset in Hr. by rewrite Hr.
  - intros now snapshot g g' entries.
    pose proof (updateSnapshot_maps now snapshot g) as Hm. fold g' entries in Hm.
    pose proof (f_equal fst Hm) as Ha. pose proof (f_equal snd Hm) as Hs.
    unfold maps in Ha, Hs. cbn [fst snd] in Ha, Hs. clear Hm.
    rewrite fold_observe_recorded in Hs. cbn [snd] in Hs.
    split; [|split; [exact Hs|split]].
    + intros k. rewrite Ha.
      apply (fold_observe_cleared entries
               (acknowledgments g, lastSeenPercentages g) k).
    + intros pre id current post -> Hpost. rewrite Hs. by apply recorded_last.
    + intros id Hid.
      pose proof (fold_observe_recorded entries
                    (acknowledgments g, lastSeenPercentages g)) as Hr.
      cbn [snd] in Hr. rewrite Hs, <- Hr.
      by rewrite fold_observe_seen_other.
  - intros now snapshot g Hnd g'.
    pose proof (updateSnapshot_maps now snapshot g) as Hm. fold g' in Hm.
    unfold maps in Hm. split.
    + intros id current Hin.
      pose proof (fold_observe_entry (snapshotEntries snapshot)
                    (acknowledgments g, lastSeenPercentages g) id current Hnd Hin) as H.
      cbn zeta in H. rewrite <- Hm in H. exact H.
    + intros Hno.
      pose proof (fold_observe_no_reset (snapshotEntries snapshot)
                    (acknowledgments g, lastSeenPercentages g) Hnd) as H.
      rewrite <- Hm in H. apply H.
      intros id current last Hin Hl Hr. apply Hno.
      exists id, current, last. done.
  - intros last current. unfold isReset, Float64.add. split.
    + intros Hrep E. rewrite <- (Float64Facts.round_proper _ _ E).
      apply Qle_lteq. right. exact Hrep.
    + intros H1 H2.
      destruct (Float64Facts.round_error_128 (last + 2)) as [Hlo Hhi]; [lra | lra |].
      assert (Hp : (Float64.pow2 (-47) < 1 # 20)%Q) by reflexivity.
      split; [|split]; [intros Hle | intros Hle Hr | intros Hle Hr]; lra.
Qed.

(** *** Absent percentages *)

(** C2, as stated, fails: a model whose percentage is absent is read as
    100.  With the default thresholds the only model of a snapshot, its
    percentage absent, leaves the guard at normal with nothing at risk
    and 100 as lowest quota; 100 is recorded as its last-seen
    percentage; the gate allows the action; and after a critical
    acknowledgment at 1.5 the absence counts as a reset that drops the
    acknowledgment. *)
Lemma absent_percentage_is_read_as_100 :
  let snapshot := snapshotOf [modelAt "m1" None] in
  let st := analyzeQuotaState 0 defaultConfig snapshot in
  let g := updateSnapshot 0 snapshot (new defaultConfig) in
  let acked :=
    recordAck 0 (checkModel defaultConfig (modelAt "m1" (Some (3 # 2))))
      (updateSnapshot 0 (snapshotOf [modelAt "m1" (Some (3 # 2))])
         (new defaultConfig)) in
  GuardState.level st = normal
  ∧ GuardState.modelsAtRisk st = []
  ∧ GuardState.lowestQuota st = 100%Q
  ∧ st = analyzeQuotaState 0 defaultConfig (snapshotOf [])
  ∧ lastSeenPercentages g !! "m1" = Some 100%Q
  ∧ getModelsRequiringAttention 0 g = []
  ∧ (checkAndWarn 0 0 None g).1 = true
  ∧ acknowledgments acked !! "m1" = Some (Ack.mk critical 0 (3 # 2))
  ∧ acknowledgments (updateSnapshot 1 snapshot acked) !! "m1" = None.
Proof. vm_compute. repeat split. Qed.

Lemma analyzeModel_risk c risk lo lm model :
  (analyzeModel c (risk, lo, lm) model).1.1
  = risk ++ (if Qleb (pctOf model) (warningThreshold c) then [model] else []).
Proof.
  unfold analyzeModel, pctOf.
  destruct (Qltb _ lo); destruct (Qleb _ (warningThreshold c)); cbn [fst snd];
    by rewrite ?app_nil_r.
Qed.

Lemma pctOf_read100 model : pctOf (read100 model) = pctOf model.
Proof. reflexivity. Qed.

(** The loop of [analyzeQuotaState] on models read at 100. *)
Lemma fold_analyzeModel_read100 c ms : ∀ risk lo lm,
  let r := fold_left (analyzeModel c) ms (risk, lo, lm) in
  fold_left (analyzeModel c) (map read100 ms) (map read100 risk, lo, read100 <$> lm)
  = (map read100 r.1.1, r.1.2, read100 <$> r.2).
Proof.
  induction ms as [|m ms IH]; intros risk lo lm; cbn [fold_left map]; [reflexivity|].
  cbn zeta in IH.
  assert (E : analyzeModel c (map read100 risk, lo, read100 <$> lm) (read100 m)
              = (map read100 (analyzeModel c (risk, lo, lm) m).1.1,
                 (analyzeModel c (risk, lo, lm) m).1.2,
                 read100 <$> (analyzeModel c (risk, lo, lm) m).2)).
  { unfold analyzeModel.
    change (default 100%Q (ModelQuotaInfo.remainingPercentage (read100 m)))
      with (pctOf m).
    change (default 100%Q (ModelQuotaInfo.remainingPercentage m)) with (pctOf m).
    destruct (Qltb (pctOf m) lo); destruct (Qleb (pctOf m) (warningThreshold c));
      cbn [fst snd fmap option_fmap option_map]; rewrite ?map_app; reflexivity. }
  rewrite E.
  destruct (analyzeModel c (risk, lo, lm) m) as [[risk1 lo1] lm1]. cbn [fst snd].
  apply IH.
Qed.

Lemma read100_pcVirtualModel now p :
  read100 (pcVirtualModel now p) = pcVirtualModel now p.
Proof. reflexivity. Qed.

Lemma analyzeQuotaState_read100 now c snapshot :
  let st := analyzeQuotaState now c snapshot in
  analyzeQuotaState now c (read100Snapshot snapshot)
  = GuardState.mk (GuardState.level st)
      (map read100 (GuardState.modelsAtRisk st))
      (GuardState.lowestQuota st)
      (read100 <$> GuardState.lowestQuotaModel st)
      (GuardState.guardActive st).
Proof.
  cbn zeta. unfold analyzeQuotaState, read100Snapshot.
  cbn [models promptCredits].
  pose proof (fold_analyzeModel_read100 c (models snapshot) [] 100%Q None) as H.
  cbn zeta in H. cbn [map fmap option_fmap option_map] in H. rewrite H. clear H.
  destruct (fold_left (analyzeModel c) (models snapshot) ([], 100%Q, None))
    as [[risk lo] lm]. cbn [fst snd].
  destruct (promptCredits snapshot) as [pc|]; [|reflexivity].
  pose proof (fold_analyzeModel_read100 c
                [pcVirtualModel now (PromptCreditsInfo.remainingPercentage pc)]
                risk lo lm) as H.
  cbn zeta in H. cbn [fold_left map] in H. rewrite read100_pcVirtualModel in H.
  rewrite H. clear H.
  destruct (analyzeModel c (risk, lo, lm) _) as [[risk' lo'] lm']. reflexivity.
Qed.

Lemma snapshotEntries_read100 snapshot :
  snapshotEntries (read100Snapshot snapshot) = snapshotEntries snapshot.
Proof.
  unfold snapshotEntries, read100Snapshot. cbn [models promptCredits].
  f_equal. rewrite map_map. reflexivity.
Qed.

Lemma filter_read100 (P : Q → bool) ms :
  List.filter (fun model => P (pctOf model)) (map read100 ms)
  = map read100 (List.filter (fun model => P (pctOf model)) ms).
Proof.
  induction ms as [|m ms IH]; cbn [map List.filter]; [reflexivity|].
  rewrite pctOf_read100. destruct (P (pctOf m)); cbn [map]; by rewrite IH.
Qed.

Lemma getModelsRequiringAttention_read100 now snapshot g :
  getModelsRequiringAttention now (set_lastSnapshot (read100Snapshot snapshot) g)
  = map read100 (getModelsRequiringAttention now (set_lastSnapshot snapshot g)).
Proof.
  unfold getModelsRequiringAttention, set_lastSnapshot, read100Snapshot.
  cbn [lastSnapshot config models promptCredits].
  pose proof (filter_read100 (fun p => Qleb p (warningThreshold (config g)))
                (models snapshot)) as H.
  change (fun model => Qleb (default 100%Q (ModelQuotaInfo.remainingPercentage model))
                            (warningThreshold (config g)))
    with (fun model => Qleb (pctOf model) (warningThreshold (config g))).
  rewrite H. clear H.
  destruct (promptCredits snapshot) as [pc|]; [|reflexivity].
  destruct (Qleb _ _); [|reflexivity].
  rewrite map_app. reflexivity.
Qed.

Lemma analyzeQuotaState_modelsAtRisk now c snapshot :
  GuardState.modelsAtRisk (analyzeQuotaState now c snapshot)
  = List.filter (fun model => Qleb (pctOf model) (warningThreshold c))
      (models snapshot
       ++ match promptCredits snapshot with
          | Some pc => [pcVirtualModel now (PromptCreditsInfo.remainingPercentage pc)]
          | None => []
          end).
Proof.
  assert (Hfold : ∀ ms risk lo lm,
             (fold_left (analyzeModel c) ms (risk, lo, lm)).1.1
             = risk ++ List.filter
                         (fun model => Qleb (pctOf model) (warningThreshold c)) ms).
  { induction ms as [|m ms IH]; intros risk lo lm; cbn [fold_left List.filter].
    - by rewrite app_nil_r.
    - pose proof (analyzeModel_risk c risk lo lm m) as H.
      destruct (analyzeModel c (risk, lo, lm) m) as [[risk1 lo1] lm1].
      cbn [fst] in H. rewrite IH, H.
      destruct (Qleb (pctOf m) (warningThreshold c)).
      + by rewrite <- app_assoc.
      + by rewrite app_nil_r. }
  unfold analyzeQuotaState. rewrite List.filter_app.
  specialize (Hfold (models snapshot) [] 100%Q None).
  destruct (fold_left (analyzeModel c) (models snapshot) ([], 100%Q, None))
    as [[risk lo] lm]. cbn [fst app] in Hfold. subst risk.
  destruct (promptCredits snapshot) as [pc|].
  - pose proof (analyzeModel_risk c
                  (List.filter (fun model => Qleb (pctOf model) (warningThreshold c))
                               (models snapshot)) lo lm
                  (pcVirtualModel now (PromptCreditsInfo.remainingPercentage pc))) as H.
    destruct (analyzeModel c _ _) as [[risk' lo'] lm']. cbn [fst] in H.
    cbn [GuardState.modelsAtRisk List.filter]. rewrite H.
    by destruct (Qleb _ _).
  - cbn [GuardState.modelsAtRisk List.filter]. by rewrite app_nil_r.
Qed.

(** C2, amended.  The guard reads an absent percentage as 100.  The state
    analysis of a snapshot is that of the same snapshot with every absent
    percentage set to 100 (same level, lowest quota and flag; the same
    models at risk and lowest model, up to that replacement); so are the
    acknowledgments and the last-seen percentages after [updateSnapshot],
    the models the gate selects, and what [checkModel] decides.  Hence a
    model without percentage is at risk only if 100 ≤ warningThreshold,
    and is never classified as blocked. *)
Theorem absent_percentage_read_as_100 now c snapshot g :
  let st := analyzeQuotaState now c snapshot in
  let st' := analyzeQuotaState now c (read100Snapshot snapshot) in
  (GuardState.level st' = GuardState.level st
   ∧ GuardState.lowestQuota st' = GuardState.lowestQuota st
   ∧ GuardState.guardActive st' = GuardState.guardActive st
   ∧ GuardState.modelsAtRisk st' = map read100 (GuardState.modelsAtRisk st)
   ∧ GuardState.lowestQuotaModel st' = read100 <$> GuardState.lowestQuotaModel st)
  ∧ (acknowledgments (updateSnapshot now (read100Snapshot snapshot) g)
     = acknowledgments (updateSnapshot now snapshot g)
     ∧ lastSeenPercentages (updateSnapshot now (read100Snapshot snapshot) g)
       = lastSeenPercentages (updateSnapshot now snapshot g))
  ∧ getModelsRequiringAttention now (set_lastSnapshot (read100Snapshot snapshot) g)
    = map read100 (getModelsRequiringAttention now (set_lastSnapshot snapshot g))
  ∧ (∀ model,
        let check := checkModel c model in
        let check' := checkModel c (read100 model) in
        GuardCheckResult.level check' = GuardCheckResult.level check
        ∧ GuardCheckResult.shouldWarn check' = GuardCheckResult.shouldWarn check
        ∧ GuardCheckResult.shouldBlock check' = GuardCheckResult.shouldBlock check)
  ∧ (∀ model,
        ModelQuotaInfo.remainingPercentage model = None →
        read100 model = ModelQuotaInfo.mk
          (ModelQuotaInfo.label model) (ModelQuotaInfo.modelId model)
          (ModelQuotaInfo.remainingFraction model) (Some 100%Q)
          (ModelQuotaInfo.isExhausted model) (ModelQuotaInfo.resetTime model)
          (ModelQuotaInfo.timeUntilReset model)
          (ModelQuotaInfo.timeUntilResetFormatted model)
        ∧ (model ∈ GuardState.modelsAtRisk st → (100 <= warningThreshold c)%Q)
        ∧ GuardCheckResult.level (checkModel c model) ≠ blocked).
Proof.
  intros st st'. split; [|split; [|split; [|split]]].
  - subst st st'. rewrite analyzeQuotaState_read100. cbn zeta.
    repeat split.
  - pose proof (updateSnapshot_maps now (read100Snapshot snapshot) g) as H1.
    pose proof (updateSnapshot_maps now snapshot g) as H2.
    rewrite snapshotEntries_read100, <- H2 in H1. unfold maps in H1.
    split; [exact (f_equal fst H1) | exact (f_equal snd H1)].
  - apply getModelsRequiringAttention_read100.
  - intros model. cbn zeta. unfold checkModel.
    change (default 100%Q (ModelQuotaInfo.remainingPercentage (read100 model)))
      with (pctOf model).
    change (default 100%Q (ModelQuotaInfo.remainingPercentage model))
      with (pctOf model).
    repeat match goal with |- context [if ?b then _ else _] => destruct b end;
      repeat split.
  - intros model Hnone. split; [|split].
    + unfold read100, pctOf. by rewrite Hnone.
    + subst st. rewrite analyzeQuotaState_modelsAtRisk.
      intros Hin. apply list_elem_of_In, List.filter_In in Hin as [_ Hle].
      apply Qleb_le in Hle. unfold pctOf in Hle. by rewrite Hnone in Hle.
    + rewrite checkModel_level. unfold levelOf, pctOf. rewrite Hnone.
      cbn [default]. change (Qleb 100 0) with false. cbn iota.
      repeat match goal with |- context [if ?b then _ else _] => destruct b end;
        discriminate.
Qed.

(** *** Alert suppression *)

Lemma moreSevere_levelOrder a b :
  moreSevere a b ↔ (levelOrder b < levelOrder a)%Z.
Proof.
  split.
  - intros H. destruct H; reflexivity.
  - destruct a, b; cbn; intros H; try lia; constructor.
Qed.

(** C4.  [shouldShowAlert]: no acknowledgment for the model id: show; a
    level strictly more severe than the acknowledged one: show; otherwise
    critical or blocked: suppress, whatever the clock; otherwise, at
    warning, show exactly when more than 600000 ms have passed since the
    acknowledgment or the percentage (an absent one read as 0) is more
    than 5 points under the acknowledged one, the difference being the
    binary64 one.  That difference is above 5 only if the exact one is,
    and it is as soon as the exact one reaches the next binary64 number
    above 5; from the binary64 number 7.4 to the binary64 number 2.4 it is
    5, though the exact one is above 5. *)
Theorem shouldShowAlert_rules now g check :
  let id := ModelQuotaInfo.modelId (GuardCheckResult.model check) in
  let lvl := GuardCheckResult.level check in
  let pct := default 0%Q (ModelQuotaInfo.remainingPercentage
                           (GuardCheckResult.model check)) in
  (acknowledgments g !! id = None → shouldShowAlert now g check = true)
  ∧ (∀ ack, acknowledgments g !! id = Some ack →
      (moreSevere lvl (Ack.level ack) →
         shouldShowAlert now g check = true)
      ∧ (¬ moreSevere lvl (Ack.level ack) →
           lvl = critical ∨ lvl = blocked →
           shouldShowAlert now g check = false)
      ∧ (¬ moreSevere lvl (Ack.level ack) →
           lvl = warning →
           (shouldShowAlert now g check = true
            ↔ (600000 < now - Ack.timestamp ack)%Z
              ∨ (5 < Float64.sub (Ack.percentage ack) pct)%Q)))
  ∧ (∀ acknowledged current : Q,
        ((5 < Float64.sub acknowledged current)%Q →
           (5 < acknowledged - current)%Q)
        ∧ ((5 + Float64.pow2 (-50) <= acknowledged - current)%Q →
             (5 < Float64.sub acknowledged current)%Q))
  ∧ ((Float64.sub (Float64.round (74 # 10)) (Float64.round (24 # 10)) == 5)%Q
     ∧ (5 < Float64.round (74 # 10) - Float64.round (24 # 10))%Q).
Proof.
  intros id lvl pct. unfold shouldShowAlert. fold id lvl pct.
  split; [|split; [|split]]; [| | |by vm_compute].
  - intros ->. reflexivity.
  - intros ack ->. split; [|split].
    + intros H. apply moreSevere_levelOrder, Z.ltb_lt in H. by rewrite H.
    + intros H Hl. rewrite moreSevere_levelOrder in H.
      apply Z.nlt_ge, Z.ltb_ge in H. rewrite H.
      destruct Hl as [-> | ->]; reflexivity.
    + intros H Hl. rewrite moreSevere_levelOrder in H.
      apply Z.nlt_ge, Z.ltb_ge in H. rewrite H, Hl. cbn [bool_decide orb].
      rewrite !bool_decide_eq_false_2 by discriminate. cbn [orb].
      rewrite orb_true_iff, Z.ltb_lt, Qgtb_gt. reflexivity.
  - intros acknowledged current. unfold Float64.sub. split.
    + intros H. apply Qnot_le_lt. intros Hle.
      apply Float64Facts.round_mono in Hle.
      change (Float64.round 5) with 5%Q in Hle.
      exact (Qlt_not_le _ _ H Hle).
    + intros H. apply Float64Facts.round_mono in H.
      eapply Qlt_le_trans; [|exact H]. reflexivity.
Qed.

(** *** Scenarios *)

(** A model acknowledged at critical with 1.5%: a later 5% (≥ 1.5 + 2) is
    a reset that drops the acknowledgment, and the state is warning; 3.5%
    (a jump of exactly 2) is a reset too; 3.4% (a jump of 1.9) is not. *)
Example reset_scenario :
  let g0 := updateSnapshot 0 (snapshotOf [modelAt "m1" (Some (3 # 2))]) (new defaultConfig) in
  let acked := recordAck 1000 (checkModel defaultConfig (modelAt "m1" (Some (3 # 2)))) g0 in
  let after p := updateSnapshot 2000 (snapshotOf [modelAt "m1" (Some p)]) acked in
  GuardState.level (guardState g0) = critical
  ∧ acknowledgments acked !! "m1" = Some (Ack.mk critical 1000 (3 # 2))
  ∧ acknowledgments (after 5%Q) !! "m1" = None
  ∧ GuardState.level (guardState (after 5%Q)) = warning
  ∧ acknowledgments (after (7 # 2)) !! "m1" = None
  ∧ acknowledgments (after (Float64.round (34 # 10))) !! "m1"
    = Some (Ack.mk critical 1000 (3 # 2))
  ∧ lastSeenPercentages (after (Float64.round (34 # 10))) !! "m1"
    = Some (Float64.round (34 # 10)).
Proof. vm_compute. repeat split. Qed.

(** After a critical acknowledgment, critical is not shown again however
    late, blocked is; after a warning acknowledgment at 15%, warning is
    shown again after more than 600000 ms or more than 5 points lower;
    from the binary64 number 7.4 to the binary64 number 2.4 the difference
    of the program is 5, so the warning is not shown again, though the
    exact difference of the two is above 5. *)
Example suppression_scenario :
  let ackedAt lvl p :=
    set_acknowledgments {["m1" := Ack.mk lvl 0 p]} (new defaultConfig) in
  let check p := checkModel defaultConfig (modelAt "m1" (Some p)) in
  shouldShowAlert 999999999 (ackedAt critical (3 # 2)) (check (3 # 2)) = false
  ∧ shouldShowAlert 1 (ackedAt critical (3 # 2)) (check 0%Q) = true
  ∧ shouldShowAlert 600000 (ackedAt warning 15%Q) (check 15%Q) = false
  ∧ shouldShowAlert 600001 (ackedAt warning 15%Q) (check 15%Q) = true
  ∧ shouldShowAlert 1 (ackedAt warning 15%Q) (check 10%Q) = false
  ∧ shouldShowAlert 1 (ackedAt warning 15%Q) (check (Float64.round (99 # 10))) = true
  ∧ shouldShowAlert 1 (ackedAt warning (Float64.round (74 # 10)))
      (check (Float64.round (24 # 10))) = false
  ∧ (5 < Float64.round (74 # 10) - Float64.round (24 # 10))%Q
  ∧ shouldShowAlert 1 (new defaultConfig) (check 15%Q) = true.
Proof. vm_compute. repeat split. Qed.

End QuotaGuardFacts.

(** ** Endpoint discovery *)

Module ProcessFinderFacts.
Import ProcessFinder.

Section Facts.
Context {strategy : PlatformStrategy}.
Variable processName : string.
Variable env : Env.
Variable isJSON : string → bool.

#[local] Abbreviation testPort := (testPort env isJSON).
#[local] Abbreviation findWorkingPort := (findWorkingPort env isJSON).
#[local] Abbreviation getListeningPorts := (getListeningPorts env).
#[local] Abbreviation attemptOnce := (attemptOnce processName env isJSON).
#[local] Abbreviation detectLoop := (detectLoop processName env isJSON).
#[local] Abbreviation detectProcessInfo := (detectProcessInfo processName env isJSON).
#[local] Abbreviation Retries := (Retries processName env isJSON).
#[local] Abbreviation answers := (answers isJSON).
#[local] Abbreviation probeEvents := (probeEvents env).
#[local] Abbreviation working := (working isJSON).
#[local] Abbreviation allFail := (allFail env isJSON).

(** *** Port validation *)

(** A probe counts as working exactly on status 200 with a body that
    parses as JSON. *)
Lemma answers_true r : answers r = true ↔ working r.
Proof.
  unfold ProcessFinder.working. destruct r as [status body| |]; cbn.
  - rewrite andb_true_iff, Z.eqb_eq. split.
    + intros [-> H]. eauto.
    + intros (b & [= -> ->] & H). done.
  - split; [done | by intros (b & ? & _)].
  - split; [done | by intros (b & ? & _)].
Qed.

Lemma answers_false r : answers r = false ↔ ¬ working r.
Proof. rewrite <- answers_true. by destruct (answers r). Qed.

Lemma probedPorts_probeEvents ports csrfToken : ∀ tr,
  probedPorts (probeEvents tr ports csrfToken) = ports.
Proof.
  induction ports as [|p ports IH]; intros tr; [reflexivity|].
  cbn. unfold probedPorts in IH. by rewrite IH.
Qed.

Lemma probeEvents_app pre post csrfToken : ∀ tr,
  probeEvents tr (pre ++ post) csrfToken
  = probeEvents tr pre csrfToken
    ++ probeEvents (tr ++ probeEvents tr pre csrfToken) post csrfToken.
Proof.
  induction pre as [|p pre IH]; intros tr; cbn.
  - by rewrite app_nil_r.
  - rewrite IH. by rewrite <- app_assoc.
Qed.

Lemma findWorkingPort_cons port ports csrfToken tr :
  findWorkingPort (port :: ports) csrfToken tr
  = let r := httpsRequest env tr port csrfToken in
    if answers r then (Some port, tr ++ [EvProbe port csrfToken r])
    else findWorkingPort ports csrfToken (tr ++ [EvProbe port csrfToken r]).
Proof.
  cbn. unfold mbind, M_bind, ProcessFinder.testPort. cbn.
  by destruct (answers _).
Qed.

(** C6.  [findWorkingPort] probes the candidates in the order given and
    stops at the first one that works (what comes back is status 200 with
    a body that parses as JSON): it returns that port, none of the ports
    before it worked, the ports probed are those up to and including it,
    so none listed after it is probed; when no candidate works all of
    them are probed, in order, and the result is null. *)
Theorem findWorkingPort_first_working ports csrfToken tr :
  let result := (findWorkingPort ports csrfToken tr).1 in
  let tr' := (findWorkingPort ports csrfToken tr).2 in
  match result with
  | Some port =>
      ∃ pre rest body,
        ports = pre ++ port :: rest
        ∧ allFail tr pre csrfToken
        ∧ httpsRequest env (tr ++ probeEvents tr pre csrfToken) port csrfToken
          = ProbeResponse 200 body
        ∧ isJSON body = true
        ∧ tr' = tr ++ probeEvents tr (pre ++ [port]) csrfToken
        ∧ probedPorts (probeEvents tr (pre ++ [port]) csrfToken) = pre ++ [port]
  | None =>
      allFail tr ports csrfToken
      ∧ tr' = tr ++ probeEvents tr ports csrfToken
      ∧ probedPorts (probeEvents tr ports csrfToken) = ports
  end.
Proof.
  cbn zeta. revert tr. induction ports as [|p ports IH]; intros tr.
  - cbn. by rewrite app_nil_r.
  - rewrite findWorkingPort_cons. cbn zeta.
    destruct (answers (httpsRequest env tr p csrfToken)) eqn:E.
    + cbn [fst snd]. apply answers_true in E as (body & E & Hjson).
      exists [], ports, body. cbn. rewrite app_nil_r. done.
    + apply answers_false in E.
      specialize (IH (tr ++ [EvProbe p csrfToken (httpsRequest env tr p csrfToken)])).
      destruct (findWorkingPort ports csrfToken _) as [[port|] tr'] eqn:Er;
        cbn [fst snd] in *.
      * destruct IH as (pre & rest & body & -> & Hfail & Hok & Hjson & -> & Hprobed).
        exists (p :: pre), rest, body. cbn [app allFail probeEvents].
        rewrite <- !app_assoc. rewrite <- app_assoc in Hok. cbn [app] in *.
        split; [done|]. split; [done|]. split; [done|]. split; [done|].
        split; [done|].
        apply (probedPorts_probeEvents (p :: pre ++ [port])).
      * destruct IH as (Hfail & -> & Hprobed).
        cbn [allFail probeEvents]. rewrite <- !app_assoc. cbn [app].
        split; [done|]. split; [done|].
        apply (probedPorts_probeEvents (p :: ports)).
Qed.

(** *** The retry loop *)

Lemma findWorkingPort_events ports csrfToken : ∀ tr,
  ∃ tried, (findWorkingPort ports csrfToken tr).2
           = tr ++ probeEvents tr tried csrfToken.
Proof.
  induction ports as [|p ports IH]; intros tr.
  - exists []. cbn. by rewrite app_nil_r.
  - rewrite findWorkingPort_cons. cbn zeta.
    destruct (answers (httpsRequest env tr p csrfToken)).
    + exists [p]. reflexivity.
    + destruct (IH (tr ++ [EvProbe p csrfToken (httpsRequest env tr p csrfToken)]))
        as [tried ->].
      exists (p :: tried). cbn [ProcessFinder.probeEvents].
      by rewrite <- app_assoc.
Qed.

Lemma processListCommands_probeEvents ports csrfToken : ∀ tr,
  processListCommands (probeEvents tr ports csrfToken) = []
  ∧ delays (probeEvents tr ports csrfToken) = [].
Proof.
  induction ports as [|p ports IH]; intros tr; [done|].
  cbn. apply IH.
Qed.

(** One attempt, step by step. *)
Lemma attemptOnce_unfold tr :
  attemptOnce tr
  = let cmd := getProcessListCommand processName in
    let r := execAsync env tr cmd in
    let tr1 := tr ++ [EvExec ProcessList cmd r] in
    match r with
    | ExecThrows _ => (None, tr1)
    | ExecOk stdout _ =>
        match parseProcessInfo stdout with
        | None => (None, tr1)
        | Some info =>
            let ports := (getListeningPorts (ParsedProcessInfo.pid info) tr1).1 in
            let tr2 := (getListeningPorts (ParsedProcessInfo.pid info) tr1).2 in
            if (0 <? Z.of_nat (length ports))%Z then
              let found := findWorkingPort ports (ParsedProcessInfo.csrfToken info) tr2 in
              match found.1 with
              | Some validPort =>
                  if (validPort =? 0)%Z then (None, found.2)
                  else (Some (ProcessInfo.mk (ParsedProcessInfo.extensionPort info)
                                validPort (ParsedProcessInfo.csrfToken info)),
                        found.2)
              | None => (None, found.2)
              end
            else (None, tr2)
        end
    end.
Proof.
  unfold ProcessFinder.attemptOnce, mbind, M_bind, mret, M_ret, exec. cbn zeta.
  destruct (execAsync env tr _) as [stdout stderr|msg]; [|reflexivity].
  destruct (parseProcessInfo stdout) as [info|]; [|reflexivity].
  destruct (getListeningPorts _ _) as [ports tr2]. cbn [fst snd].
  destruct (0 <? Z.of_nat (length ports))%Z; [|reflexivity].
  destruct (findWorkingPort _ _ _) as [[port|] tr3]; cbn [fst snd]; [|reflexivity].
  by destruct (port =? 0)%Z.
Qed.

Lemma getListeningPorts_events pid tr :
  ∃ cmd r, (getListeningPorts pid tr).2 = tr ++ [EvExec PortList cmd r].
Proof.
  unfold ProcessFinder.getListeningPorts, mbind, M_bind, mret, M_ret, exec.
  cbn zeta. destruct (execAsync env tr _); eauto.
Qed.

(** Every attempt issues the process-list command exactly once, first
    of all, and never waits. *)
Lemma attemptOnce_events tr :
  ∃ seg,
    (attemptOnce tr).2 = tr ++ seg
    ∧ processListCommands seg = [getProcessListCommand processName]
    ∧ delays seg = [].
Proof.
  rewrite attemptOnce_unfold. cbn zeta.
  set (cmd := getProcessListCommand processName).
  set (r := execAsync env tr cmd).
  destruct r as [stdout stderr|msg] eqn:Er; [|by eexists].
  destruct (parseProcessInfo stdout) as [info|]; [|by eexists].
  destruct (getListeningPorts_events (ParsedProcessInfo.pid info)
              (tr ++ [EvExec ProcessList cmd (ExecOk stdout stderr)]))
    as (pcmd & r2 & E2).
  rewrite E2.
  destruct (0 <? _)%Z.
  - destruct (findWorkingPort_events
                (getListeningPorts (ParsedProcessInfo.pid info)
                   (tr ++ [EvExec ProcessList cmd (ExecOk stdout stderr)])).1
                (ParsedProcessInfo.csrfToken info)
                ((tr ++ [EvExec ProcessList cmd (ExecOk stdout stderr)])
                 ++ [EvExec PortList pcmd r2])) as [tried Et].
    eexists (_ :: _ :: probeEvents _ tried _).
    split; [|split].
    + destruct (findWorkingPort _ _ _).1 as [port|];
        [destruct (port =? 0)%Z|]; cbn [snd]; rewrite Et;
        rewrite <- !app_assoc; reflexivity.
    + match goal with
      | |- context [probeEvents ?t tried ?tok] =>
          destruct (processListCommands_probeEvents tried tok t) as [Hc _]
      end.
      unfold processListCommands in Hc |- *. cbn in Hc |- *. by rewrite Hc.
    + match goal with
      | |- context [probeEvents ?t tried ?tok] =>
          destruct (processListCommands_probeEvents tried tok t) as [_ Hd]
      end.
      unfold delays in Hd |- *. cbn in Hd |- *. by rewrite Hd.
  - eexists [_; _]. cbn [snd]. rewrite <- app_assoc. done.
Qed.

Lemma attemptOnce_seg tr r seg :
  attemptOnce tr = (r, tr ++ seg) →
  processListCommands seg = [getProcessListCommand processName]
  ∧ delays seg = [].
Proof.
  intros E. destruct (attemptOnce_events tr) as (seg' & E' & Hc & Hd).
  rewrite E in E'. cbn [snd] in E'. apply app_inv_head in E'. by subst.
Qed.

Lemma Retries_counts tr k evs r :
  Retries tr k evs r →
  (1 <= k)%nat
  ∧ processListCommands evs = replicate k (getProcessListCommand processName)
  ∧ delays evs = replicate (k - 1) 500%Z.
Proof.
  induction 1 as [tr seg r E | tr seg k evs r E _ (Hk & Hc & Hd)].
  - apply attemptOnce_seg in E as [Hc Hd]. done.
  - apply attemptOnce_seg in E as [Hc' Hd'].
    split; [lia|]. unfold processListCommands, delays in *.
    rewrite !omap_app, Hc, Hd, Hc', Hd'. cbn.
    split; [done|].
    destruct k as [|k]; [lia|]. cbn. by rewrite Nat.sub_0_r.
Qed.

Lemma detectLoop_exit fuel attempt maxRetries tr :
  (maxRetries <= attempt)%Z →
  detectLoop fuel attempt maxRetries tr = (Done None, tr).
Proof.
  intros H. apply Z.ltb_ge in H. destruct fuel; cbn; by rewrite H.
Qed.

Lemma detectLoop_retries maxRetries fuel : ∀ attempt tr,
  (Z.to_nat (maxRetries - attempt) <= fuel)%nat →
  (attempt < maxRetries)%Z →
  ∃ k evs r,
    detectLoop fuel attempt maxRetries tr = (Done r, tr ++ evs)
    ∧ Retries tr k evs r
    ∧ (k <= Z.to_nat (maxRetries - attempt))%nat
    ∧ (r = None → k = Z.to_nat (maxRetries - attempt)).
Proof.
  induction fuel as [|fuel IH]; intros attempt tr Hfuel Hlt; [lia|].
  cbn [ProcessFinder.detectLoop].
  pose proof Hlt as Hb. apply Z.ltb_lt in Hb. rewrite Hb.
  unfold mbind, M_bind.
  destruct (attemptOnce_events tr) as (seg & Eseg & _).
  destruct (attemptOnce tr) as [[info|] tr1] eqn:E; cbn [snd] in Eseg; subst tr1.
  - exists 1%nat, seg, (Some info).
    split; [reflexivity|]. split; [by apply Retries_last|].
    split; [lia | discriminate].
  - destruct (attempt <? maxRetries - 1)%Z eqn:Enext.
    + apply Z.ltb_lt in Enext. unfold sleep.
      destruct (IH (attempt + 1)%Z ((tr ++ seg) ++ [EvSleep 500]))
        as (k & evs & r & Eloop & Hr & Hk & Hnone); [lia | lia |].
      exists (S k), (seg ++ [EvSleep 500] ++ evs), r.
      rewrite Eloop. split; [by rewrite <- !app_assoc|].
      split; [|split].
      * apply Retries_again; [exact E|]. by rewrite <- app_assoc in Hr.
      * replace (maxRetries - (attempt + 1))%Z with (maxRetries - attempt - 1)%Z in Hk by lia.
        lia.
      * intros Hn. specialize (Hnone Hn).
        replace (maxRetries - (attempt + 1))%Z with (maxRetries - attempt - 1)%Z
          in Hnone by lia.
        lia.
    + apply Z.ltb_ge in Enext. unfold mret, M_ret.
      rewrite detectLoop_exit by lia.
      exists 1%nat, seg, None.
      split; [reflexivity|]. split; [by apply Retries_last|].
      split; [lia|]. intros _. lia.
Qed.

(** C5.  [detectProcessInfo(maxRetries)] (the loop never runs out of
    fuel).  With [maxRetries ≤ 0] nothing happens and the result is
    null.  Otherwise k attempts take place, 1 ≤ k ≤ maxRetries: all but
    the last fail, consecutive attempts are separated by a wait of 500
    ms, and the result is that of the last attempt, after which nothing
    more happens; a null result takes exactly maxRetries attempts;
    the process-list command is issued exactly k times and the waits
    are k − 1 waits of 500 ms.  An attempt returns a value exactly when
    the command does not fail, its output parses, the port list is not
    empty and validation finds a (nonzero) port; the value is made of
    the parsed extension port and token and of the validated port. *)
Theorem detectProcessInfo_retries maxRetries tr :
  ((maxRetries <= 0)%Z → detectProcessInfo maxRetries tr = (Done None, tr))
  ∧ ((0 < maxRetries)%Z →
       ∃ k evs r,
         detectProcessInfo maxRetries tr = (Done r, tr ++ evs)
         ∧ Retries tr k evs r
         ∧ (1 <= k <= Z.to_nat maxRetries)%nat
         ∧ (r = None → k = Z.to_nat maxRetries)
         ∧ processListCommands evs
           = replicate k (getProcessListCommand processName)
         ∧ delays evs = replicate (k - 1) 500%Z)
  ∧ (∀ tr0 result,
        (attemptOnce tr0).1 = Some result ↔
        ∃ stdout stderr info validPort,
          let cmd := getProcessListCommand processName in
          let tr1 := tr0 ++ [EvExec ProcessList cmd (ExecOk stdout stderr)] in
          let ports := (getListeningPorts (ParsedProcessInfo.pid info) tr1).1 in
          let tr2 := (getListeningPorts (ParsedProcessInfo.pid info) tr1).2 in
          execAsync env tr0 cmd = ExecOk stdout stderr
          ∧ parseProcessInfo stdout = Some info
          ∧ ports ≠ []
          ∧ (findWorkingPort ports (ParsedProcessInfo.csrfToken info) tr2).1
            = Some validPort
          ∧ validPort ≠ 0%Z
          ∧ result = ProcessInfo.mk (ParsedProcessInfo.extensionPort info)
                       validPort (ParsedProcessInfo.csrfToken info)).
Proof.
  split; [|split].
  - intros H. by apply detectLoop_exit.
  - intros H.
    destruct (detectLoop_retries maxRetries (Z.to_nat maxRetries) 0%Z tr)
      as (k & evs & r & E & Hr & Hk & Hnone); [lia | lia |].
    rewrite Z.sub_0_r in Hk, Hnone.
    destruct (Retries_counts _ _ _ _ Hr) as (H1 & Hc & Hd).
    exists k, evs, r. done.
  - intros tr0 result. rewrite attemptOnce_unfold. cbn zeta.
    set (cmd := getProcessListCommand processName).
    destruct (execAsync env tr0 cmd) as [stdout stderr|msg] eqn:Ex.
    2:{ split; [done|]. by intros (? & ? & ? & ? & ? & _). }
    destruct (parseProcessInfo stdout) as [info|] eqn:Ep.
    2:{ split; [done|]. intros (? & ? & ? & ? & [= <- <-] & ? & _). congruence. }
    set (tr1 := tr0 ++ [EvExec ProcessList cmd (ExecOk stdout stderr)]).
    set (ports := (getListeningPorts (ParsedProcessInfo.pid info) tr1).1).
    set (tr2 := (getListeningPorts (ParsedProcessInfo.pid info) tr1).2).
    assert (Hlen : (0 <? Z.of_nat (length ports))%Z = true ↔ ports ≠ []).
    { rewrite Z.ltb_lt. destruct ports; cbn; split; (done || lia). }
    split.
    + destruct (0 <? Z.of_nat (length ports))%Z eqn:El; [|done].
      destruct (findWorkingPort ports _ tr2).1 as [validPort|] eqn:Ef; [|done].
      destruct (validPort =? 0)%Z eqn:Ez; [done|].
      intros [= <-]. apply Z.eqb_neq in Ez.
      exists stdout, stderr, info, validPort.
      fold tr1 ports tr2. rewrite Ef. split; [done|]. split; [done|].
      split; [by apply Hlen|]. done.
    + intros (stdout' & stderr' & info' & validPort & [= <- <-] & Ep' & Hne & Ef & Hz & ->).
      rewrite Ep in Ep'. injection Ep' as <-. fold tr1 ports tr2 in Hne, Ef.
      apply Hlen in Hne. rewrite Hne, Ef.
      apply Z.eqb_neq in Hz. by rewrite Hz.
Qed.

End Facts.

(** A run on Linux: the first attempt fails, the second one finds the
    process, probes 42100 in vain and stops at 42101; 42102 is not probed. *)
Example detectProcessInfo_flaky :
  let run := detectProcessInfo (strategy := PlatformStrategies.UnixStrategy PlatformStrategies.Unix.linux)
               Samples.processName Samples.flakyEnv Samples.isEmptyObject 3 [] in
  run.1 = Done (Some (ProcessInfo.mk 42100 42101 "0a1b2c3d-1111-2222-3333-444455556666"))
  ∧ length (processListCommands run.2) = 2%nat
  ∧ delays run.2 = [500%Z]
  ∧ probedPorts run.2 = [42100%Z; 42101%Z].
Proof. vm_compute. repeat split. Qed.

(** A run that never finds the process: three attempts, two waits, null. *)
Example detectProcessInfo_dead :
  let run := detectProcessInfo (strategy := PlatformStrategies.UnixStrategy PlatformStrategies.Unix.linux)
               Samples.processName Samples.deadEnv Samples.isEmptyObject 3 [] in
  run.1 = Done None
  ∧ length (processListCommands run.2) = 3%nat
  ∧ delays run.2 = [500%Z; 500%Z]
  ∧ probedPorts run.2 = [].
Proof. vm_compute. repeat split. Qed.

End ProcessFinderFacts.

(** ** Quota source *)

Module QuotaManagerFacts.
Import QuotaManager.

Section Facts.
Variable World : Type.
Variable JSON_parse : string → option ServerUserStatusResponse.
Variable Date_parse : string → Date.
Variable toLocaleDateString : Date → string.
Variable toLocaleTimeString : Date → string.

#[local] Abbreviation formatTime := (formatTime toLocaleDateString toLocaleTimeString).
#[local] Abbreviation parseModel :=
  (parseModel Date_parse toLocaleDateString toLocaleTimeString).
#[local] Abbreviation parseResponse :=
  (parseResponse Date_parse toLocaleDateString toLocaleTimeString).
#[local] Abbreviation fetchQuota :=
  (fetchQuota World JSON_parse Date_parse toLocaleDateString toLocaleTimeString).

Lemma formatTime_ready ms resetTime :
  (ms <= 0)%Z → formatTime (Some ms) resetTime = "Ready".
Proof.
  intros H. unfold QuotaManager.formatTime. apply Z.leb_le in H. by rewrite H.
Qed.

Lemma parsePromptCredits_spec us pc :
  parsePromptCredits us = Some pc ↔
  ∃ ps info monthly available,
    planStatus us = Some ps
    ∧ PlanStatus.planInfo ps = Some info
    ∧ PlanStatus.monthlyPromptCredits info = Num monthly
    ∧ (PlanStatus.availablePromptCredits ps = Num available
       ∨ (PlanStatus.availablePromptCredits ps = Null ∧ available = 0%Q))
    ∧ (0 < monthly)%Q
    ∧ pc = PromptCreditsInfo.mk available monthly
             (Float64.mul (Float64.div (Float64.sub monthly available) monthly) 100)
             (Float64.mul (Float64.div available monthly) 100).
Proof.
  unfold parsePromptCredits. split.
  - destruct (planStatus us) as [ps|]; [|done].
    destruct (PlanStatus.planInfo ps) as [info|] eqn:Ei; [|done].
    destruct (PlanStatus.availablePromptCredits ps) as [| |available] eqn:Ea;
      [done| |];
      (destruct (PlanStatus.monthlyPromptCredits info) as [| |monthly] eqn:Em;
       cbn [Number]; [done|done|]);
      (destruct (Qgtb monthly 0) eqn:E; [|done]); apply Qgtb_gt in E;
      intros [= <-].
    + exists ps, info, monthly, 0%Q. split_and!; auto.
    + exists ps, info, monthly, available. split_and!; auto.
  - intros (ps & info & monthly & available & -> & -> & Em & Ha & Hpos & ->).
    apply Qgtb_gt in Hpos.
    destruct Ha as [-> | [-> ->]]; rewrite Em; cbn [Number]; by rewrite Hpos.
Qed.

Lemma parseModel_spec now label alias q :
  let model := parseModel now label alias q in
  ModelQuotaInfo.label model = label
  ∧ (ModelQuotaInfo.modelId model = "unknown" ∧ (alias = None ∨ alias = Some "")
     ∨ alias = Some (ModelQuotaInfo.modelId model))
  ∧ ModelQuotaInfo.remainingFraction model = ServerModelConfig.remainingFraction q
  ∧ (∀ f, ServerModelConfig.remainingFraction q = Num f →
          ModelQuotaInfo.remainingPercentage model = Some (Float64.mul f 100))
  ∧ (ServerModelConfig.remainingFraction q = Null →
       ModelQuotaInfo.remainingPercentage model = Some 0%Q)
  ∧ (ServerModelConfig.remainingFraction q = Undefined →
       ModelQuotaInfo.remainingPercentage model = None)
  ∧ (ModelQuotaInfo.isExhausted model = true ↔
     ∃ f, ServerModelConfig.remainingFraction q = Num f ∧ (f == 0)%Q)
  ∧ ModelQuotaInfo.resetTime model = Date_parse (ServerModelConfig.resetTime q)
  ∧ (∀ t, getTime (Date_parse (ServerModelConfig.resetTime q)) = Some t →
          ModelQuotaInfo.timeUntilReset model = Some (t - now)%Z)
  ∧ (getTime (Date_parse (ServerModelConfig.resetTime q)) = None →
       ModelQuotaInfo.timeUntilReset model = None)
  ∧ ModelQuotaInfo.timeUntilResetFormatted model
    = formatTime (ModelQuotaInfo.timeUntilReset model) (ModelQuotaInfo.resetTime model).
Proof.
  cbn zeta. unfold QuotaManager.parseModel.
  cbn [ModelQuotaInfo.label ModelQuotaInfo.modelId ModelQuotaInfo.remainingFraction
       ModelQuotaInfo.remainingPercentage
       ModelQuotaInfo.isExhausted ModelQuotaInfo.resetTime
       ModelQuotaInfo.timeUntilReset ModelQuotaInfo.timeUntilResetFormatted].
  split; [done|]. split.
  { destruct alias as [model|]; [|left; auto].
    case_bool_decide as E; [subst; left; auto | by right]. }
  split; [done|]. split; [by intros f ->|]. split; [by intros ->|].
  split; [by intros ->|].
  split; [|split; [done|split; [by intros t ->|split; [by intros ->|done]]]].
  destruct (ServerModelConfig.remainingFraction q) as [| |f].
  - split; [done | by intros (f' & ? & _)].
  - split; [done | by intros (f' & ? & _)].
  - rewrite Qeq_bool_iff. split; [eauto | by intros (f' & [= <-] & H)].
Qed.

(** [withQuotaInfo] keeps the raw models that carry a [quotaInfo], in
    order. *)
Lemma withQuotaInfo_filter rawModels :
  Forall2 (fun k m =>
             ServerModelConfig.quotaInfo m = Some k.2
             ∧ k.1.1 = ServerModelConfig.label m
             ∧ k.1.2 = ServerModelConfig.modelOrAlias m)
    (withQuotaInfo rawModels)
    (filter (fun m => is_Some (ServerModelConfig.quotaInfo m)) rawModels).
Proof.
  unfold withQuotaInfo. induction rawModels as [|m l IH]; [constructor|].
  cbn [omap list_omap]. rewrite filter_cons.
  destruct (ServerModelConfig.quotaInfo m) as [q|] eqn:E; cbn [fmap option_fmap option_map].
  - rewrite decide_True by (by eexists). constructor; [|exact IH].
    cbn [fst snd]. by rewrite E.
  - rewrite decide_False by (by intros [? ?]). exact IH.
Qed.

(** C8.  Normalisation by [parseResponse]; "×", "/" and "−" on
    percentages are those of the program (binary64).  A response
    without [userStatus] makes [parseResponse] throw.  Otherwise the
    models of the snapshot are, in order, the raw models that carry a
    [quotaInfo]; for each of them the label is kept, the id is the
    model's name or "unknown", the percentage is the fraction times 100
    when the fraction is a number, 0 when it is null and absent when it
    is absent, [isExhausted] holds exactly when the fraction is the
    number 0, [timeUntilReset] is the reset time minus the clock read for
    that model (NaN for an invalid date), and it is formatted by
    [formatTime], which answers "Ready" for every non-positive value.
    Prompt credits come out exactly when the plan information is
    present, the available credits are a number or null (read as 0) and
    the monthly allotment is a positive number, and then
    [remainingPercentage = available / monthly × 100] and
    [usedPercentage = (monthly − available) / monthly × 100].  The
    product of the program is the exact one whenever that is a binary64
    number, and within 2^-47 of it below 128; for the binary64 number
    0.07 it is 7.000000000000001. *)
Theorem parseResponse_normalisation clock data :
  (userStatus data = None → ∃ err, parseResponse clock data = inl err)
  ∧ (∀ us, userStatus data = Some us →
      ∃ snapshot,
        parseResponse clock data = inr snapshot
        ∧ let kept := filter (fun m => is_Some (ServerModelConfig.quotaInfo m))
                        (default [] (cascadeModelConfigData us)) in
          length (models snapshot) = length kept
          ∧ timestamp snapshot = DateMs (clock (length kept))
          ∧ (∀ i m,
               kept !! i = Some m →
               ∃ q model,
                 ServerModelConfig.quotaInfo m = Some q
                 ∧ models snapshot !! i = Some model
                 ∧ ModelQuotaInfo.label model = ServerModelConfig.label m
                 ∧ (ModelQuotaInfo.modelId model = "unknown"
                    ∧ (ServerModelConfig.modelOrAlias m = None
                       ∨ ServerModelConfig.modelOrAlias m = Some "")
                    ∨ ServerModelConfig.modelOrAlias m
                      = Some (ModelQuotaInfo.modelId model))
                 ∧ ModelQuotaInfo.remainingFraction model
                   = ServerModelConfig.remainingFraction q
                 ∧ (∀ f, ServerModelConfig.remainingFraction q = Num f →
                         ModelQuotaInfo.remainingPercentage model
                         = Some (Float64.mul f 100))
                 ∧ (ServerModelConfig.remainingFraction q = Null →
                      ModelQuotaInfo.remainingPercentage model = Some 0%Q)
                 ∧ (ServerModelConfig.remainingFraction q = Undefined →
                      ModelQuotaInfo.remainingPercentage model = None)
                 ∧ (ModelQuotaInfo.isExhausted model = true ↔
                    ∃ f, ServerModelConfig.remainingFraction q = Num f ∧ (f == 0)%Q)
                 ∧ ModelQuotaInfo.resetTime model
                   = Date_parse (ServerModelConfig.resetTime q)
                 ∧ (∀ t, getTime (Date_parse (ServerModelConfig.resetTime q)) = Some t →
                         ModelQuotaInfo.timeUntilReset model = Some (t - clock i)%Z)
                 ∧ (getTime (Date_parse (ServerModelConfig.resetTime q)) = None →
                      ModelQuotaInfo.timeUntilReset model = None)
                 ∧ ModelQuotaInfo.timeUntilResetFormatted model
                   = formatTime (ModelQuotaInfo.timeUntilReset model)
                                (ModelQuotaInfo.resetTime model))
          ∧ (∀ pc,
               promptCredits snapshot = Some pc ↔
               ∃ ps info monthly available,
                 planStatus us = Some ps
                 ∧ PlanStatus.planInfo ps = Some info
                 ∧ PlanStatus.monthlyPromptCredits info = Num monthly
                 ∧ (PlanStatus.availablePromptCredits ps = Num available
                    ∨ (PlanStatus.availablePromptCredits ps = Null
                       ∧ available = 0%Q))
                 ∧ (0 < monthly)%Q
                 ∧ pc = PromptCreditsInfo.mk available monthly
                          (Float64.mul
                             (Float64.div (Float64.sub monthly available) monthly)
                             100)
                          (Float64.mul (Float64.div available monthly) 100)))
  ∧ (∀ ms resetTime, (ms <= 0)%Z → formatTime (Some ms) resetTime = "Ready")
  ∧ (∀ f : Q,
        (Float64.representable (f * 100) → (Float64.mul f 100 == f * 100)%Q)
        ∧ ((-128 < f * 100)%Q → (f * 100 < 128)%Q →
             (f * 100 - Float64.pow2 (-47) <= Float64.mul f 100)%Q
             ∧ (Float64.mul f 100 <= f * 100 + Float64.pow2 (-47))%Q))
  ∧ (Float64.mul (Float64.round (7 # 100)) 100 == 7 + Float64.pow2 (-50))%Q.
Proof.
  split; [|split; [|split; [|split]]]; [| | | |by vm_compute].
  - intros E. exists typeError. unfold QuotaManager.parseResponse. by rewrite E.
  - intros us E. unfold QuotaManager.parseResponse. rewrite E.
    eexists. split; [reflexivity|]. cbn zeta. cbn [models promptCredits timestamp].
    pose proof (withQuotaInfo_filter (default [] (cascadeModelConfigData us))) as HF.
    pose proof (Forall2_length _ _ _ HF) as HL.
    split; [by rewrite length_imap|]. split; [by rewrite HL|]. split.
    + intros i m Hi.
      destruct (Forall2_lookup_r _ _ _ _ _ HF Hi) as ([[label alias] q] & Hk & Hq & Hlabel & Halias).
      cbn [fst snd] in Hq, Hlabel, Halias. subst label alias.
      exists q, (parseModel (clock i) (ServerModelConfig.label m)
                   (ServerModelConfig.modelOrAlias m) q).
      split; [done|]. split.
      * rewrite list_lookup_imap, Hk. reflexivity.
      * apply parseModel_spec.
    + apply parsePromptCredits_spec.
  - apply formatTime_ready.
  - intros f. unfold Float64.mul. split; [done|].
    intros H1 H2. by apply Float64Facts.round_error_128.
Qed.

(** The fraction 0.07 as a binary64 number: the product of the program
    is 7.000000000000001, above the exact one. *)
Example parseModel_rounds :
  let f := Float64.round (7 # 100) in
  (f * 100 < Float64.mul f 100)%Q
  ∧ (Float64.mul f 100 == 7 + Float64.pow2 (-50))%Q.
Proof. split; reflexivity. Qed.

(** C9.  When the exchange fails for a transport reason (network error,
    timeout, or a body that is not JSON), [fetchQuota] returns null, the
    manager (its last snapshot in particular) is left as it was, and the
    error goes to the error callback, if one is registered. *)
Theorem fetchQuota_transport_failure tr err clock (m : QuotaManager.t World) w :
  transportFailure JSON_parse tr err →
  fetchQuota tr clock m w
  = (None, m, match errorCallback m with
              | Some callback => callback err w
              | None => w
              end)
  ∧ lastSnapshot (fetchQuota tr clock m w).1.2 = lastSnapshot m.
Proof.
  intros H.
  assert (E : request JSON_parse tr = inl err).
  { destruct tr as [message| |body]; cbn in H |- *.
    - by subst.
    - by subst.
    - destruct H as [-> ->]. reflexivity. }
  unfold QuotaManager.fetchQuota. rewrite E. done.
Qed.

End Facts.

(** The theorem on a body that is not JSON: the error callback, which
    logs the message, is the only thing that happens. *)
Lemma fetchQuota_transport_failure_witness :
  let m := onError (list string) (fun err log => log ++ [err])
             (set_lastSnapshot (list string) (QuotaGuard.snapshotOf []) (new (list string))) in
  let fetch := fetchQuota (list string) (fun _ => None) (fun _ => InvalidDate)
                 (fun _ => "") (fun _ => "") in
  fetch (Responded "<html>") (fun _ => 0%Z) m []
  = (None, m, ["Invalid JSON response"])
  ∧ lastSnapshot (fetch (Responded "<html>") (fun _ => 0%Z) m []).1.2
    = Some (QuotaGuard.snapshotOf []).
Proof.
  apply (fetchQuota_transport_failure (list string) (fun _ => None) (fun _ => InvalidDate)
           (fun _ => "") (fun _ => "") (Responded "<html>") "Invalid JSON response").
  cbn. done.
Defined.

End QuotaManagerFacts.

(** ** Platform strategies *)

Module PlatformStrategiesFacts.
Import PlatformStrategies.

(** *** The matcher *)

Section Matcher.
Variable ignoreCase : bool.

#[local] Abbreviation matchHere := (matchHere ignoreCase).
#[local] Abbreviation search := (search ignoreCase).
#[local] Abbreviation fixedPattern := (fixedPattern ignoreCase).
#[local] Abbreviation classMatches := (classMatches ignoreCase).

Lemma prefixMatches_app p1 p2 s :
  prefixMatches (p1 ++ p2) s
  = prefixMatches p1 s && prefixMatches p2 (drop (length p1) s).
Proof.
  revert s. induction p1 as [|f p1 IH]; intros s; [reflexivity|].
  destruct s as [|c s]; [reflexivity|]. cbn. rewrite IH. by rewrite andb_assoc.
Qed.

Lemma prefixMatches_length pat s :
  prefixMatches pat s = true → (length pat <= length s)%nat.
Proof.
  revert s. induction pat as [|f pat IH]; intros s; cbn; [lia|].
  destruct s as [|c s]; [done|]. intros [_ H]%andb_true_iff. apply IH in H.
  cbn. lia.
Qed.

Lemma matchHere_times n p k caps : ∀ s,
  matchHere (TimesCls n p) k s caps
  = if prefixMatches (replicate n (classMatches p)) s
    then k (drop n s) caps else None.
Proof.
  induction n as [|n IH]; intros s; [reflexivity|].
  destruct s as [|c s]; [reflexivity|].
  cbn in IH |- *. destruct (PlatformStrategies.classMatches _ p c); [|reflexivity].
  apply IH.
Qed.

(** A regular expression of fixed width matches exactly when the pattern
    does, and consumes that many characters. *)
Lemma matchHere_fixed r : ∀ pat k s caps,
  fixedPattern r = Some pat →
  matchHere r k s caps
  = if prefixMatches pat s then k (drop (length pat) s) caps else None.
Proof.
  induction r as [c|p|c|p|p|n p|r IH|r1 IH1 r2 IH2|]; intros pat k s caps Hp;
    cbn in Hp; try discriminate.
  - injection Hp as <-. destruct s as [|x s]; [reflexivity|]. cbn.
    by destruct (sameChar _ c x).
  - injection Hp as <-. destruct s as [|x s]; [reflexivity|]. cbn.
    by destruct (PlatformStrategies.classMatches _ p x).
  - injection Hp as <-. rewrite matchHere_times. by rewrite length_replicate.
  - destruct (fixedPattern r1) as [p1|]; [|discriminate].
    destruct (fixedPattern r2) as [p2|]; [|discriminate].
    injection Hp as <-. cbn [PlatformStrategies.matchHere].
    rewrite (IH1 p1) by done. rewrite prefixMatches_app.
    destruct (prefixMatches p1 s); [|reflexivity]. cbn [andb].
    rewrite (IH2 p2) by done. rewrite length_app, drop_drop. reflexivity.
  - injection Hp as <-. reflexivity.
Qed.

Lemma matchHere_group_fixed r pat s :
  fixedPattern r = Some pat →
  matchHere (Group r) (fun _ caps => Some caps) s []
  = if prefixMatches pat s then Some [take (length pat) s] else None.
Proof.
  intros Hp. cbn [PlatformStrategies.matchHere].
  rewrite (matchHere_fixed r pat) by done.
  destruct (prefixMatches pat s) eqn:E; [|reflexivity].
  apply prefixMatches_length in E. rewrite length_drop. cbn.
  do 3 f_equal. lia.
Qed.

(** The leftmost match of a fixed-width group: the first position where
    the pattern matches. *)
Lemma search_group_fixed r pat : ∀ s m,
  fixedPattern r = Some pat →
  search (Group r) s = Some m ↔
  ∃ i, (i <= length s)%nat
       ∧ prefixMatches pat (drop i s) = true
       ∧ (∀ j, (j < i)%nat → prefixMatches pat (drop j s) = false)
       ∧ m = [take (length pat) (drop i s)].
Proof.
  intros s m Hp. induction s as [|c s IH].
  - cbn [PlatformStrategies.search]. rewrite (matchHere_group_fixed r pat) by done.
    destruct (prefixMatches pat []) eqn:E.
    + split.
      * intros [= <-]. exists 0%nat. cbn. split; [lia|]. split; [done|].
        split; [lia | done].
      * intros (i & Hi & _ & _ & ->). cbn in Hi.
        replace i with 0%nat by lia. reflexivity.
    + split; [done|]. intros (i & Hi & Hm & _). cbn in Hi.
      replace i with 0%nat in Hm by lia. cbn in Hm. congruence.
  - cbn [PlatformStrategies.search]. rewrite (matchHere_group_fixed r pat) by done.
    destruct (prefixMatches pat (c :: s)) eqn:E.
    + split.
      * intros [= <-]. exists 0%nat. cbn [drop length]. split; [lia|].
        split; [done|]. split; [lia | done].
      * intros (i & Hi & Hm & Hfirst & ->).
        destruct i as [|i]; [reflexivity|].
        specialize (Hfirst 0%nat ltac:(lia)). cbn [drop] in Hfirst. congruence.
    + rewrite IH. split.
      * intros (i & Hi & Hm & Hfirst & ->). exists (S i). cbn [drop length].
        split; [lia|]. split; [done|]. split; [|done].
        intros [|j] Hj; [exact E|]. cbn [drop]. apply Hfirst. lia.
      * intros (i & Hi & Hm & Hfirst & ->).
        destruct i as [|i]; [cbn [drop] in Hm; congruence|].
        exists i. cbn [drop length] in *. split; [lia|]. split; [done|].
        split; [|done]. intros j Hj. apply (Hfirst (S j)). lia.
Qed.

Lemma matchHere_plus_progress p k caps : ∀ s res,
  matchHere (PlusCls p) k s caps = Some res →
  ∃ s', k s' caps = Some res ∧ (length s' < length s)%nat.
Proof.
  cbn [PlatformStrategies.matchHere].
  induction s as [|x s IHs]; intros res; [done|].
  destruct (PlatformStrategies.classMatches _ p x); [|done].
  match goal with |- context [match ?f s with _ => _ end] => destruct (f s) eqn:E end.
  - intros [= <-]. destruct (IHs _ eq_refl) as (s' & ? & ?). exists s'. cbn. split; [done | lia].
  - intros H. exists s. cbn. split; [done | lia].
Qed.

Lemma matchHere_star_continues p k caps : ∀ s res,
  matchHere (StarCls p) k s caps = Some res →
  ∃ s', k s' caps = Some res ∧ (length s' <= length s)%nat.
Proof.
  cbn [PlatformStrategies.matchHere].
  induction s as [|x s IHs]; intros res.
  - intros H. exists []. done.
  - destruct (PlatformStrategies.classMatches _ p x).
    + match goal with |- context [match ?f s with _ => _ end] => destruct (f s) eqn:E end.
      * intros [= <-]. destruct (IHs _ eq_refl) as (s' & ? & ?). exists s'. cbn.
        split; [done | lia].
      * intros H. exists (x :: s). done.
    + intros H. exists (x :: s). done.
Qed.

(** Whatever [matchHere] answers comes from its continuation, called on
    a suffix of the input; without groups the captures are passed on
    unchanged. *)
Lemma matchHere_continues r : ∀ k s caps res,
  matchHere r k s caps = Some res →
  ∃ s' caps',
    k s' caps' = Some res
    ∧ (length s' <= length s)%nat
    ∧ (groups r = 0%nat → caps' = caps).
Proof.
  induction r as [c|p|c|p|p|n p|r IH|r1 IH1 r2 IH2|]; intros k s caps res H.
  - cbn [PlatformStrategies.matchHere] in H.
    destruct s as [|x s]; [done|]. destruct (sameChar _ c x); [|done].
    exists s, caps. cbn. split; [done|]. split; [lia | done].
  - cbn [PlatformStrategies.matchHere] in H.
    destruct s as [|x s]; [done|].
    destruct (PlatformStrategies.classMatches _ p x); [|done].
    exists s, caps. cbn. split; [done|]. split; [lia | done].
  - cbn [PlatformStrategies.matchHere] in H.
    destruct s as [|x s].
    + exists [], caps. done.
    + destruct (sameChar _ c x).
      * destruct (k s caps) eqn:E.
        -- exists s, caps. cbn. split; [congruence|]. split; [lia | done].
        -- exists (x :: s), caps. done.
      * exists (x :: s), caps. done.
  - apply matchHere_plus_progress in H as (s' & H & Hlt).
    exists s', caps. split; [done|]. split; [lia | done].
  - apply matchHere_star_continues in H as (s' & H & Hle).
    exists s', caps. done.
  - rewrite matchHere_times in H.
    destruct (prefixMatches _ s); [|done].
    exists (drop n s), caps. rewrite length_drop. split; [done|]. split; [lia | done].
  - cbn [PlatformStrategies.matchHere] in H.
    apply IH in H as (s' & caps' & H & Hlen & _).
    eexists s', _. split; [exact H|]. split; [done|]. cbn. lia.
  - cbn [PlatformStrategies.matchHere] in H.
    apply IH1 in H as (s1 & caps1 & H & Hlen1 & Hc1).
    apply IH2 in H as (s2 & caps2 & H & Hlen2 & Hc2).
    exists s2, caps2. split; [done|]. split; [lia|].
    cbn. intros Hg. rewrite Hc2, Hc1 by lia. done.
  - exists s, caps. done.
Qed.

Lemma matchHere_cat r1 r2 k s caps :
  matchHere (Cat r1 r2) k s caps = matchHere r1 (matchHere r2 k) s caps.
Proof. reflexivity. Qed.

Lemma endsWithGroup_cat r1 r2 :
  endsWithGroup (Cat r1 r2) = true →
  (∃ p, r1 = Group (PlusCls p) ∧ r2 = Eps)
  ∨ (groups r1 = 0%nat ∧ endsWithGroup r2 = true).
Proof.
  destruct r1 as [c|p|c|p|p|n p|g|a b|];
    try (cbn; intros H; right; by split).
  - destruct g as [| | |p| | | | |]; try by cbn.
    destruct r2; try by cbn.
    intros _. left. by exists p.
  - cbn. rewrite andb_true_iff, Nat.eqb_eq. intros [? ?]. by right.
Qed.

(** A match of a regular expression that ends with its only group
    [(p+)] has exactly one capture, and it is not empty. *)
Lemma matchHere_endsWithGroup r : ∀ s res,
  endsWithGroup r = true →
  matchHere r (fun _ caps => Some caps) s [] = Some res →
  ∃ t, res = [t] ∧ t ≠ [].
Proof.
  induction r as [c|p|c|p|p|n p|r IH|r1 IH1 r2 IH2|]; intros s res Hr H;
    try discriminate.
  apply endsWithGroup_cat in Hr as [(p & -> & ->)|[Hg Hr]].
  - cbn [PlatformStrategies.matchHere] in H.
    change (matchHere (PlusCls p)
              (fun s' caps' => Some (caps' ++ [take (length s - length s') s])) s []
            = Some res) in H.
    apply matchHere_plus_progress in H as (s' & [= <-] & Hlt).
    eexists. split; [reflexivity|].
    destruct s as [|x s]; [cbn in Hlt; lia|].
    destruct (length (x :: s) - length s')%nat as [|n] eqn:E; [cbn in *; lia|].
    done.
  - rewrite matchHere_cat in H.
    apply matchHere_continues in H as (s1 & caps1 & H & _ & Hc).
    rewrite (Hc Hg) in H. by apply IH2 in H.
Qed.

Lemma search_matchHere r : ∀ s res,
  search r s = Some res →
  ∃ s', matchHere r (fun _ caps => Some caps) s' [] = Some res.
Proof.
  induction s as [|x s IH]; intros res; cbn [PlatformStrategies.search].
  - destruct (matchHere r _ [] []) eqn:E; [|done]. intros [= <-]. eauto.
  - destruct (matchHere r _ (x :: s) []) eqn:E.
    + intros [= <-]. eauto.
    + apply IH.
Qed.

Lemma search_endsWithGroup r s res :
  endsWithGroup r = true → search r s = Some res → group 1 res ≠ [].
Proof.
  intros Hr (s' & H)%search_matchHere.
  apply matchHere_endsWithGroup in H as (t & -> & Ht); done.
Qed.

End Matcher.

(** *** The shape of a UUID *)

Lemma prefixMatches_ext p1 p2 :
  Forall2 (fun f g : ascii → bool => ∀ c, f c = g c) p1 p2 →
  ∀ s, prefixMatches p1 s = prefixMatches p2 s.
Proof.
  induction 1 as [|f g p1 p2 Hfg _ IH]; intros s; [reflexivity|].
  destruct s as [|c s]; [reflexivity|]. cbn. by rewrite Hfg, IH.
Qed.

Lemma prefixMatches_take pat s :
  prefixMatches pat (take (length pat) s) = prefixMatches pat s.
Proof.
  revert s. induction pat as [|f pat IH]; intros s; [reflexivity|].
  destruct s as [|c s]; [reflexivity|]. cbn. by rewrite IH.
Qed.

Lemma prefixMatches_app_r pat t post :
  prefixMatches pat t = true → prefixMatches pat (t ++ post) = true.
Proof.
  revert t. induction pat as [|f pat IH]; intros t; [reflexivity|].
  destruct t as [|c t]; [done|]. cbn. rewrite !andb_true_iff. intros [? ?].
  split; [done | by apply IH].
Qed.

Lemma hex_isHexDigit c : classMatches true hex c = isHexDigit c.
Proof. destruct c as [[] [] [] [] [] [] [] []]; reflexivity. Qed.

Lemma dash_isDash c : sameChar true "-" c = isDash c.
Proof. destruct c as [[] [] [] [] [] [] [] []]; reflexivity. Qed.

Lemma uuidBody_fixed :
  ∃ pat, fixedPattern true uuidBody = Some pat
         ∧ length pat = 36%nat
         ∧ ∀ s, prefixMatches pat s = prefixMatches uuidPattern s.
Proof.
  eexists. split; [reflexivity|]. split; [reflexivity|].
  apply prefixMatches_ext. unfold uuidPattern. cbn [replicate app].
  repeat (constructor; [first [exact hex_isHexDigit | exact dash_isDash]|]).
  constructor.
Qed.

(** [reUuid] finds the first UUID-shaped substring. *)
Lemma search_reUuid s m :
  search true reUuid s = Some m ↔
  ∃ pre t, firstSubstring uuidShaped s pre t ∧ m = [t].
Proof.
  destruct uuidBody_fixed as (pat & Hpat & Hlen & Hext).
  unfold reUuid.
  rewrite (search_group_fixed true uuidBody pat s m Hpat). rewrite Hlen.
  setoid_rewrite Hext. split.
  - intros (i & Hi & Hm & Hfirst & ->).
    pose proof (prefixMatches_length _ _ Hm) as Hl.
    change (length uuidPattern) with 36%nat in Hl. rewrite length_drop in Hl.
    exists (take i s), (take 36 (drop i s)). split; [|done].
    split; [|split].
    + exists (drop 36 (drop i s)). by rewrite !take_drop.
    + split.
      * rewrite length_take, length_drop. lia.
      * rewrite <- Hm. apply (prefixMatches_take uuidPattern).
    + intros pre' t' post' Hs [Hlt' Ht']. rewrite length_take.
      destruct (decide (length pre' < i)%nat) as [Hlt|]; [|lia].
      specialize (Hfirst _ Hlt). rewrite Hs, drop_app_length in Hfirst.
      rewrite prefixMatches_app_r in Hfirst by done. done.
  - intros (pre & t & ((post & Hs) & [Hlt Ht] & Hfirst) & ->).
    exists (length pre). split; [rewrite Hs, length_app; lia|]. split; [|split].
    + rewrite Hs, drop_app_length. by apply prefixMatches_app_r.
    + intros j Hj. destruct (prefixMatches uuidPattern (drop j s)) eqn:E; [|done].
      pose proof (prefixMatches_length _ _ E) as Hl.
      change (length uuidPattern) with 36%nat in Hl. rewrite length_drop in Hl.
      assert (Hocc : s = take j s ++ take 36 (drop j s) ++ drop 36 (drop j s)).
      { by rewrite !take_drop. }
      specialize (Hfirst _ _ _ Hocc). rewrite length_take in Hfirst.
      assert (length pre <= j `min` length s)%nat; [|lia].
      apply Hfirst. split.
      * rewrite length_take, length_drop. lia.
      * rewrite <- E. apply (prefixMatches_take uuidPattern).
    + rewrite Hs, drop_app_length. f_equal.
      rewrite take_app_length'; [done | by symmetry].
Qed.

Lemma search_reUuid_nonempty s m :
  search true reUuid s = Some m → group 1 m ≠ [].
Proof.
  intros (pre & t & (_ & [Hlen _] & _) & ->)%search_reUuid.
  cbn. intros ->. done.
Qed.

(** The token matched by any of the three expressions is not empty. *)
Lemma token_nonempty re s m :
  re ∈ [reCsrfToken; reApiServerUrl; reUuid] →
  search true re s = Some m → group 1 m ≠ [].
Proof.
  rewrite !elem_of_cons. intros [->|[->|[->|H]]].
  - by apply search_endsWithGroup.
  - by apply search_endsWithGroup.
  - apply search_reUuid_nonempty.
  - by apply elem_of_nil in H.
Qed.

(** *** Token extraction *)

Lemma extractFromCommandLine_order cmd pid :
  Windows.extractFromCommandLine cmd pid
  = pm ← portMatch cmd;
    m ← firstOf [search true reCsrfToken cmd; search true reApiServerUrl cmd;
                 search true reUuid cmd];
    Some (ParsedProcessInfo.mk (Some pid) (portOf pm) (text (group 1 m))).
Proof.
  unfold Windows.extractFromCommandLine. destruct (portMatch cmd) as [pm|]; [|done].
  cbn [mbind option_bind firstOf orElse].
  destruct (search true reCsrfToken cmd) as [m|] eqn:E1.
  { cbn. rewrite bool_decide_eq_false_2; [done|].
    eapply token_nonempty; [|exact E1]. set_solver. }
  destruct (search true reApiServerUrl cmd) as [m|] eqn:E2.
  { cbn. rewrite bool_decide_eq_false_2; [done|].
    eapply token_nonempty; [|exact E2]. set_solver. }
  destruct (search true reUuid cmd) as [m|] eqn:E3; [|done].
  cbn. rewrite bool_decide_eq_false_2; [done|].
  eapply token_nonempty; [|exact E3]. set_solver.
Qed.

Lemma parseProcessLine_order line :
  let parts := splitSpaces (trim line) [] false in
  let commandLine := joinSpace (drop 10 parts) in
  Unix.parseProcessLine line
  = if (length parts <? 11)%nat then None
    else
      pm ← portMatch commandLine;
      m ← firstOf [search true reCsrfToken commandLine; search true reUuid commandLine];
      Some (ParsedProcessInfo.mk (parseInt (default [] (parts !! 1%nat)))
              (portOf pm) (text (group 1 m))).
Proof.
  cbn zeta. unfold Unix.parseProcessLine.
  destruct (length _ <? 11)%nat; [done|].
  destruct (portMatch _) as [pm|]; [|done].
  cbn [mbind option_bind firstOf orElse].
  destruct (search true reCsrfToken _) as [m|] eqn:E1.
  { cbn. rewrite bool_decide_eq_false_2; [done|].
    eapply token_nonempty; [|exact E1]. set_solver. }
  destruct (search true reUuid _) as [m|] eqn:E3; [|done].
  cbn. rewrite bool_decide_eq_false_2; [done|].
  eapply token_nonempty; [|exact E3]. set_solver.
Qed.

Lemma Windows_parseProcessInfo_some stdout info :
  Windows.parseProcessInfo stdout = Some info →
  ∃ cmd pid, Windows.extractFromCommandLine cmd pid = Some info.
Proof.
  unfold Windows.parseProcessInfo.
  destruct (fold_left _ _ _) as [commandLine pid].
  destruct commandLine as [|c cmd]; [done|]. destruct pid as [pid|]; [|done].
  destruct (pid =? 0)%Z; [done|]. eauto.
Qed.

Lemma Unix_parseProcessInfo_some stdout info :
  Unix.parseProcessInfo stdout = Some info →
  ∃ line, line ∈ nonBlankLines (chars stdout) ∧ Unix.parseProcessLine line = Some info.
Proof.
  unfold Unix.parseProcessInfo.
  induction (nonBlankLines (chars stdout)) as [|line lines IH]; [done|].
  destruct (Unix.parseProcessLine line) as [r|] eqn:E.
  - intros [= <-]. exists line. split; [apply list_elem_of_here | done].
  - intros (l & Hin & Hl)%IH. exists l. split; [by apply list_elem_of_further | done].
Qed.


End PlatformStrategiesFacts.

(** ** The quota guard, continued *)

Module QuotaGuardMore.
Import QuotaGuard GuardNotions QuotaGuardFacts.

(** *** State analysis *)

Lemma updateSnapshot_lastSnapshot now snapshot g :
  lastSnapshot (updateSnapshot now snapshot g) = Some snapshot.
Proof. reflexivity. Qed.

Lemma getModelsRequiringAttention_filter now g snapshot :
  lastSnapshot g = Some snapshot →
  getModelsRequiringAttention now g
  = List.filter (fun model => Qleb (pctOf model) (warningThreshold (config g)))
      (analyzed now snapshot).
Proof.
  intros E. unfold getModelsRequiringAttention, analyzed. rewrite E.
  rewrite List.filter_app.
  change (fun model => Qleb (default 100%Q (ModelQuotaInfo.remainingPercentage model))
                            (warningThreshold (config g)))
    with (fun model => Qleb (pctOf model) (warningThreshold (config g))).
  destruct (promptCredits snapshot) as [pc|]; cbn [List.filter].
  - change (pctOf (pcVirtualModel now (PromptCreditsInfo.remainingPercentage pc)))
      with (PromptCreditsInfo.remainingPercentage pc).
    by destruct (Qleb _ _); rewrite ?app_nil_r.
  - by rewrite app_nil_r.
Qed.

(** X1.  After [updateSnapshot], the models the gate selects
    ([getModelsRequiringAttention]) are the [modelsAtRisk] of the guard
    state: the same list when the clock is the same, and otherwise the same
    ids and percentages in the same order. *)
Theorem gate_selection_is_modelsAtRisk now now' snapshot g :
  let g' := updateSnapshot now snapshot g in
  getModelsRequiringAttention now g' = GuardState.modelsAtRisk (guardState g')
  ∧ Forall2 sameQuota (getModelsRequiringAttention now' g')
            (GuardState.modelsAtRisk (guardState g')).
Proof.
  intros g'. subst g'.
  rewrite updateSnapshot_guardState, analyzeQuotaState_modelsAtRisk.
  rewrite !(getModelsRequiringAttention_filter _ _ snapshot) by reflexivity.
  rewrite updateSnapshot_config. split; [reflexivity|].
  unfold analyzed. rewrite !List.filter_app. apply Forall2_app.
  - apply Forall_Forall2_diag, Forall_forall. by intros m _.
  - destruct (promptCredits snapshot) as [pc|]; cbn [List.filter]; [|constructor].
    change (pctOf (pcVirtualModel now' (PromptCreditsInfo.remainingPercentage pc)))
      with (PromptCreditsInfo.remainingPercentage pc).
    change (pctOf (pcVirtualModel now (PromptCreditsInfo.remainingPercentage pc)))
      with (PromptCreditsInfo.remainingPercentage pc).
    destruct (Qleb _ _); constructor; [done | constructor].
Qed.

Lemma analyzeQuotaState_unfold now c snapshot :
  analyzeQuotaState now c snapshot
  = let acc := fold_left (analyzeModel c) (analyzed now snapshot) ([], 100%Q, None) in
    GuardState.mk (levelOf c acc.1.2) acc.1.1 acc.1.2 acc.2 (guardEnabled c).
Proof.
  unfold analyzeQuotaState, analyzed. rewrite fold_left_app.
  destruct (promptCredits snapshot) as [pc|]; cbn [fold_left].
  - by destruct (analyzeModel c _ _) as [[risk lo] lm].
  - by destruct (fold_left _ _ _) as [[risk lo] lm].
Qed.

Lemma fold_analyzeModel_model c ms : ∀ risk lo lm,
  let r := fold_left (analyzeModel c) ms (risk, lo, lm) in
  (r.2 = lm ∧ r.1.2 = lo)
  ∨ (∃ m, r.2 = Some m ∧ m ∈ ms ∧ pctOf m = r.1.2 ∧ (r.1.2 < lo)%Q).
Proof.
  induction ms as [|m ms IH]; intros risk lo lm; cbn [fold_left]; [by left|].
  cbn zeta in IH.
  destruct (analyzeModel c (risk, lo, lm) m) as [[risk1 lo1] lm1] eqn:E.
  assert (H1 : (lm1 = lm ∧ lo1 = lo)
               ∨ (lm1 = Some m ∧ lo1 = pctOf m ∧ (pctOf m < lo)%Q)).
  { unfold analyzeModel in E. fold (pctOf m) in E.
    destruct (Qltb (pctOf m) lo) eqn:El; injection E as _ <- <-.
    - right. apply Qltb_lt in El. done.
    - by left. }
  destruct (IH risk1 lo1 lm1) as [[-> ->]|(m' & -> & Hin & Hp & Hlt)].
  - destruct H1 as [[-> ->]|(-> & -> & Hlt)]; [by left|].
    right. exists m. split; [done|]. split; [apply list_elem_of_here|]. done.
  - right. exists m'. split; [done|]. split; [by apply list_elem_of_further|].
    split; [done|].
    destruct H1 as [[_ ->]|(_ & -> & Hlt')]; [done|].
    eapply Qlt_trans; eauto.
Qed.

(** X2.  The [lowestQuotaModel] of a state goes with its [lowestQuota]:
    when present it is one of the models analysed, its percentage is the
    lowest quota and that is below 100; when absent the lowest quota is
    its initial 100 and no model analysed is below 100. *)
Theorem lowestQuotaModel_attains_lowestQuota now c snapshot :
  let st := analyzeQuotaState now c snapshot in
  match GuardState.lowestQuotaModel st with
  | Some m =>
      m ∈ analyzed now snapshot
      ∧ pctOf m = GuardState.lowestQuota st
      ∧ (GuardState.lowestQuota st < 100)%Q
  | None =>
      GuardState.lowestQuota st = 100%Q
      ∧ ∀ m, m ∈ analyzed now snapshot → (100 <= pctOf m)%Q
  end.
Proof.
  cbn zeta. rewrite analyzeQuotaState_unfold. cbn zeta.
  pose proof (fold_analyzeModel_model c (analyzed now snapshot) [] 100%Q None) as H.
  cbn zeta in H.
  destruct (fold_left (analyzeModel c) (analyzed now snapshot) ([], 100%Q, None))
    as [[risk lo] lm] eqn:E.
  cbn [fst snd GuardState.lowestQuotaModel GuardState.lowestQuota] in *.
  destruct H as [[-> ->]|(m & -> & Hin & Hp & Hlt)]; [|done].
  split; [done|]. intros m Hm.
  apply fold_analyzeModel_lowest in E as (_ & Hall & _). by apply Hall.
Qed.

Lemma analyzeQuotaState_lowest_le now c snapshot m :
  m ∈ analyzed now snapshot →
  (GuardState.lowestQuota (analyzeQuotaState now c snapshot) <= pctOf m)%Q.
Proof.
  intros Hm. rewrite analyzeQuotaState_unfold. cbn zeta.
  destruct (fold_left (analyzeModel c) (analyzed now snapshot) ([], 100%Q, None))
    as [[risk lo] lm] eqn:E.
  apply fold_analyzeModel_lowest in E as (_ & Hall & _). by apply Hall.
Qed.

Lemma analyzeQuotaState_lowest_attained now c snapshot :
  let lo := GuardState.lowestQuota (analyzeQuotaState now c snapshot) in
  (lo <= 100)%Q ∧ (lo = 100%Q ∨ ∃ m, m ∈ analyzed now snapshot ∧ lo = pctOf m).
Proof.
  cbn zeta. rewrite analyzeQuotaState_unfold. cbn zeta.
  destruct (fold_left (analyzeModel c) (analyzed now snapshot) ([], 100%Q, None))
    as [[risk lo] lm] eqn:E.
  apply fold_analyzeModel_lowest in E as (Hle & _ & Hor). done.
Qed.

(** X3.  With [0 ≤ blockThreshold ≤ warningThreshold < 100], the level of
    a state is normal exactly when no model is at risk. *)
Theorem normal_iff_nothing_at_risk now c snapshot :
  (0 <= blockThreshold c)%Q →
  (blockThreshold c <= warningThreshold c)%Q →
  (warningThreshold c < 100)%Q →
  let st := analyzeQuotaState now c snapshot in
  GuardState.level st = normal ↔ GuardState.modelsAtRisk st = [].
Proof.
  intros H0 Hbw Hw st.
  assert (Hlvl : GuardState.level st = normal
                 ↔ (warningThreshold c < GuardState.lowestQuota st)%Q).
  { subst st. rewrite analyzeQuotaState_level. unfold levelOf.
    set (lo := GuardState.lowestQuota _). split.
    - destruct (Qleb lo 0); [done|]. destruct (Qleb lo (blockThreshold c)); [done|].
      destruct (Qleb lo (warningThreshold c)) eqn:E; [done|]. intros _.
      by apply Qleb_nle.
    - intros H.
      assert (Hb : (blockThreshold c < lo)%Q) by (eapply Qle_lt_trans; eauto).
      assert (Hz : (0 < lo)%Q) by (eapply Qle_lt_trans; eauto).
      apply Qleb_nle in H, Hb, Hz. by rewrite Hz, Hb, H. }
  etrans; [exact Hlvl|]. clear Hlvl. subst st.
  rewrite analyzeQuotaState_modelsAtRisk. fold (analyzed now snapshot).
  assert (Hnil : ∀ (f : ModelQuotaInfo.t → bool) l,
             List.filter f l = [] ↔ ∀ m, m ∈ l → f m = false).
  { clear. intros f l. induction l as [|x l IH]; cbn [List.filter].
    - split; [|done]. intros _ m Hm. by apply elem_of_nil in Hm.
    - destruct (f x) eqn:E.
      + split; [done|]. intros H. specialize (H x (list_elem_of_here _ _)). congruence.
      + rewrite IH. split.
        * intros H m [->|Hm]%elem_of_cons; auto.
        * intros H m Hm. apply H. by apply list_elem_of_further. }
  transitivity (∀ m, m ∈ analyzed now snapshot →
                     Qleb (pctOf m) (warningThreshold c) = false);
    [|symmetry; apply Hnil].
  split.
  - intros Hlo m Hm. apply Qleb_nle.
    eapply Qlt_le_trans; [exact Hlo|]. by apply analyzeQuotaState_lowest_le.
  - intros Hall.
    destruct (analyzeQuotaState_lowest_attained now c snapshot) as [_ [E|(m & Hm & E)]].
    + by rewrite E.
    + rewrite E. apply Qleb_nle. by apply Hall.
Qed.

Lemma normal_iff_nothing_at_risk_witness :
  let st := analyzeQuotaState 0 defaultConfig (snapshotOf [modelAt "m1" (Some 50%Q)]) in
  GuardState.level st = normal ↔ GuardState.modelsAtRisk st = [].
Proof.
  apply (normal_iff_nothing_at_risk 0 defaultConfig
           (snapshotOf [modelAt "m1" (Some 50%Q)]));
    vm_compute; first [reflexivity | discriminate].
Defined.

(** *** The decision gate *)

Lemma worse_pctOf worst current :
  worse worst current = (if Qltb (pctOf current) (pctOf worst) then current else worst).
Proof. reflexivity. Qed.

Lemma fold_worse_first rest : ∀ first,
  let r := fold_left worse rest first in
  ∃ pre post,
    first :: rest = pre ++ r :: post
    ∧ (∀ m, m ∈ pre → (pctOf r < pctOf m)%Q)
    ∧ (∀ m, m ∈ post → (pctOf r <= pctOf m)%Q).
Proof.
  induction rest as [|x rest IH]; intros first; cbn [fold_left]; cbn zeta.
  - exists [], []. split; [done|]. split; intros m Hm; by apply elem_of_nil in Hm.
  - destruct (IH (worse first x)) as (pre & post & E & Hpre & Hpost).
    set (r := fold_left worse rest (worse first x)) in *.
    assert (Hw : (pctOf (worse first x) <= pctOf first)%Q
                 ∧ (pctOf (worse first x) <= pctOf x)%Q
                 ∧ ((worse first x = x ∧ (pctOf x < pctOf first)%Q)
                    ∨ (worse first x = first ∧ (pctOf first <= pctOf x)%Q))).
    { rewrite worse_pctOf. destruct (Qltb (pctOf x) (pctOf first)) eqn:El.
      - apply Qltb_lt in El. split; [by apply Qlt_le_weak|].
        split; [apply Qle_refl|]. by left.
      - apply Qltb_nlt in El. split; [apply Qle_refl|]. split; [done|]. by right. }
    destruct Hw as (Hwf & Hwx & Hcase).
    destruct pre as [|p pre]; cbn [app] in E.
    + injection E as Er Epost. subst post.
      destruct Hcase as [[Ex Hlt]|[Ef Hle]].
      * exists [first], rest. rewrite <- Er, Ex. split; [done|]. split.
        -- intros m ->%list_elem_of_singleton. done.
        -- intros m Hm. rewrite <- Ex, Er. by apply Hpost.
      * exists [], (x :: rest). rewrite <- Er, Ef. split; [done|]. split.
        -- intros m Hm. by apply elem_of_nil in Hm.
        -- intros m [->|Hm]%elem_of_cons; [done|].
           rewrite <- Ef, Er. by apply Hpost.
    + injection E as Ep Erest. subst p.
      assert (Hrw : (pctOf r < pctOf (worse first x))%Q).
      { apply Hpre. apply list_elem_of_here. }
      exists (first :: x :: pre), post. rewrite Erest. split; [done|]. split.
      * intros m [->|[->|Hm]%elem_of_cons]%elem_of_cons.
        -- eapply Qlt_le_trans; eauto.
        -- eapply Qlt_le_trans; eauto.
        -- apply Hpre. by apply list_elem_of_further.
      * exact Hpost.
Qed.

Lemma worstModel_at_risk now g w :
  worstModel now g = Some w → (pctOf w <= warningThreshold (config g))%Q.
Proof.
  unfold worstModel.
  destruct (getModelsRequiringAttention now g) as [|first rest] eqn:E; [done|].
  intros [= <-].
  destruct (fold_worse_first rest first) as (pre & post & El & _).
  assert (Hin : fold_left worse rest first ∈ getModelsRequiringAttention now g).
  { rewrite E, El. apply elem_of_app. right. apply list_elem_of_here. }
  destruct (lastSnapshot g) as [snapshot|] eqn:Es.
  - rewrite (getModelsRequiringAttention_filter _ _ snapshot Es) in Hin.
    apply list_elem_of_In, List.filter_In in Hin as [_ Hle]. by apply Qleb_le.
  - unfold getModelsRequiringAttention in Hin. rewrite Es in Hin.
    by apply elem_of_nil in Hin.
Qed.

(** X4.  The model [checkAndWarn] checks is a model at risk with the
    lowest percentage, the first such one in the order of the snapshot:
    every model at risk before it is strictly higher, none after it is
    lower. *)
Theorem worstModel_is_first_lowest now g w :
  worstModel now g = Some w →
  ∃ pre post,
    getModelsRequiringAttention now g = pre ++ w :: post
    ∧ (∀ m, m ∈ pre → (pctOf w < pctOf m)%Q)
    ∧ (∀ m, m ∈ post → (pctOf w <= pctOf m)%Q)
    ∧ (pctOf w <= warningThreshold (config g))%Q.
Proof.
  unfold worstModel.
  destruct (getModelsRequiringAttention now g) as [|first rest] eqn:E; [done|].
  intros [= <-].
  destruct (fold_worse_first rest first) as (pre & post & El & Hpre & Hpost).
  exists pre, post. split; [done|]. split; [done|]. split; [done|].
  apply (worstModel_at_risk now g). unfold worstModel. by rewrite E.
Qed.

Lemma worstModel_is_first_lowest_witness :
  let g := updateSnapshot 0 (snapshotOf [modelAt "m1" (Some 10%Q); modelAt "m2" (Some 5%Q)])
             (new defaultConfig) in
  let w := modelAt "m2" (Some 5%Q) in
  ∃ pre post,
    getModelsRequiringAttention 0 g = pre ++ w :: post
    ∧ (∀ m, m ∈ pre → (pctOf w < pctOf m)%Q)
    ∧ (∀ m, m ∈ post → (pctOf w <= pctOf m)%Q)
    ∧ (pctOf w <= warningThreshold (config g))%Q.
Proof.
  apply (worstModel_is_first_lowest 0
           (updateSnapshot 0
              (snapshotOf [modelAt "m1" (Some 10%Q); modelAt "m2" (Some 5%Q)])
              (new defaultConfig))
           (modelAt "m2" (Some 5%Q))).
  reflexivity.
Defined.

Lemma checkAndWarn_unfold now nowAck result g :
  checkAndWarn now nowAck result g
  = if negb (GuardState.guardActive (guardState g)) then (true, g)
    else match worstModel now g with
         | None => (true, g)
         | Some w =>
             let check := checkModel (config g) w in
             if negb (shouldShowAlert now g check) then (true, g)
             else if GuardCheckResult.shouldBlock check
             then showBlockModal now nowAck result check g
             else if GuardCheckResult.shouldWarn check
             then showWarningModal nowAck result check g
             else (true, g)
         end.
Proof.
  unfold checkAndWarn, worstModel.
  by destruct (getModelsRequiringAttention now g).
Qed.

Lemma checkModel_shouldBlock c m :
  GuardCheckResult.shouldBlock (checkModel c m) = true
  ↔ (pctOf m <= 0)%Q ∨ (pctOf m <= blockThreshold c)%Q.
Proof.
  unfold checkModel. fold (pctOf m).
  destruct (Qleb (pctOf m) 0) eqn:E0.
  { apply Qleb_le in E0. split; [by left | done]. }
  destruct (Qleb (pctOf m) (blockThreshold c)) eqn:Eb.
  { apply Qleb_le in Eb. split; [by right | done]. }
  apply Qleb_nle in E0, Eb.
  assert (Hno : ¬ ((pctOf m <= 0)%Q ∨ (pctOf m <= blockThreshold c)%Q)).
  { intros [H|H]; [exact (Qlt_not_le _ _ E0 H) | exact (Qlt_not_le _ _ Eb H)]. }
  destruct (Qleb (pctOf m) (warningThreshold c)); cbn; split; done.
Qed.

Lemma checkModel_shouldWarn c m :
  GuardCheckResult.shouldBlock (checkModel c m) = false →
  (pctOf m <= warningThreshold c)%Q →
  GuardCheckResult.shouldWarn (checkModel c m) = true.
Proof.
  unfold checkModel. fold (pctOf m). intros Hb Hw. apply Qleb_le in Hw.
  destruct (Qleb (pctOf m) 0); [done|].
  destruct (Qleb (pctOf m) (blockThreshold c)); [done|]. by rewrite Hw.
Qed.

(** X5.  [checkAndWarn] allows the action and leaves the guard as it is
    when the guard is inactive, when no snapshot has arrived, when every
    percentage of the last snapshot is above the warning threshold, or when
    the alert for the model checked is suppressed. *)
Theorem checkAndWarn_allows_silently now nowAck result g :
  GuardState.guardActive (guardState g) = false
  ∨ lastSnapshot g = None
  ∨ (∃ snapshot,
        lastSnapshot g = Some snapshot
        ∧ ∀ m, m ∈ analyzed now snapshot →
               (warningThreshold (config g) < pctOf m)%Q)
  ∨ (∃ w, worstModel now g = Some w
          ∧ shouldShowAlert now g (checkModel (config g) w) = false) →
  checkAndWarn now nowAck result g = (true, g).
Proof.
  rewrite checkAndWarn_unfold.
  intros [->|[Hnone|[(snapshot & Hs & Hall)|(w & -> & Hs)]]]; [done| | |].
  - unfold worstModel, getModelsRequiringAttention. rewrite Hnone.
    by destruct (negb _).
  - assert (E : getModelsRequiringAttention now g = []).
    { rewrite (getModelsRequiringAttention_filter _ _ snapshot Hs).
      induction (analyzed now snapshot) as [|m l IH]; [done|].
      cbn [List.filter].
      assert (Qleb (pctOf m) (warningThreshold (config g)) = false) as ->.
      { apply Qleb_nle, Hall, list_elem_of_here. }
      apply IH. intros m' Hm'. apply Hall. by apply list_elem_of_further. }
    unfold worstModel. rewrite E. by destruct (negb _).
  - cbn zeta. rewrite Hs. by destruct (negb _).
Qed.

Lemma checkAndWarn_allows_silently_witness :
  checkAndWarn 5 6 None
    (updateSnapshot 0 (snapshotOf [modelAt "m1" (Some 50%Q)]) (new defaultConfig))
  = (true, updateSnapshot 0 (snapshotOf [modelAt "m1" (Some 50%Q)]) (new defaultConfig)).
Proof.
  apply checkAndWarn_allows_silently. right. right. left.
  exists (snapshotOf [modelAt "m1" (Some 50%Q)]). split; [reflexivity|].
  intros m Hm. apply list_elem_of_singleton in Hm as ->. reflexivity.
Defined.

(** X6.  [checkAndWarn] refuses the action exactly when the guard is
    active, the alert for the model checked is due, and either that model
    is at or below the block threshold and the block modal is in its
    cooldown or is answered by anything but "Proceed Anyway", or the model
    is only at warning level and the answer is "Show Details". *)
Theorem checkAndWarn_refuses_iff now nowAck result g :
  (checkAndWarn now nowAck result g).1 = false ↔
  GuardState.guardActive (guardState g) = true
  ∧ ∃ w,
      worstModel now g = Some w
      ∧ shouldShowAlert now g (checkModel (config g) w) = true
      ∧ (((pctOf w <= 0)%Q ∨ (pctOf w <= blockThreshold (config g))%Q)
         ∧ ((now - lastBlockShown g < blockCooldown)%Z
            ∨ result ≠ Some "Proceed Anyway")
         ∨ ¬ ((pctOf w <= 0)%Q ∨ (pctOf w <= blockThreshold (config g))%Q)
           ∧ result = Some "Show Details").
Proof.
  rewrite checkAndWarn_unfold.
  destruct (GuardState.guardActive (guardState g)); cbn [negb];
    [|split; [done | by intros [? _]]].
  destruct (worstModel now g) as [w|] eqn:Ew;
    [|split; [done | by intros [_ (? & ? & _)]]].
  cbn zeta.
  destruct (shouldShowAlert now g (checkModel (config g) w)) eqn:Es; cbn [negb].
  2:{ split; [done|]. intros [_ (w' & [= <-] & Hs & _)]. congruence. }
  pose proof (checkModel_shouldBlock (config g) w) as Hb.
  destruct (GuardCheckResult.shouldBlock (checkModel (config g) w)) eqn:Eb.
  - assert (Hblock : (pctOf w <= 0)%Q ∨ (pctOf w <= blockThreshold (config g))%Q)
      by by apply Hb.
    unfold showBlockModal.
    destruct (now - lastBlockShown g <? blockCooldown)%Z eqn:Ec.
    + apply Z.ltb_lt in Ec. split; [|done]. intros _. split; [done|].
      exists w. split; [done|]. split; [done|]. left. split; [done | by left].
    + apply Z.ltb_ge in Ec. cbn zeta.
      destruct (bool_decide (result = Some "Proceed Anyway")) eqn:Er.
      * apply bool_decide_eq_true in Er. split; [done|].
        intros [_ (w' & [= <-] & _ & [[_ [H|H]]|[H _]])]; [lia | done | done].
      * apply bool_decide_eq_false in Er. split; [|done]. intros _. split; [done|].
        exists w. split; [done|]. split; [done|]. left. split; [done | by right].
  - assert (Hnb : ¬ ((pctOf w <= 0)%Q ∨ (pctOf w <= blockThreshold (config g))%Q)).
    { intros H. apply Hb in H. done. }
    pose proof (worstModel_at_risk now g w Ew) as Hw.
    rewrite (checkModel_shouldWarn _ _ Eb Hw). unfold showWarningModal.
    destruct (bool_decide (result = Some "Show Details")) eqn:Er.
    + apply bool_decide_eq_true in Er. split; [|done]. intros _. split; [done|].
      exists w. split; [done|]. split; [done|]. by right.
    + apply bool_decide_eq_false in Er. split; [done|].
      intros [_ (w' & [= <-] & _ & [[H _]|[_ H]])]; done.
Qed.

(** *** Acknowledged alerts *)

Lemma getModelsRequiringAttention_sameQuota now now' g g' :
  lastSnapshot g' = lastSnapshot g → config g' = config g →
  Forall2 sameQuota (getModelsRequiringAttention now g)
                    (getModelsRequiringAttention now' g').
Proof.
  intros Es Ec. destruct (lastSnapshot g) as [snapshot|] eqn:E.
  - rewrite (getModelsRequiringAttention_filter now g snapshot E).
    rewrite (getModelsRequiringAttention_filter now' g' snapshot Es), Ec.
    unfold analyzed. rewrite !List.filter_app. apply Forall2_app.
    + apply Forall_Forall2_diag, Forall_forall. by intros m _.
    + destruct (promptCredits snapshot) as [pc|]; cbn [List.filter]; [|constructor].
      change (pctOf (pcVirtualModel now' (PromptCreditsInfo.remainingPercentage pc)))
        with (PromptCreditsInfo.remainingPercentage pc).
      change (pctOf (pcVirtualModel now (PromptCreditsInfo.remainingPercentage pc)))
        with (PromptCreditsInfo.remainingPercentage pc).
      destruct (Qleb _ _); constructor; [done | constructor].
  - unfold getModelsRequiringAttention. rewrite Es, E. constructor.
Qed.

Lemma sameQuota_pctOf m m' : sameQuota m m' → pctOf m = pctOf m'.
Proof. intros [_ E]. unfold pctOf. by rewrite E. Qed.

Lemma fold_worse_sameQuota l l' :
  Forall2 sameQuota l l' → ∀ a a', sameQuota a a' →
  sameQuota (fold_left worse l a) (fold_left worse l' a').
Proof.
  induction 1 as [|x x' l l' Hx _ IH]; intros a a' Ha; cbn [fold_left]; [done|].
  apply IH. rewrite !worse_pctOf.
  rewrite (sameQuota_pctOf _ _ Hx), (sameQuota_pctOf _ _ Ha).
  by destruct (Qltb _ _).
Qed.

Lemma worstModel_sameQuota now now' g g' w :
  lastSnapshot g' = lastSnapshot g → config g' = config g →
  worstModel now g = Some w →
  ∃ w', worstModel now' g' = Some w' ∧ sameQuota w w'.
Proof.
  intros Es Ec. unfold worstModel.
  pose proof (getModelsRequiringAttention_sameQuota now now' g g' Es Ec) as H.
  destruct H as [|first first' rest rest' Hf Hr]; [done|].
  intros [= <-]. eexists. split; [done|]. by apply fold_worse_sameQuota.
Qed.

Lemma shouldShowAlert_acknowledged now2 nowAck c w w' g :
  sameQuota w w' → (now2 - nowAck <= 600000)%Z →
  acknowledgments g !! ModelQuotaInfo.modelId w
  = Some (Ack.mk (GuardCheckResult.level (checkModel c w)) nowAck
                 (default 0%Q (ModelQuotaInfo.remainingPercentage w))) →
  shouldShowAlert now2 g (checkModel c w') = false.
Proof.
  intros Hs Ht Ha. unfold shouldShowAlert.
  rewrite checkModel_model, checkModel_level.
  destruct Hs as [Eid Ep]. rewrite <- Eid, Ha. cbn [Ack.level Ack.timestamp Ack.percentage].
  rewrite checkModel_level. unfold pctOf. rewrite <- Ep.
  rewrite Z.ltb_irrefl.
  destruct (_ || _); [done|]. cbn zeta.
  assert ((600000 <? now2 - nowAck)%Z = false) as -> by (apply Z.ltb_ge; lia).
  cbn [orb]. apply Qgtb_ngt.
  set (p := default 0%Q (ModelQuotaInfo.remainingPercentage w)).
  unfold Float64.sub. rewrite (Float64Facts.round_proper (p - p) 0) by ring. done.
Qed.

Lemma recordAck_lookup nowAck check g :
  acknowledgments (recordAck nowAck check g)
    !! ModelQuotaInfo.modelId (GuardCheckResult.model check)
  = Some (Ack.mk (GuardCheckResult.level check) nowAck
                 (default 0%Q (ModelQuotaInfo.remainingPercentage
                                 (GuardCheckResult.model check)))).
Proof. unfold recordAck. cbn. apply lookup_insert_eq. Qed.

(** X7.  Once a call of [checkAndWarn] has changed the guard (the modal
    was answered and the acknowledgement recorded), a later call on the
    same snapshot, no more than ten minutes after the answer, allows the
    action without asking again, whatever the level. *)
Theorem answered_alert_is_not_repeated now nowAck result now2 nowAck2 result2 g :
  (checkAndWarn now nowAck result g).2 ≠ g →
  (now2 - nowAck <= 600000)%Z →
  let g' := (checkAndWarn now nowAck result g).2 in
  checkAndWarn now2 nowAck2 result2 g' = (true, g').
Proof.
  intros Hchg Ht g'. subst g'. revert Hchg.
  rewrite (checkAndWarn_unfold now).
  destruct (negb (GuardState.guardActive (guardState g))) eqn:Ea; [done|].
  destruct (worstModel now g) as [w|] eqn:Ew; [|done]. cbn zeta.
  destruct (negb (shouldShowAlert now g (checkModel (config g) w))); [done|].
  assert (Hgo : ∀ g1,
    lastSnapshot g1 = lastSnapshot g → config g1 = config g →
    guardState g1 = guardState g →
    acknowledgments g1 !! ModelQuotaInfo.modelId w
    = Some (Ack.mk (GuardCheckResult.level (checkModel (config g) w)) nowAck
                   (default 0%Q (ModelQuotaInfo.remainingPercentage w))) →
    checkAndWarn now2 nowAck2 result2 g1 = (true, g1)).
  { intros g1 Es Ec Eg Hack. rewrite checkAndWarn_unfold, Eg, Ea.
    destruct (worstModel_sameQuota now now2 g g1 w Es Ec Ew) as (w' & -> & Hs).
    cbn zeta. rewrite Ec.
    by rewrite (shouldShowAlert_acknowledged now2 nowAck (config g) w w' g1 Hs Ht Hack). }
  pose proof (recordAck_lookup nowAck (checkModel (config g) w)) as Hl.
  rewrite checkModel_model in Hl.
  destruct (GuardCheckResult.shouldBlock (checkModel (config g) w)).
  - unfold showBlockModal.
    destruct (now - lastBlockShown g <? blockCooldown)%Z; [done|]. cbn zeta.
    intros _.
    destruct (bool_decide (result = Some "Proceed Anyway")); cbn [snd];
      apply Hgo; try done; apply Hl.
  - destruct (GuardCheckResult.shouldWarn (checkModel (config g) w)); [|done].
    unfold showWarningModal.
    destruct (bool_decide (result = Some "Show Details")); [done|]. cbn [snd].
    intros _. apply Hgo; try done; apply Hl.
Qed.

Lemma answered_alert_is_not_repeated_witness :
  let g := updateSnapshot 0 (snapshotOf [modelAt "m1" (Some 10%Q)]) (new defaultConfig) in
  let g' := (checkAndWarn 5 6 None g).2 in
  checkAndWarn 1000 1001 (Some "Show Details") g' = (true, g').
Proof.
  intros g.
  apply (answered_alert_is_not_repeated 5 6 None 1000 1001 (Some "Show Details") g).
  - intros H. apply (f_equal acknowledgments) in H.
    apply (f_equal (lookup "m1")) in H. vm_compute in H. discriminate.
  - vm_compute. discriminate.
Defined.

(** *** What a snapshot does to the recorded answers *)

(** X8.  [updateSnapshot] never adds or alters an acknowledgement (each
    one is kept or removed), leaves the last-seen percentage of every id
    outside the snapshot as it was, and does not touch the block cooldown
    or the configuration. *)
Theorem updateSnapshot_only_forgets now snapshot g :
  let g' := updateSnapshot now snapshot g in
  (∀ id, acknowledgments g' !! id = None
         ∨ acknowledgments g' !! id = acknowledgments g !! id)
  ∧ (∀ id, id ∉ (snapshotEntries snapshot).*1 →
           lastSeenPercentages g' !! id = lastSeenPercentages g !! id)
  ∧ lastBlockShown g' = lastBlockShown g
  ∧ config g' = config g.
Proof.
  cbn zeta.
  pose proof (updateSnapshot_maps now snapshot g) as Hm.
  assert (Ha : acknowledgments (updateSnapshot now snapshot g)
               = (fold_left observe (snapshotEntries snapshot) (maps g)).1)
    by (by rewrite <- Hm).
  assert (Hl : lastSeenPercentages (updateSnapshot now snapshot g)
               = (fold_left observe (snapshotEntries snapshot) (maps g)).2)
    by (by rewrite <- Hm).
  split; [|split; [|split]].
  - intros id. rewrite Ha. apply fold_observe_acks_shrink.
  - intros id Hid. rewrite Hl. by apply fold_observe_seen_other.
  - unfold updateSnapshot. cbn.
    assert (Hb : ∀ ms g0, lastBlockShown (fold_left trackModel ms g0) = lastBlockShown g0).
    { induction ms as [|m ms IH]; intros g0; cbn [fold_left]; [done|].
      rewrite IH. unfold trackModel.
      destruct (lastSeenPercentages g0 !! _) as [last|]; [|done].
      by destruct (Qgeb _ _). }
    destruct (promptCredits snapshot) as [pc|]; [|apply Hb].
    unfold trackPromptCredits.
    destruct (lastSeenPercentages _ !! _) as [last|]; [|apply Hb].
    destruct (Qgeb _ _); apply Hb.
  - apply updateSnapshot_config.
Qed.

(** X9.  A snapshot that lists one id twice in a row, the second entry a
    reset against the first (at least the first plus 2, in the arithmetic
    of the program), drops the acknowledgement of that id and the one of
    the prompt credits, whatever was recorded before: the second entry is
    compared with the first, not with the percentage of the update
    before. *)
Theorem duplicate_id_clears_acknowledgement now snapshot g pre a b post :
  models snapshot = pre ++ a :: b :: post →
  ModelQuotaInfo.modelId a = ModelQuotaInfo.modelId b →
  isReset (pctOf a) (pctOf b) →
  let g' := updateSnapshot now snapshot g in
  acknowledgments g' !! ModelQuotaInfo.modelId a = None
  ∧ acknowledgments g' !! "prompt_credits" = None.
Proof.
  intros Hms Hid Hup. cbn zeta.
  pose proof (updateSnapshot_maps now snapshot g) as Hm.
  assert (Ha : acknowledgments (updateSnapshot now snapshot g)
               = (fold_left observe (snapshotEntries snapshot) (maps g)).1)
    by (by rewrite <- Hm).
  rewrite Ha. unfold snapshotEntries. rewrite Hms.
  rewrite map_app. cbn [map]. rewrite <- !app_assoc. cbn [app].
  rewrite fold_left_app. cbn [fold_left].
  set (st0 := fold_left observe _ (maps g)).
  set (rest := map _ post ++ _).
  set (ea := (ModelQuotaInfo.modelId a, pctOf a)).
  set (eb := (ModelQuotaInfo.modelId b, pctOf b)).
  assert (Hb : (observe (observe st0 ea) eb).1 !! ModelQuotaInfo.modelId a = None
               ∧ (observe (observe st0 ea) eb).1 !! "prompt_credits" = None).
  { assert (E : (observe (observe st0 ea) eb).1
                 = delete "prompt_credits"
                     (delete (ModelQuotaInfo.modelId a) (observe st0 ea).1)).
    { unfold observe at 1. cbn [fst snd eb]. rewrite <- Hid.
      assert ((observe st0 ea).2 !! ModelQuotaInfo.modelId a = Some (pctOf a)) as ->
        by apply lookup_insert_eq.
      assert (Qgeb (pctOf b) (Float64.add (pctOf a) 2) = true) as ->
        by by apply Qgeb_ge.
      done. }
    rewrite E. split.
    - destruct (decide (ModelQuotaInfo.modelId a = "prompt_credits")) as [->|Hne].
      + apply lookup_delete_eq.
      + rewrite lookup_delete_ne by done. apply lookup_delete_eq.
    - apply lookup_delete_eq. }
  destruct Hb as [Hb1 Hb2]. split.
  - destruct (fold_observe_acks_shrink rest (observe (observe st0 ea) eb)
                (ModelQuotaInfo.modelId a)) as [H|H]; [done | by rewrite H].
  - destruct (fold_observe_acks_shrink rest (observe (observe st0 ea) eb)
                "prompt_credits") as [H|H]; [done | by rewrite H].
Qed.

(** The guard has seen "m1" at 50% and holds an acknowledgement for it
    and one for the prompt credits; a snapshot listing "m1" at 10% and
    then at 12% (both far below 50%) drops the two. *)
Lemma duplicate_id_clears_acknowledgement_witness :
  let g := set_acknowledgments
             {[ "m1" := Ack.mk warning 5 10%Q;
                "prompt_credits" := Ack.mk warning 6 15%Q ]}
             (updateSnapshot 0 (snapshotOf [modelAt "m1" (Some 50%Q)])
                (new defaultConfig)) in
  let snapshot := snapshotOf [modelAt "m1" (Some 10%Q); modelAt "m1" (Some 12%Q)] in
  let g' := updateSnapshot 10 snapshot g in
  lastSeenPercentages g !! "m1" = Some 50%Q
  ∧ acknowledgments g !! "m1" = Some (Ack.mk warning 5 10%Q)
  ∧ acknowledgments g !! "prompt_credits" = Some (Ack.mk warning 6 15%Q)
  ∧ acknowledgments g' !! "m1" = None
  ∧ acknowledgments g' !! "prompt_credits" = None.
Proof.
  cbv zeta. split; [reflexivity|]. split; [reflexivity|]. split; [reflexivity|].
  apply (duplicate_id_clears_acknowledgement 10
           (snapshotOf [modelAt "m1" (Some 10%Q); modelAt "m1" (Some 12%Q)])
           (set_acknowledgments
              {[ "m1" := Ack.mk warning 5 10%Q;
                 "prompt_credits" := Ack.mk warning 6 15%Q ]}
              (updateSnapshot 0 (snapshotOf [modelAt "m1" (Some 50%Q)])
                 (new defaultConfig)))
           []
           (modelAt "m1" (Some 10%Q)) (modelAt "m1" (Some 12%Q)) []).
  - reflexivity.
  - reflexivity.
  - vm_compute. discriminate.
Defined.

(** X10.  [clearDismissedWarnings] removes exactly the acknowledgements
    of level warning that are more than an hour old and keeps every other
    one as it is; nothing else of the guard changes.  A clean-up after an
    earlier clean-up gives what the later one gives alone; in particular a
    second call at the same time changes nothing. *)
Theorem clearDismissedWarnings_spec now now2 g :
  let g' := clearDismissedWarnings now g in
  (∀ id ack,
      acknowledgments g' !! id = Some ack
      ↔ acknowledgments g !! id = Some ack
        ∧ ¬ (Ack.level ack = warning ∧ (3600000 < now - Ack.timestamp ack)%Z))
  ∧ lastSnapshot g' = lastSnapshot g
  ∧ config g' = config g
  ∧ guardState g' = guardState g
  ∧ lastSeenPercentages g' = lastSeenPercentages g
  ∧ lastBlockShown g' = lastBlockShown g
  ∧ ((now <= now2)%Z → clearDismissedWarnings now2 g' = clearDismissedWarnings now2 g)
  ∧ clearDismissedWarnings now g' = g'.
Proof.
  cbn zeta. split; [|repeat split].
  - intros id ack. unfold clearDismissedWarnings. cbn.
    by rewrite map_lookup_filter_Some.
  - intros Ht. unfold clearDismissedWarnings, set_acknowledgments. cbn. f_equal.
    apply map_eq. intros id. apply option_eq. intros ack.
    rewrite !map_lookup_filter_Some. cbn. split; [tauto|].
    intros [Ha Hk]. split; [|done]. split; [done|].
    intros [Hw Hold]. apply Hk. split; [done | lia].
  - unfold clearDismissedWarnings, set_acknowledgments. cbn. f_equal.
    apply map_eq. intros id. apply option_eq. intros ack.
    rewrite !map_lookup_filter_Some. tauto.
Qed.

(** *** A change of configuration *)

(** X11.  A change of configuration after a snapshot.  [updateConfig]
    sets the active flag from the new configuration and keeps the recorded
    answers, but the state is not analysed again: its level and its models
    at risk stay those the old thresholds gave, until the next snapshot.
    [getModelsRequiringAttention], which [checkAndWarn] asks, selects with
    the new warning threshold at once. *)
Theorem updateConfig_leaves_analysis_stale now c snapshot g :
  let g1 := updateSnapshot now snapshot g in
  let g2 := updateConfig c g1 in
  isGuardActive g2 = guardEnabled c
  ∧ GuardState.level (getState g2)
    = levelOf (config g) (GuardState.lowestQuota (getState g1))
  ∧ GuardState.modelsAtRisk (getState g2)
    = List.filter (fun model => Qleb (pctOf model) (warningThreshold (config g)))
        (analyzed now snapshot)
  ∧ getModelsRequiringAttention now g2
    = List.filter (fun model => Qleb (pctOf model) (warningThreshold c))
        (analyzed now snapshot)
  ∧ acknowledgments g2 = acknowledgments g1
  ∧ lastSeenPercentages g2 = lastSeenPercentages g1.
Proof.
  cbn zeta. split; [reflexivity|]. split; [|split; [|split; [|split]]].
  - unfold getState, updateConfig. cbn [guardState set_guardState set_config].
    cbn [GuardState.level set_guardActive].
    rewrite updateSnapshot_guardState. apply analyzeQuotaState_level.
  - unfold getState, updateConfig. cbn [guardState set_guardState set_config].
    cbn [GuardState.modelsAtRisk set_guardActive].
    rewrite updateSnapshot_guardState. apply analyzeQuotaState_modelsAtRisk.
  - by rewrite (getModelsRequiringAttention_filter now _ snapshot).
  - reflexivity.
  - reflexivity.
Qed.

(** *** The hourly clean-up and the gate *)

Lemma checkModel_level_at_risk c w :
  (pctOf w <= warningThreshold c)%Q →
  GuardCheckResult.level (checkModel c w) ≠ normal.
Proof.
  intros Hw. rewrite checkModel_level. unfold levelOf.
  destruct (Qleb (pctOf w) 0); [done|].
  destruct (Qleb (pctOf w) (blockThreshold c)); [done|].
  by rewrite (proj2 (Qleb_le _ _) Hw).
Qed.

Lemma shouldShowAlert_clearDismissedWarnings now now' g check :
  (now' <= now)%Z →
  GuardCheckResult.level check ≠ normal →
  shouldShowAlert now (clearDismissedWarnings now' g) check
  = shouldShowAlert now g check.
Proof.
  intros Ht Hl. unfold shouldShowAlert, clearDismissedWarnings. cbn.
  set (id := ModelQuotaInfo.modelId (GuardCheckResult.model check)).
  destruct (acknowledgments g !! id) as [ack|] eqn:Ea.
  - destruct (decide (Ack.level ack = warning
                      ∧ (3600000 < now' - Ack.timestamp ack)%Z)) as [[Hw Hold]|Hkeep].
    + rewrite map_lookup_filter_None_2.
      2:{ right. intros ack' Ea'. rewrite Ea in Ea'. injection Ea' as <-. cbn. tauto. }
      rewrite Hw.
      destruct (GuardCheckResult.level check); cbn; try done.
      assert ((600000 <? now - Ack.timestamp ack)%Z = true) as ->
        by (apply Z.ltb_lt; lia).
      done.
    + rewrite (map_lookup_filter_Some_2 _ _ id ack); done.
  - rewrite map_lookup_filter_None_2; [done|]. by left.
Qed.

(** X12.  [clearDismissedWarnings] never changes what the gate decides: a
    call of [checkAndWarn] no earlier than the clean-up allows or refuses
    the action as it would have without the clean-up (an acknowledgement
    the clean-up removes is one after which the alert was due again). *)
Theorem clearDismissedWarnings_keeps_decision now now' nowAck result g :
  (now' <= now)%Z →
  (checkAndWarn now nowAck result (clearDismissedWarnings now' g)).1
  = (checkAndWarn now nowAck result g).1.
Proof.
  intros Ht. rewrite !checkAndWarn_unfold.
  change (guardState (clearDismissedWarnings now' g)) with (guardState g).
  destruct (negb (GuardState.guardActive (guardState g))); [done|].
  change (worstModel now (clearDismissedWarnings now' g)) with (worstModel now g).
  destruct (worstModel now g) as [w|] eqn:Ew; [|done]. cbn zeta.
  change (config (clearDismissedWarnings now' g)) with (config g).
  apply worstModel_at_risk in Ew.
  pose proof (checkModel_level_at_risk _ _ Ew) as Hl.
  rewrite (shouldShowAlert_clearDismissedWarnings now now' g _ Ht Hl).
  destruct (negb (shouldShowAlert now g (checkModel (config g) w))); [done|].
  destruct (GuardCheckResult.shouldBlock (checkModel (config g) w)).
  - unfold showBlockModal.
    change (lastBlockShown (clearDismissedWarnings now' g)) with (lastBlockShown g).
    destruct (now - lastBlockShown g <? blockCooldown)%Z; [done|]. cbn zeta.
    by destruct (bool_decide (result = Some "Proceed Anyway")).
  - destruct (GuardCheckResult.shouldWarn (checkModel (config g) w)); [|done].
    unfold showWarningModal.
    by destruct (bool_decide (result = Some "Show Details")).
Qed.

Lemma clearDismissedWarnings_keeps_decision_witness :
  (checkAndWarn 7200000 7200001 None
     (clearDismissedWarnings 7200000
        (checkAndWarn 5 6 None
           (updateSnapshot 0 (snapshotOf [modelAt "m1" (Some 10%Q)])
              (new defaultConfig))).2)).1
  = (checkAndWarn 7200000 7200001 None
       (checkAndWarn 5 6 None
          (updateSnapshot 0 (snapshotOf [modelAt "m1" (Some 10%Q)])
             (new defaultConfig))).2).1.
Proof.
  apply (clearDismissedWarnings_keeps_decision 7200000 7200000 7200001 None).
  lia.
Defined.

End QuotaGuardMore.

(** ** The settings ([config_manager.ts], class [ConfigManager]) *)

Module ConfigManagerFacts.
Import ConfigManager.

Lemma includes_true ids modelId : includes ids modelId = true ↔ modelId ∈ ids.
Proof. unfold includes. apply bool_decide_eq_true. Qed.

Lemma includes_false ids modelId : includes ids modelId = false ↔ modelId ∉ ids.
Proof. unfold includes. apply bool_decide_eq_false. Qed.

Lemma filter_other_app (modelId : string) (ids : list string) :
  List.filter (fun id => negb (bool_decide (id = modelId))) (ids ++ [modelId])
  = List.filter (fun id => negb (bool_decide (id = modelId))) ids.
Proof.
  rewrite List.filter_app. cbn [List.filter].
  rewrite bool_decide_eq_true_2 by done. cbn [negb]. apply app_nil_r.
Qed.

Lemma filter_other_idemp (modelId : string) (ids : list string) :
  List.filter (fun id => negb (bool_decide (id = modelId)))
    (List.filter (fun id => negb (bool_decide (id = modelId))) ids)
  = List.filter (fun id => negb (bool_decide (id = modelId))) ids.
Proof.
  induction ids as [|id ids IH]; [done|]. cbn [List.filter].
  destruct (negb (bool_decide (id = modelId))) eqn:E; [|done].
  cbn [List.filter]. by rewrite E, IH.
Qed.

Lemma filter_other_elem (modelId id : string) (ids : list string) :
  id ∈ List.filter (fun id => negb (bool_decide (id = modelId))) ids
  ↔ id ∈ ids ∧ id ≠ modelId.
Proof.
  rewrite list_elem_of_In, List.filter_In, <- list_elem_of_In.
  rewrite negb_true_iff, bool_decide_eq_false. done.
Qed.

(** X13.  [togglePinnedModel] returns whether the model is pinned
    afterwards, and that is the opposite of before; the other pinned ids
    stay as they were, in their order. *)
Theorem togglePinnedModel_flips modelId s :
  let before := pinnedModels (getConfig s) in
  let r := togglePinnedModel modelId s in
  let after := pinnedModels (getConfig r.2) in
  r.1 = negb (includes before modelId)
  ∧ includes after modelId = r.1
  ∧ List.filter (fun id => negb (bool_decide (id = modelId))) after
    = List.filter (fun id => negb (bool_decide (id = modelId))) before.
Proof.
  cbn zeta. unfold togglePinnedModel. cbn [fst snd].
  split; [done|].
  destruct (includes (pinnedModels (getConfig s)) modelId) eqn:E; cbn [negb].
  - unfold removePinnedModel. cbn. split.
    + apply includes_false. rewrite filter_other_elem. by intros [_ ?].
    + apply filter_other_idemp.
  - unfold addPinnedModel. rewrite E. cbn. split.
    + apply includes_true, elem_of_app. right. apply list_elem_of_here.
    + apply filter_other_app.
Qed.

(** X14.  Adding, removing or toggling a pinned model keeps a list of
    pinned ids without duplicates free of duplicates; adding an id already
    pinned changes nothing, and removing drops every occurrence. *)
Theorem pinned_models_stay_distinct modelId s :
  NoDup (pinnedModels (getConfig s)) →
  NoDup (pinnedModels (getConfig (addPinnedModel modelId s)))
  ∧ NoDup (pinnedModels (getConfig (removePinnedModel modelId s)))
  ∧ NoDup (pinnedModels (getConfig (togglePinnedModel modelId s).2))
  ∧ (modelId ∈ pinnedModels (getConfig s) → addPinnedModel modelId s = s)
  ∧ modelId ∉ pinnedModels (getConfig (removePinnedModel modelId s)).
Proof.
  intros Hnd.
  assert (Hadd : NoDup (pinnedModels (getConfig (addPinnedModel modelId s)))).
  { unfold addPinnedModel.
    destruct (includes (pinnedModels (getConfig s)) modelId) eqn:E; cbn [negb]; [done|].
    cbn. apply includes_false in E. apply NoDup_app. split; [done|].
    split; [|apply NoDup_singleton].
    intros id Hid ->%list_elem_of_singleton. done. }
  assert (Hrem : NoDup (pinnedModels (getConfig (removePinnedModel modelId s)))).
  { unfold removePinnedModel. cbn. apply NoDup_ListNoDup, List.NoDup_filter.
    by apply NoDup_ListNoDup. }
  split; [done|]. split; [done|]. split; [|split].
  - unfold togglePinnedModel. cbn [snd]. by destruct (includes _ _).
  - intros Hin. unfold addPinnedModel.
    by rewrite (proj2 (includes_true _ _) Hin).
  - unfold removePinnedModel. cbn. rewrite filter_other_elem. by intros [_ ?].
Qed.

Lemma pinned_models_stay_distinct_witness :
  let s := updatePinnedModels ["a"; "b"] noSettings in
  NoDup (pinnedModels (getConfig (addPinnedModel "c" s)))
  ∧ NoDup (pinnedModels (getConfig (removePinnedModel "c" s)))
  ∧ NoDup (pinnedModels (getConfig (togglePinnedModel "c" s).2))
  ∧ ("c" ∈ pinnedModels (getConfig s) → addPinnedModel "c" s = s)
  ∧ "c" ∉ pinnedModels (getConfig (removePinnedModel "c" s)).
Proof.
  apply (pinned_models_stay_distinct "c" (updatePinnedModels ["a"; "b"] noSettings)).
  apply (bool_decide_unpack _). vm_compute. exact I.
Defined.

(** X15.  [toggleGuard] returns the new value of [guardEnabled], the
    opposite of the one read before (true when unset), and changes no other
    setting; once the configuration handler has passed the new configuration
    to [QuotaGuard.updateConfig], the guard is active exactly when
    [toggleGuard] said so.  Toggling twice gives the first configuration
    back. *)
Theorem toggleGuard_reaches_guard s g :
  let r := toggleGuard s in
  let c := getConfig s in
  let c' := getConfig r.2 in
  r.1 = negb (guardEnabled c)
  ∧ c' = mkGravityConfig (enabled c) (warningThreshold c) (blockThreshold c)
           (pollingInterval c) r.1 (soundEnabled c) (pinnedModels c)
  ∧ QuotaGuard.isGuardActive (QuotaGuard.updateConfig c' g) = r.1
  ∧ getConfig (toggleGuard r.2).2 = c.
Proof.
  cbn zeta. unfold toggleGuard. cbn [fst snd].
  split; [reflexivity|]. split; [reflexivity|]. split; [reflexivity|].
  unfold getConfig at 1. cbn. rewrite negb_involutive.
  by destruct s as [? ? ? ? [[]|] ? ?].
Qed.

End ConfigManagerFacts.

(** ** Presentation *)

Module UiFacts.
Import Ui.

(** X16.  The icon the quota menu gives a percentage is the one of the
    level the guard gives it.  The status bar gives the same icon except
    exactly at a threshold: the two differ exactly for a positive
    percentage equal to the block threshold, or above it and equal to the
    warning threshold. *)
Theorem statusBar_icon_differs_at_thresholds percentage config :
  menuStatusIcon percentage config
  = iconOfLevel (QuotaGuard.levelOf config percentage)
  ∧ (statusBarStatusIcon percentage config ≠ menuStatusIcon percentage config
     ↔ (0 < percentage)%Q
       ∧ ((percentage == blockThreshold config)%Q
          ∨ ((blockThreshold config < percentage)%Q
             ∧ (percentage == warningThreshold config)%Q))).
Proof.
  split.
  { unfold menuStatusIcon, QuotaGuard.levelOf.
    destruct (Qleb percentage 0); [done|].
    destruct (Qleb percentage (blockThreshold config)); [done|].
    by destruct (Qleb percentage (warningThreshold config)). }
  unfold statusBarStatusIcon, menuStatusIcon.
  destruct (Qleb percentage 0) eqn:E0.
  { apply Qleb_le in E0. split; [done|]. intros [H _].
    exfalso. exact (Qlt_not_le _ _ H E0). }
  apply Qleb_nle in E0.
  destruct (Qltb percentage (blockThreshold config)) eqn:Eb.
  { apply Qltb_lt in Eb.
    assert (Qleb percentage (blockThreshold config) = true) as ->
      by by apply Qleb_le, Qlt_le_weak.
    split; [done|]. intros [_ [H|[H _]]].
    - rewrite H in Eb. exfalso. exact (Qlt_irrefl _ Eb).
    - exfalso. exact (Qlt_irrefl _ (Qlt_trans _ _ _ Eb H)). }
  apply Qltb_nlt in Eb.
  destruct (Qleb percentage (blockThreshold config)) eqn:Eb'.
  { apply Qleb_le in Eb'.
    assert (Heq : (percentage == blockThreshold config)%Q) by by apply Qle_antisym.
    split; [by intros _; split; [|left] |]. intros _.
    by destruct (Qltb percentage (warningThreshold config)). }
  apply Qleb_nle in Eb'.
  destruct (Qltb percentage (warningThreshold config)) eqn:Ew.
  { apply Qltb_lt in Ew.
    assert (Qleb percentage (warningThreshold config) = true) as ->
      by by apply Qleb_le, Qlt_le_weak.
    split; [done|]. intros [_ [H|[_ H]]].
    - rewrite H in Eb'. exfalso. exact (Qlt_irrefl _ Eb').
    - rewrite H in Ew. exfalso. exact (Qlt_irrefl _ Ew). }
  apply Qltb_nlt in Ew.
  destruct (Qleb percentage (warningThreshold config)) eqn:Ew'.
  { apply Qleb_le in Ew'.
    assert (Heq : (percentage == warningThreshold config)%Q) by by apply Qle_antisym.
    split; [|done]. intros _. split; [done|]. right. done. }
  apply Qleb_nle in Ew'.
  split; [done|]. intros [_ [H|[_ H]]].
  - rewrite H in Eb'. exfalso. exact (Qlt_irrefl _ Eb').
  - rewrite H in Ew'. exfalso. exact (Qlt_irrefl _ Ew').
Qed.

(** The tenth of a percentage, as [drawProgressBar] computes it. *)
Lemma tenth_mono p q :
  (p <= q)%Q →
  (Float64.mul (Float64.div p 100) (inject_Z 10)
   <= Float64.mul (Float64.div q 100) (inject_Z 10))%Q.
Proof.
  intros H. unfold Float64.mul, Float64.div.
  apply Float64Facts.round_mono, Qmult_le_compat_r; [|done].
  apply Float64Facts.round_mono. unfold Qdiv. apply Qmult_le_compat_r; [exact H | done].
Qed.

Lemma tenth_error p :
  (-5 <= p)%Q → (p <= 105)%Q →
  (p / 10 - Float64.pow2 (-43) <= Float64.mul (Float64.div p 100) (inject_Z 10))%Q
  ∧ (Float64.mul (Float64.div p 100) (inject_Z 10) <= p / 10 + Float64.pow2 (-43))%Q.
Proof.
  intros Hlo Hhi. unfold Float64.mul, Float64.div.
  assert (E47 : Float64.pow2 (-47) = (1 # 140737488355328)%Q) by reflexivity.
  assert (E43 : Float64.pow2 (-43) = (1 # 8796093022208)%Q) by reflexivity.
  assert (Ep : (p / 100 == p * (1 # 100))%Q) by (unfold Qdiv; reflexivity).
  assert (Ep' : (p / 10 == p * (1 # 10))%Q) by (unfold Qdiv; reflexivity).
  destruct (Float64Facts.round_error_128 (p / 100)) as [H1 H2]; [lra | lra |].
  set (d := Float64.round (p / 100)) in *.
  change (inject_Z 10) with 10%Q. rewrite E47 in H1, H2.
  destruct (Float64Facts.round_error_128 (d * 10)) as [H3 H4]; [lra | lra |].
  rewrite E47 in H3, H4. rewrite E43. lra.
Qed.

Lemma mathRound_nonneg x : (0 <= round x)%Z ↔ (-1 # 2 <= x)%Q.
Proof.
  unfold round. split; intros H.
  - assert (Hf : (inject_Z 0 <= inject_Z (Qfloor (x + (1 # 2))))%Q)
      by (by rewrite <- Zle_Qle).
    pose proof (Qfloor_le (x + (1 # 2))) as Hfl.
    change (inject_Z 0) with 0%Q in Hf. lra.
  - change 0%Z with (Qfloor 0). apply Qfloor_resp_le. lra.
Qed.

Lemma mathRound_le_10 x : (round x <= 10)%Z ↔ (x < 21 # 2)%Q.
Proof.
  unfold round. split; intros H.
  - pose proof (Qlt_floor (x + (1 # 2))) as Hfl.
    assert (Hf : (inject_Z (Qfloor (x + (1 # 2)) + 1) <= inject_Z 11)%Q)
      by (rewrite <- Zle_Qle; lia).
    change (inject_Z 11) with 11%Q in Hf. lra.
  - apply Z.lt_succ_r. apply Z.nle_gt. intros Hge.
    assert (Hf : (inject_Z 11 <= inject_Z (Qfloor (x + (1 # 2))))%Q)
      by (rewrite <- Zle_Qle; lia).
    pose proof (Qfloor_le (x + (1 # 2))) as Hfl.
    change (inject_Z 11) with 11%Q in Hf. lra.
Qed.

Lemma mathRound_bounds x :
  (x - (1 # 2) < inject_Z (round x))%Q ∧ (inject_Z (round x) <= x + (1 # 2))%Q.
Proof.
  unfold round. pose proof (Qlt_floor (x + (1 # 2))) as H1.
  pose proof (Qfloor_le (x + (1 # 2))) as H2.
  rewrite inject_Z_plus in H1. change (inject_Z 1) with 1%Q in H1. lra.
Qed.

(** X17.  For a binary64 percentage, [drawProgressBar] throws exactly
    below -5 and from 105 on (a [repeat] gets a negative count); for any
    other percentage the bar has ten cells, the filled ones first, their
    number within a half (and the rounding error of the two operations)
    of the tenth of the percentage. *)
Theorem drawProgressBar_ten_cells percentage :
  Float64.representable percentage →
  match drawProgressBar percentage with
  | None => (percentage < -5)%Q ∨ (105 <= percentage)%Q
  | Some cells =>
      (-5 <= percentage)%Q ∧ (percentage < 105)%Q
      ∧ length cells = 10%nat
      ∧ ∃ filled, (0 <= filled <= 10)%Z
          ∧ cells = replicate (Z.to_nat filled) Filled
                    ++ replicate (Z.to_nat (10 - filled)) Empty
          ∧ (percentage / 10 - (1 # 2) - Float64.pow2 (-43) < inject_Z filled)%Q
          ∧ (inject_Z filled <= percentage / 10 + (1 # 2) + Float64.pow2 (-43))%Q
  end.
Proof.
  intros Hr. unfold drawProgressBar. cbn zeta.
  set (x := Float64.mul (Float64.div percentage 100) (inject_Z 10)).
  pose proof (mathRound_nonneg x) as Hneg.
  pose proof (mathRound_le_10 x) as Hover.
  pose proof (mathRound_bounds x) as Hb.
  set (filled := round x) in *.
  assert (Hlow : (percentage < -5)%Q → (x < -1 # 2)%Q).
  { intros H. apply Float64Facts.representable_lt_m5 in H; [|done].
    eapply Qle_lt_trans; [apply (tenth_mono _ _ H)|]. by vm_compute. }
  assert (Hlow' : (-5 <= percentage)%Q → (-1 # 2 <= x)%Q).
  { intros H. eapply Qle_trans; [|apply (tenth_mono _ _ H)]. by vm_compute. }
  assert (Hhigh : (105 <= percentage)%Q → (21 # 2 <= x)%Q).
  { intros H. eapply Qle_trans; [|apply (tenth_mono _ _ H)]. by vm_compute. }
  assert (Hhigh' : (percentage < 105)%Q → (x < 21 # 2)%Q).
  { intros H. apply Float64Facts.representable_lt_105 in H; [|done].
    eapply Qle_lt_trans; [apply (tenth_mono _ _ H)|]. by vm_compute. }
  unfold repeatCell.
  destruct (filled <? 0)%Z eqn:E1.
  { apply Z.ltb_lt in E1. left. apply Qnot_le_lt. intros H.
    apply Hlow', Hneg in H. lia. }
  apply Z.ltb_ge in E1. cbn [mbind option_bind].
  destruct (10 - filled <? 0)%Z eqn:E2.
  { apply Z.ltb_lt in E2. right. apply Qnot_lt_le. intros H.
    apply Hhigh', Hover in H. lia. }
  apply Z.ltb_ge in E2. cbn [mbind option_bind].
  assert (H5 : (-5 <= percentage)%Q).
  { apply Qnot_lt_le. intros H. apply Hlow in H. apply Hneg in E1. lra. }
  assert (H105 : (percentage < 105)%Q).
  { apply Qnot_le_lt. intros H. apply Hhigh in H.
    assert (Hx : (x < 21 # 2)%Q) by (apply Hover; lia). lra. }
  split; [done|]. split; [done|]. split.
  { rewrite length_app, !length_replicate. clear -E1 E2. clearbody filled. lia. }
  exists filled. split; [clear -E1 E2; clearbody filled; lia|]. split; [done|].
  destruct (tenth_error percentage) as [He1 He2]; [lra | lra |].
  fold x in He1, He2. lra.
Qed.

(** At 50 the bar is drawn. *)
Lemma drawProgressBar_ten_cells_witness :
  Float64.representable 50
  ∧ match drawProgressBar 50 with
    | None => (50 < -5)%Q ∨ (105 <= 50)%Q
    | Some cells =>
        (-5 <= 50)%Q ∧ (50 < 105)%Q
        ∧ length cells = 10%nat
        ∧ ∃ filled, (0 <= filled <= 10)%Z
            ∧ cells = replicate (Z.to_nat filled) Filled
                      ++ replicate (Z.to_nat (10 - filled)) Empty
            ∧ (50 / 10 - (1 # 2) - Float64.pow2 (-43) < inject_Z filled)%Q
            ∧ (inject_Z filled <= 50 / 10 + (1 # 2) + Float64.pow2 (-43))%Q
    end.
Proof.
  split; [by vm_compute|]. apply (drawProgressBar_ten_cells 50). by vm_compute.
Defined.

(** The binary64 number next below 15: the tenth the program computes
    is 1.5, so two cells are filled, though the exact tenth is below
    1.5. *)
Example drawProgressBar_rounds :
  let p := (15 - Float64.pow2 (-49))%Q in
  Float64.representable p
  ∧ drawProgressBar p = Some (replicate 2 Filled ++ replicate 8 Empty)
  ∧ round (p / 10) = 1%Z.
Proof. cbv zeta. split_and!; by vm_compute. Qed.

(** X18.  A model whose percentage is absent is shown as 0 with the error
    icon, in the status bar when it is pinned and in the menu with an
    empty bar, while the guard reads it as 100: with a warning threshold
    below 100 the guard does not count it at risk. *)
Theorem absent_percentage_is_shown_as_zero now snapshot guardState config model :
  ModelQuotaInfo.remainingPercentage model = None →
  model ∈ models snapshot →
  (ModelQuotaInfo.modelId model ∈ pinnedModels config →
     (IconError, 0%Q) ∈ statusBarParts snapshot guardState config)
  ∧ (ConfigManager.includes (pinnedModels config) (ModelQuotaInfo.modelId model),
     IconError, Some (replicate 10 Empty), 0%Q) ∈ menuModelRows snapshot config
  ∧ ((warningThreshold config < 100)%Q →
       model ∉ GuardState.modelsAtRisk
                 (QuotaGuard.analyzeQuotaState now config snapshot)).
Proof.
  intros Hnone Hin. split; [|split].
  - intros Hpin. unfold statusBarParts, modelsToShow.
    assert ((0 <? Z.of_nat (length (pinnedModels config)))%Z = true) as ->.
    { apply Z.ltb_lt. destruct (pinnedModels config); [by apply elem_of_nil in Hpin|].
      cbn [length]. lia. }
    apply list_elem_of_fmap. exists model. split.
    + unfold shownPercentage. by rewrite Hnone.
    + apply list_elem_of_In, List.filter_In. split; [by apply list_elem_of_In|].
      by apply bool_decide_eq_true.
  - unfold menuModelRows. apply list_elem_of_fmap. exists model. split; [|done].
    unfold shownPercentage. by rewrite Hnone.
  - intros Hw Hrisk.
    rewrite QuotaGuardFacts.analyzeQuotaState_modelsAtRisk in Hrisk.
    apply list_elem_of_In, List.filter_In in Hrisk as [_ Hle].
    apply Qleb_le in Hle. unfold QuotaGuard.pctOf in Hle. rewrite Hnone in Hle.
    exact (Qlt_not_le _ _ Hw Hle).
Qed.

Lemma absent_percentage_is_shown_as_zero_witness :
  let config := mkGravityConfig true 20 2 120000 true true ["m1"] in
  let snapshot := QuotaGuard.snapshotOf [QuotaGuard.modelAt "m1" None] in
  let guardState := QuotaGuard.analyzeQuotaState 0 config snapshot in
  let model := QuotaGuard.modelAt "m1" None in
  (ModelQuotaInfo.modelId model ∈ pinnedModels config →
     (IconError, 0%Q) ∈ statusBarParts snapshot guardState config)
  ∧ (ConfigManager.includes (pinnedModels config) (ModelQuotaInfo.modelId model),
     IconError, Some (replicate 10 Empty), 0%Q) ∈ menuModelRows snapshot config
  ∧ ((warningThreshold config < 100)%Q →
       model ∉ GuardState.modelsAtRisk
                 (QuotaGuard.analyzeQuotaState 0 config snapshot)).
Proof.
  apply (absent_percentage_is_shown_as_zero 0
           (QuotaGuard.snapshotOf [QuotaGuard.modelAt "m1" None])
           (QuotaGuard.analyzeQuotaState 0
              (mkGravityConfig true 20 2 120000 true true ["m1"])
              (QuotaGuard.snapshotOf [QuotaGuard.modelAt "m1" None]))
           (mkGravityConfig true 20 2 120000 true true ["m1"])
           (QuotaGuard.modelAt "m1" None)).
  - reflexivity.
  - apply list_elem_of_here.
Defined.

End UiFacts.

(** ** The alert sound ([sound.ts]) *)

Module SoundFacts.
Import Sound.

Lemma playAll_cons platform now type calls last :
  playAll platform ((now, type) :: calls) last
  = let r := playAlertSound platform now type last in
    let rest := playAll platform calls r.2 in
    (match r.1 with Some _ => now :: rest.1 | None => rest.1 end, rest.2).
Proof.
  cbn [playAll]. destruct (playAlertSound _ _ _ _) as [played l].
  by destruct (playAll _ _ _).
Qed.

(** X19.  Whatever the calls of [playAlertSound] and their clocks, two
    sounds played one after the other are at least ten seconds apart, the
    first one at least ten seconds after the initial [lastSoundTime]; every
    sound is played at the clock of one of the calls, and on a platform
    without sound commands none is played and [lastSoundTime] stays. *)
Theorem sounds_are_spaced platform calls lastSoundTime :
  let r := playAll platform calls lastSoundTime in
  spaced SOUND_COOLDOWN_MS lastSoundTime r.1
  ∧ r.1 ⊆ calls.*1
  ∧ (SOUND_COMMANDS platform = None → r = ([], lastSoundTime)).
Proof.
  cbn zeta. revert lastSoundTime.
  induction calls as [|[now type] calls IH]; intros last.
  - cbn. split; [done|]. split; [done|]. done.
  - rewrite playAll_cons. cbn zeta. unfold playAlertSound.
    destruct (now - last <? SOUND_COOLDOWN_MS)%Z eqn:E; cbn [fst snd].
    + destruct (IH last) as (H1 & H2 & H3). split; [done|]. split.
      * cbn [fmap list_fmap fst]. intros t Ht. apply list_elem_of_further. by apply H2.
      * intros Hn. rewrite (H3 Hn). done.
    + apply Z.ltb_ge in E.
      destruct (SOUND_COMMANDS platform) as [commands|] eqn:Ec; cbn [fst snd].
      * destruct (IH now) as (H1 & H2 & H3). split; [|split; [|done]].
        -- cbn [spaced]. split; [lia | done].
        -- cbn [fmap list_fmap fst]. intros t [->|Ht]%elem_of_cons.
           ++ apply list_elem_of_here.
           ++ apply list_elem_of_further. by apply H2.
      * destruct (IH last) as (H1 & H2 & H3). split; [done|]. split.
        -- cbn [fmap list_fmap fst]. intros t Ht. apply list_elem_of_further. by apply H2.
        -- intros _. by rewrite (H3 eq_refl).
Qed.

End SoundFacts.

(** ** Process detection, continued *)

Module ProcessFinderMore.
Import ProcessFinder ParserNotions ProcessFinderFacts.

Section Facts.
Context {strategy : PlatformStrategy}.
Variable processName : string.
Variable env : Env.
Variable isJSON : string → bool.

#[local] Abbreviation findWorkingPort := (findWorkingPort env isJSON).
#[local] Abbreviation getListeningPorts := (getListeningPorts env).
#[local] Abbreviation attemptOnce := (attemptOnce processName env isJSON).
#[local] Abbreviation detectLoop := (detectLoop processName env isJSON).
#[local] Abbreviation detectProcessInfo := (detectProcessInfo processName env isJSON).
#[local] Abbreviation answers := (answers isJSON).

#[local] Abbreviation failedProbe := (failedProbe isJSON).

Lemma findWorkingPort_some ports csrfToken : ∀ tr port tr',
  findWorkingPort ports csrfToken tr = (Some port, tr') →
  ∃ probes body,
    tr' = tr ++ probes ++ [EvProbe port csrfToken (ProbeResponse 200 body)]
    ∧ isJSON body = true
    ∧ port ∈ ports
    ∧ Forall (failedProbe csrfToken) probes.
Proof.
  induction ports as [|p ports IH]; intros tr port tr'; [done|].
  rewrite findWorkingPort_cons. cbn zeta.
  destruct (answers (httpsRequest env tr p csrfToken)) eqn:Ea.
  - intros [= <- <-]. apply answers_true in Ea as (body & -> & Hjson).
    exists [], body.
    split; [done|]. split; [done|]. split; [apply list_elem_of_here | constructor].
  - intros H. apply IH in H as (probes & body & -> & Hr & Hin & Hall).
    exists (EvProbe p csrfToken (httpsRequest env tr p csrfToken) :: probes), body.
    split; [by rewrite <- app_assoc|]. split; [done|].
    split; [by apply list_elem_of_further|].
    constructor; [|done]. apply answers_false in Ea. by eexists _, _.
Qed.

Lemma attemptOnce_prefix tr : tr `prefix_of` (attemptOnce tr).2.
Proof.
  destruct (attemptOnce_events processName env isJSON tr) as (seg & -> & _).
  by apply prefix_app_r.
Qed.

Lemma detectLoop_some fuel : ∀ attempt maxRetries tr info tr',
  detectLoop fuel attempt maxRetries tr = (Done (Some info), tr') →
  ∃ before, tr `prefix_of` before ∧ attemptOnce before = (Some info, tr').
Proof.
  induction fuel as [|fuel IH]; intros attempt maxRetries tr info tr'; cbn [ProcessFinder.detectLoop].
  - by destruct (attempt <? maxRetries)%Z.
  - destruct (attempt <? maxRetries)%Z; [|done].
    unfold mbind, M_bind.
    destruct (attemptOnce tr) as [[r|] tr1] eqn:Ea.
    + intros [= <- <-]. by exists tr.
    + pose proof (attemptOnce_prefix tr) as Hp. rewrite Ea in Hp. cbn [snd] in Hp.
      destruct (attempt <? maxRetries - 1)%Z; unfold sleep, mret, M_ret.
      * intros H. apply IH in H as (before & Hpre & H).
        exists before. split; [|done].
        etrans; [exact Hp|]. etrans; [|exact Hpre]. by apply prefix_app_r.
      * intros H. apply IH in H as (before & Hpre & H).
        exists before. split; [|done]. by etrans.
Qed.

(** X20.  When [detectProcessInfo] returns a process, the events end with
    the attempt that found it: the process-list command, whose output
    parses to the returned extension port and token; the port-list command
    for the parsed pid; probes that did not answer; and last the probe of
    the returned connect port, sent with the returned token and answered
    with status 200 and a JSON body.  The connect port is one of the
    listening ports parsed and is not 0. *)
Theorem detected_process_was_probed maxRetries tr info tr' :
  detectProcessInfo maxRetries tr = (Done (Some info), tr') →
  ∃ before stdout stderr parsed portsOut portsErr probes body,
    tr' = before
          ++ [EvExec ProcessList (getProcessListCommand processName)
                (ExecOk stdout stderr);
              EvExec PortList (getPortListCommand (ParsedProcessInfo.pid parsed))
                (ExecOk portsOut portsErr)]
          ++ probes
          ++ [EvProbe (ProcessInfo.connectPort info) (ProcessInfo.csrfToken info)
                (ProbeResponse 200 body)]
    ∧ tr `prefix_of` before
    ∧ parseProcessInfo stdout = Some parsed
    ∧ ProcessInfo.extensionPort info = ParsedProcessInfo.extensionPort parsed
    ∧ ProcessInfo.csrfToken info = ParsedProcessInfo.csrfToken parsed
    ∧ ProcessInfo.connectPort info
        ∈ parseListeningPorts portsOut (ParsedProcessInfo.pid parsed)
    ∧ ProcessInfo.connectPort info ≠ 0%Z
    ∧ isJSON body = true
    ∧ Forall (failedProbe (ProcessInfo.csrfToken info)) probes.
Proof.
  intros H. apply detectLoop_some in H as (before & Hpre & H).
  rewrite attemptOnce_unfold in H. cbn zeta in H.
  set (cmd := getProcessListCommand processName) in *.
  destruct (execAsync env before cmd) as [stdout stderr|msg] eqn:Ex; [|done].
  destruct (parseProcessInfo stdout) as [parsed|] eqn:Ep; [|done].
  set (tr1 := before ++ [EvExec ProcessList cmd (ExecOk stdout stderr)]) in *.
  unfold ProcessFinder.getListeningPorts, ProcessFinder.exec, mbind, M_bind in H.
  set (pcmd := getPortListCommand (ParsedProcessInfo.pid parsed)) in *.
  destruct (execAsync env tr1 pcmd) as [portsOut portsErr|msg] eqn:Ey;
    unfold mret, M_ret in H; cbn [fst snd] in H; [|done].
  destruct (0 <? Z.of_nat (length (parseListeningPorts portsOut _)))%Z; [|done].
  destruct (findWorkingPort _ _ _) as [[validPort|] tr2] eqn:Ef; cbn [fst snd] in H; [|done].
  destruct (validPort =? 0)%Z eqn:Ez; [done|]. apply Z.eqb_neq in Ez.
  injection H as <- <-.
  apply findWorkingPort_some in Ef as (probes & body & -> & Hr & Hin & Hall).
  exists before, stdout, stderr, parsed, portsOut, portsErr, probes, body.
  cbn [ProcessInfo.connectPort ProcessInfo.csrfToken ProcessInfo.extensionPort].
  split; [|done].
  unfold tr1. by rewrite <- !app_assoc.
Qed.

End Facts.

Lemma detected_process_was_probed_witness :
  ∃ before stdout stderr parsed portsOut portsErr probes body,
    (detectProcessInfo
       (strategy := PlatformStrategies.UnixStrategy PlatformStrategies.Unix.linux)
       Samples.processName Samples.flakyEnv Samples.isEmptyObject 3 []).2
    = before
      ++ [EvExec ProcessList
            (getProcessListCommand
               (PlatformStrategy := PlatformStrategies.UnixStrategy PlatformStrategies.Unix.linux)
               Samples.processName)
            (ExecOk stdout stderr);
          EvExec PortList
            (getPortListCommand
               (PlatformStrategy := PlatformStrategies.UnixStrategy PlatformStrategies.Unix.linux)
               (ParsedProcessInfo.pid parsed))
            (ExecOk portsOut portsErr)]
      ++ probes
      ++ [EvProbe 42101 "0a1b2c3d-1111-2222-3333-444455556666"
            (ProbeResponse 200 body)]
    ∧ [] `prefix_of` before
    ∧ parseProcessInfo
        (PlatformStrategy := PlatformStrategies.UnixStrategy PlatformStrategies.Unix.linux)
        stdout = Some parsed
    ∧ 42100%Z = ParsedProcessInfo.extensionPort parsed
    ∧ "0a1b2c3d-1111-2222-3333-444455556666" = ParsedProcessInfo.csrfToken parsed
    ∧ 42101%Z
        ∈ parseListeningPorts
            (PlatformStrategy := PlatformStrategies.UnixStrategy PlatformStrategies.Unix.linux)
            portsOut (ParsedProcessInfo.pid parsed)
    ∧ 42101%Z ≠ 0%Z
    ∧ Samples.isEmptyObject body = true
    ∧ Forall (failedProbe Samples.isEmptyObject "0a1b2c3d-1111-2222-3333-444455556666")
             probes.
Proof.
  apply (detected_process_was_probed
           (strategy := PlatformStrategies.UnixStrategy PlatformStrategies.Unix.linux)
           Samples.processName Samples.flakyEnv Samples.isEmptyObject 3 []
           (ProcessInfo.mk 42100 42101 "0a1b2c3d-1111-2222-3333-444455556666")).
  vm_compute. reflexivity.
Defined.

End ProcessFinderMore.

(** ** The platform strategies, continued *)

Module PlatformStrategiesMore.
Import PlatformStrategies ParserNotions PlatformStrategiesFacts.

(** *** What the groups capture *)

Section Captures.
Variable ignoreCase : bool.

#[local] Abbreviation matchHere := (matchHere ignoreCase).
#[local] Abbreviation search := (search ignoreCase).
#[local] Abbreviation classMatches := (classMatches ignoreCase).

(** A capture of [(p+)]: not empty, every character in the class. *)
#[local] Abbreviation captured :=
  (fun (p : CharClass) (t : list ascii) =>
     t ≠ [] ∧ Forall (fun c => classMatches p c = true) t).

Lemma matchHere_plus_consumed p k caps : ∀ s res,
  matchHere (PlusCls p) k s caps = Some res →
  ∃ t s', s = t ++ s' ∧ captured p t ∧ k s' caps = Some res.
Proof.
  cbn [PlatformStrategies.matchHere].
  induction s as [|x s IHs]; intros res; [done|].
  destruct (PlatformStrategies.classMatches _ p x) eqn:Ex; [|done].
  match goal with |- context [match ?f s with _ => _ end] => destruct (f s) eqn:E end.
  - intros [= <-]. destruct (IHs _ eq_refl) as (t & s' & -> & [_ Ht] & Hk).
    exists (x :: t), s'. split; [done|]. split; [|done].
    split; [done | by constructor].
  - intros H. exists [x], s. split; [done|]. split; [|done].
    split; [done | by repeat constructor].
Qed.

Lemma matchHere_captures r : ∀ k s caps res ps,
  groupClasses r = Some ps →
  matchHere r k s caps = Some res →
  ∃ s' new, k s' (caps ++ new) = Some res ∧ Forall2 captured ps new.
Proof.
  induction r as [c|p|c|p|p|n p|r IH|r1 IH1 r2 IH2|]; intros k s caps res ps Hps H.
  1-6,9: injection Hps as <-;
    apply matchHere_continues in H as (s' & caps' & H & _ & Hc);
    rewrite (Hc eq_refl) in H;
    exists s', []; rewrite app_nil_r; split; [done | constructor].
  - destruct r as [| | |p| | | | |]; try discriminate. injection Hps as <-.
    cbn [PlatformStrategies.matchHere] in H.
    change (matchHere (PlusCls p)
              (fun s' caps' => k s' (caps' ++ [take (length s - length s') s])) s caps
            = Some res) in H.
    apply matchHere_plus_consumed in H as (t & s' & -> & Ht & H).
    rewrite length_app, Nat.add_sub, take_app_length in H.
    exists s', [t]. split; [done|]. constructor; [done | constructor].
  - cbn [groupClasses] in Hps.
    destruct (groupClasses r1) as [ps1|]; [|done].
    destruct (groupClasses r2) as [ps2|]; [|done].
    injection Hps as <-. rewrite matchHere_cat in H.
    apply (IH1 _ _ _ _ ps1) in H as (s1 & new1 & H & H1); [|done].
    apply (IH2 _ _ _ _ ps2) in H as (s2 & new2 & H & H2); [|done].
    exists s2, (new1 ++ new2). rewrite app_assoc. split; [done|].
    by apply Forall2_app.
Qed.

Lemma search_captures r s res ps :
  groupClasses r = Some ps → search r s = Some res → Forall2 captured ps res.
Proof.
  intros Hps (s' & H)%search_matchHere.
  apply (matchHere_captures _ _ _ _ _ ps) in H as (? & new & [= <-] & Hnew); done.
Qed.

End Captures.

(** *** Numbers and tokens *)

Lemma digits_isDigit ignoreCase c : classMatches ignoreCase digits c = isDigit c.
Proof. cbn. apply orb_false_r. Qed.

Lemma hexDash_isTokenChar c : classMatches true hexDash c = isTokenChar c.
Proof. destruct c as [[] [] [] [] [] [] [] []]; reflexivity. Qed.

Lemma decimal_nonneg ds : (0 <= decimal ds)%Z.
Proof.
  unfold decimal.
  assert (H : ∀ acc, (0 <= acc)%Z →
            (0 <= fold_left (fun acc d => acc * 10 + digitValue d) ds acc)%Z).
  { induction ds as [|d ds IH]; intros acc Hacc; cbn [fold_left]; [done|].
    apply IH. unfold digitValue. lia. }
  by apply H.
Qed.

Lemma parseInt_digits d ds :
  isDigit d = true → Forall (fun c => isDigit c = true) ds →
  parseInt (d :: ds) = Some (decimal (d :: ds)).
Proof.
  intros Hd Hds.
  assert (Htw : takeWhile isDigit ds = ds).
  { induction Hds as [|c ds Hc _ IH]; cbn; [done|]. by rewrite Hc, IH. }
  assert (Hs : isSpace d = false).
  { destruct d as [[] [] [] [] [] [] [] []]; first [discriminate Hd | reflexivity]. }
  assert (Hsign : match d :: ds with
                  | "-"%char :: s' => (true, s')
                  | "+"%char :: s' => (false, s')
                  | _ => (false, d :: ds)
                  end = (false, d :: ds)).
  { destruct d as [[] [] [] [] [] [] [] []]; first [discriminate Hd | reflexivity]. }
  unfold parseInt, trimStart. cbn [dropWhile]. rewrite Hs, Hsign.
  cbn [takeWhile]. by rewrite Hd, Htw.
Qed.

Lemma captured_digits ignoreCase t :
  t ≠ [] → Forall (fun c => classMatches ignoreCase digits c = true) t →
  ∃ n, parseInt t = Some n ∧ (0 <= n)%Z.
Proof.
  intros Hne Hall. destruct t as [|d ds]; [done|].
  apply Forall_cons in Hall as [Hd Hds]. rewrite digits_isDigit in Hd.
  exists (decimal (d :: ds)). split; [|apply decimal_nonneg].
  apply parseInt_digits; [done|].
  eapply Forall_impl; [exact Hds|]. intros c Hc.
  rewrite <- (digits_isDigit ignoreCase c). exact Hc.
Qed.

Lemma portMatch_port cmd pm :
  portMatch cmd = Some pm → (0 <= portOf pm)%Z.
Proof.
  unfold portMatch.
  assert (H : search false reExtensionPort cmd = Some pm
              ∨ search false reGrpcPort cmd = Some pm → (0 <= portOf pm)%Z).
  { intros [H|H];
      apply (search_captures false _ _ _ [digits]) in H; try reflexivity;
      apply Forall2_cons_inv_l in H as (t & rest & [Hne Hall] & ->%Forall2_nil_inv_l & ->);
      destruct (captured_digits false t Hne Hall) as (n & Hn & Hpos);
      unfold portOf, group; cbn; by rewrite Hn. }
  destruct (search false reExtensionPort cmd) as [m|]; cbn [orElse].
  - intros [= <-]. apply H. by left.
  - intros Hm. apply H. by right.
Qed.

Lemma uuidPattern_tokenChars t :
  uuidShaped t → Forall (fun c => isTokenChar c = true) t.
Proof.
  intros [Hlen Hm].
  assert (Hpat : Forall (fun f : ascii → bool => ∀ c, f c = true → isTokenChar c = true)
                   uuidPattern).
  { unfold uuidPattern. cbn [replicate app].
    assert (Hh : ∀ c, isHexDigit c = true → isTokenChar c = true).
    { intros c Hc. unfold isTokenChar. by rewrite Hc. }
    assert (Hd : ∀ c, isDash c = true → isTokenChar c = true).
    { intros c Hc. unfold isTokenChar. rewrite Hc. apply orb_true_r. }
    repeat (constructor; [first [exact Hh | exact Hd]|]). constructor. }
  assert (Hlen' : length t = length uuidPattern) by (by rewrite Hlen).
  clear Hlen. revert t Hm Hlen'.
  induction Hpat as [|f pat Hf _ IH]; intros t Hm Hlen.
  - destruct t; [constructor | done].
  - destruct t as [|c t]; [done|]. cbn in Hm. apply andb_true_iff in Hm as [Hc Hm].
    constructor; [by apply Hf|]. apply IH; [done|]. cbn in Hlen. lia.
Qed.

(** The token matched by any of the three expressions is made of
    hexadecimal digits and dashes. *)
Lemma token_chars re s m :
  re ∈ [reCsrfToken; reApiServerUrl; reUuid] →
  search true re s = Some m →
  Forall (fun c => isTokenChar c = true) (group 1 m).
Proof.
  assert (Hcap : ∀ re, groupClasses re = Some [hexDash] →
            search true re s = Some m →
            Forall (fun c => isTokenChar c = true) (group 1 m)).
  { intros re' Hg H. apply (search_captures true _ _ _ [hexDash]) in H; [|done].
    apply Forall2_cons_inv_l in H as (t & rest & [_ Hall] & _ & ->). cbn.
    eapply Forall_impl; [exact Hall|]. intros c Hc. by rewrite <- hexDash_isTokenChar. }
  rewrite !elem_of_cons. intros [->|[->|[->|H]]].
  - by apply Hcap.
  - by apply Hcap.
  - intros (pre & t & (_ & Hshape & _) & ->)%search_reUuid. cbn.
    by apply uuidPattern_tokenChars.
  - by apply elem_of_nil in H.
Qed.

Lemma text_nonempty t : t ≠ [] → text t ≠ "".
Proof. by destruct t. Qed.

Lemma chars_text t : chars (text t) = t.
Proof. apply list_ascii_of_string_of_list_ascii. Qed.

Lemma firstOf_token cmd tries m :
  tries ⊆ [reCsrfToken; reApiServerUrl; reUuid] →
  firstOf (map (fun re => search true re cmd) tries) = Some m →
  group 1 m ≠ [] ∧ Forall (fun c => isTokenChar c = true) (group 1 m).
Proof.
  induction tries as [|re tries IH]; intros Hsub; cbn [map firstOf]; [done|].
  destruct (search true re cmd) as [m'|] eqn:E.
  - intros [= <-].
    assert (Hin : re ∈ [reCsrfToken; reApiServerUrl; reUuid]).
    { apply Hsub, list_elem_of_here. }
    split; [by eapply token_nonempty | by eapply token_chars].
  - apply IH. intros x Hx. apply Hsub. by apply list_elem_of_further.
Qed.

Lemma Windows_parseProcessInfo_pid stdout info :
  Windows.parseProcessInfo stdout = Some info →
  ∃ cmd pid, pid ≠ 0%Z ∧ Windows.extractFromCommandLine cmd pid = Some info.
Proof.
  unfold Windows.parseProcessInfo.
  destruct (fold_left _ _ _) as [commandLine pid].
  destruct commandLine as [|c cmd]; [done|]. destruct pid as [pid|]; [|done].
  destruct (pid =? 0)%Z eqn:E; [done|]. apply Z.eqb_neq in E. eauto.
Qed.

(** X21.  Whatever either variant parses out of a process list is well
    formed: the token is not empty and made of hexadecimal digits and
    dashes only, the extension port is not negative, and on Windows the
    pid is a number other than 0. *)
Theorem parsed_process_info_is_well_formed stdout info :
  Windows.parseProcessInfo stdout = Some info
  ∨ Unix.parseProcessInfo stdout = Some info →
  ParsedProcessInfo.csrfToken info ≠ ""
  ∧ Forall (fun c => isTokenChar c = true) (chars (ParsedProcessInfo.csrfToken info))
  ∧ (0 <= ParsedProcessInfo.extensionPort info)%Z
  ∧ (Windows.parseProcessInfo stdout = Some info →
       ∃ pid, ParsedProcessInfo.pid info = Some pid ∧ pid ≠ 0%Z).
Proof.
  intros H.
  assert (Hshape : ∃ cmd pid pm m tries,
            tries ⊆ [reCsrfToken; reApiServerUrl; reUuid]
            ∧ portMatch cmd = Some pm
            ∧ firstOf (map (fun re => search true re cmd) tries) = Some m
            ∧ info = ParsedProcessInfo.mk pid (portOf pm) (text (group 1 m))).
  { destruct H as [H|H].
    - apply Windows_parseProcessInfo_some in H as (cmd & pid & H).
      rewrite extractFromCommandLine_order in H.
      destruct (portMatch cmd) as [pm|] eqn:Ep; [|done]. cbn [mbind option_bind] in H.
      destruct (firstOf _) as [m|] eqn:Em; [|done]. injection H as <-.
      exists cmd, (Some pid), pm, m, [reCsrfToken; reApiServerUrl; reUuid]. done.
    - apply Unix_parseProcessInfo_some in H as (line & _ & H).
      rewrite parseProcessLine_order in H. cbn zeta in H.
      destruct (length _ <? 11)%nat; [done|].
      destruct (portMatch _) as [pm|] eqn:Ep; [|done]. cbn [mbind option_bind] in H.
      destruct (firstOf _) as [m|] eqn:Em; [|done]. injection H as <-.
      eexists _, _, pm, m, [reCsrfToken; reUuid].
      split; [|done].
      intros x [->|[->|Hx]%elem_of_cons]%elem_of_cons;
        [apply list_elem_of_here
        | do 2 apply list_elem_of_further; apply list_elem_of_here
        | by apply elem_of_nil in Hx]. }
  destruct Hshape as (cmd & pid & pm & m & tries & Hsub & Hp & Hm & ->).
  destruct (firstOf_token cmd tries m Hsub Hm) as [Hne Hall].
  cbn [ParsedProcessInfo.csrfToken ParsedProcessInfo.extensionPort ParsedProcessInfo.pid].
  split; [by apply text_nonempty|]. split; [by rewrite chars_text|].
  split; [by eapply portMatch_port|].
  intros (cmd' & pid' & Hz & He)%Windows_parseProcessInfo_pid.
  rewrite extractFromCommandLine_order in He.
  destruct (portMatch cmd') as [pm'|]; [|done]. cbn [mbind option_bind] in He.
  destruct (firstOf [search true reCsrfToken cmd'; _; _]) as [m'|]; [|done].
  injection He as <- _ _. by exists pid'.
Qed.

Lemma parsed_process_info_is_well_formed_witness :
  let info := ParsedProcessInfo.mk (Some 4321%Z) 42100
                "0a1b2c3d-1111-2222-3333-444455556666" in
  ParsedProcessInfo.csrfToken info ≠ ""
  ∧ Forall (fun c => isTokenChar c = true) (chars (ParsedProcessInfo.csrfToken info))
  ∧ (0 <= ParsedProcessInfo.extensionPort info)%Z
  ∧ (Windows.parseProcessInfo Samples.psOutput = Some info →
       ∃ pid, ParsedProcessInfo.pid info = Some pid ∧ pid ≠ 0%Z).
Proof.
  apply (parsed_process_info_is_well_formed Samples.psOutput
           (ParsedProcessInfo.mk (Some 4321%Z) 42100
              "0a1b2c3d-1111-2222-3333-444455556666")).
  right. vm_compute. reflexivity.
Defined.

(** *** Listening ports *)

Lemma dedupe_spec ports : ∀ seen,
  NoDup (dedupe seen ports)
  ∧ ∀ x, x ∈ dedupe seen ports ↔ x ∈ ports ∧ x ∉ seen.
Proof.
  induction ports as [|port ports IH]; intros seen; cbn [dedupe].
  - split; [constructor|]. intros x. split; [by intros ?%elem_of_nil|].
    by intros [?%elem_of_nil _].
  - destruct (bool_decide (port ∈ seen)) eqn:E.
    + apply bool_decide_eq_true in E. destruct (IH seen) as [Hnd Hel].
      split; [done|]. intros x. rewrite Hel, elem_of_cons. split; [tauto|].
      intros [[->|Hx] Hs]; [done | tauto].
    + apply bool_decide_eq_false in E. destruct (IH (port :: seen)) as [Hnd Hel].
      split.
      * constructor; [|done]. rewrite Hel. intros [_ Hn]. apply Hn, list_elem_of_here.
      * intros x. rewrite !elem_of_cons, Hel, elem_of_cons.
        destruct (decide (x = port)) as [->|Hne]; [tauto|]. tauto.
Qed.

Lemma captured_port ignoreCase re line m port :
  (∃ rest, groupClasses re = Some (digits :: rest)) →
  search ignoreCase re line = Some m →
  parseInt (group 1 m) = Some port → (0 <= port)%Z.
Proof.
  intros [rest Hg] Hm Hp.
  apply (search_captures ignoreCase _ _ _ _ Hg) in Hm.
  apply Forall2_cons_inv_l in Hm as (t & more & [Hne Hall] & _ & ->).
  destruct (captured_digits ignoreCase t Hne Hall) as (n & Hn & Hpos).
  cbn in Hp. rewrite Hn in Hp. by injection Hp as <-.
Qed.

(** X22.  The listening ports either variant returns are pairwise
    distinct and not negative.  The Windows variant returns none when the
    pid is not a number; the Unix variant does not look at the pid. *)
Theorem listening_ports_are_distinct stdout pid :
  NoDup (Windows.parseListeningPorts stdout pid)
  ∧ NoDup (Unix.parseListeningPorts stdout pid)
  ∧ Forall (fun port => (0 <= port)%Z) (Windows.parseListeningPorts stdout pid)
  ∧ Forall (fun port => (0 <= port)%Z) (Unix.parseListeningPorts stdout pid)
  ∧ Windows.parseListeningPorts stdout None = []
  ∧ Unix.parseListeningPorts stdout pid = Unix.parseListeningPorts stdout None.
Proof.
  split; [apply dedupe_spec|]. split; [apply dedupe_spec|].
  split; [|split; [|split; [|done]]].
  - apply Forall_forall. intros port Hin.
    apply dedupe_spec in Hin as [Hin _].
    apply list_elem_of_omap in Hin as (line & _ & Hl).
    destruct (search true reNetstatWindows line) as [m|] eqn:Em; [|done].
    destruct (bool_decide _); [|done].
    eapply (captured_port true reNetstatWindows); [by eexists | exact Em | exact Hl].
  - apply Forall_forall. intros port Hin.
    apply dedupe_spec in Hin as [Hin _].
    apply list_elem_of_omap in Hin as (line & _ & Hl).
    destruct (search true reLsof line) as [m|] eqn:E1; cbn [orElse mbind option_bind] in Hl.
    { eapply (captured_port true reLsof); [by eexists | exact E1 | exact Hl]. }
    destruct (search false reLsofName line) as [m|] eqn:E2; cbn [orElse mbind option_bind] in Hl.
    { eapply (captured_port false reLsofName); [by eexists | exact E2 | exact Hl]. }
    destruct (search false reSs line) as [m|] eqn:E3; cbn [orElse mbind option_bind] in Hl.
    { eapply (captured_port false reSs); [by eexists | exact E3 | exact Hl]. }
    destruct (search true reNetstat line) as [m|] eqn:E4; cbn [orElse mbind option_bind] in Hl;
      [|done].
    eapply (captured_port true reNetstat); [by eexists | exact E4 | exact Hl].
  - unfold Windows.parseListeningPorts. cbn zeta.
    assert (E : ∀ lines,
              omap (fun line =>
                      match search true reNetstatWindows line with
                      | Some m =>
                          if bool_decide (is_Some (@None Z) ∧ parseInt (group 2 m) = None)
                          then parseInt (group 1 m) else None
                      | None => None
                      end) lines = []).
    { induction lines as [|l lines IH]; [done|]. cbn [omap list_omap].
      destruct (search true reNetstatWindows l) as [m|]; [|exact IH].
      rewrite bool_decide_eq_false_2; [exact IH|]. intros [[? ?] _]. done. }
    by rewrite E.
Qed.

(** *** Which process is parsed *)

Lemma startsWith_ProcessId line :
  startsWith (chars "ProcessId=") line = true →
  startsWith (chars "CommandLine=") line = false.
Proof.
  unfold startsWith. rewrite bool_decide_eq_true, bool_decide_eq_false.
  destruct line as [|c line]; [done|]. cbn. intros [= -> _]. done.
Qed.

Lemma fold_scanLine lines : ∀ commandLine pid,
  fold_left Windows.scanLine lines (commandLine, pid)
  = (from_option (fun l => trim (drop 12 l)) commandLine
       (last (List.filter (startsWith (chars "CommandLine=")) lines)),
     from_option (fun l => parseInt (trim (drop 10 l))) pid
       (last (List.filter (startsWith (chars "ProcessId=")) lines))).
Proof.
  induction lines as [|line lines IH]; intros commandLine pid; [done|].
  cbn [fold_left List.filter]. unfold Windows.scanLine at 2.
  destruct (startsWith (chars "CommandLine=") line) eqn:Ec.
  - assert (startsWith (chars "ProcessId=") line = false) as ->.
    { destruct (startsWith (chars "ProcessId=") line) eqn:Ep; [|done].
      apply startsWith_ProcessId in Ep. congruence. }
    rewrite IH, last_cons. by destruct (last _).
  - destruct (startsWith (chars "ProcessId=") line) eqn:Ep.
    + rewrite IH, last_cons. by destruct (last (List.filter (startsWith (chars "ProcessId=")) lines)).
    + by rewrite IH.
Qed.

(** X23.  When the process list names several processes, the Unix
    variant parses the first line that parses, and the Windows variant the
    last [CommandLine=] line together with the last [ProcessId=] line
    (no result when either is missing, when the command line is empty, or
    when the pid is 0 or not a number). *)
Theorem which_process_is_parsed stdout :
  let lines := nonBlankLines (chars stdout) in
  Unix.parseProcessInfo stdout = head (omap Unix.parseProcessLine lines)
  ∧ Windows.parseProcessInfo stdout
    = (c ← last (List.filter (startsWith (chars "CommandLine=")) lines);
       p ← last (List.filter (startsWith (chars "ProcessId=")) lines);
       pid ← parseInt (trim (drop 10 p));
       let commandLine := trim (drop 12 c) in
       if bool_decide (commandLine = []) || (pid =? 0)%Z then None
       else Windows.extractFromCommandLine commandLine pid).
Proof.
  cbn zeta. split.
  - unfold Unix.parseProcessInfo.
    induction (nonBlankLines (chars stdout)) as [|line lines IH]; [done|].
    cbn [omap list_omap]. by destruct (Unix.parseProcessLine line).
  - unfold Windows.parseProcessInfo. rewrite fold_scanLine.
    destruct (last (List.filter (startsWith (chars "CommandLine=")) _)) as [c|];
      cbn [from_option mbind option_bind]; [|done].
    destruct (last (List.filter (startsWith (chars "ProcessId=")) _)) as [p|];
      cbn [from_option mbind option_bind].
    + destruct (parseInt (trim (drop 10 p))) as [pid|]; cbn [mbind option_bind].
      * destruct (trim (drop 12 c)) as [|x cmd]; [done|].
        rewrite bool_decide_eq_false_2 by done. done.
      * by destruct (trim (drop 12 c)).
    + by destruct (trim (drop 12 c)).
Qed.

End PlatformStrategiesMore.

(** ** Token extraction, flag by flag *)

Module TokenExtraction.
Import PlatformStrategies ParserNotions PlatformStrategiesFacts PlatformStrategiesMore.

(** *** Runs of characters *)








(** *** What [leftmost] finds *)




(** *** The matcher on the shapes the flags use *)

Section Matcher.
Variable ignoreCase : bool.

#[local] Abbreviation matchHere := (matchHere ignoreCase).
#[local] Abbreviation classMatches := (classMatches ignoreCase).






End Matcher.

(** *** The classes of the flags *)







(** *** The expressions of the source, flag by flag *)












(** The notions on two command lines: with the [--csrf_token] flag the
    flag wins over the URL and over an earlier UUID; without it the
    UUID-shaped segment of the URL wins over the earlier UUID on Windows,
    and the earlier UUID is taken on Unix.  A segment like "abc" is
    found by [apiServerUrlSegment] and is not UUID-shaped. *)
Example token_extraction_samples :
  let uuid1 := "11111111-1111-1111-1111-111111111111" in
  let uuid2 := "22222222-2222-2222-2222-222222222222" in
  let flags :=
    "--extension_server_port 5 --workspace_id " +:+ uuid2
    +:+ " --api_server_url=https://h/" +:+ uuid1 in
  let withFlag := flags +:+ " --CSRF_TOKEN=ABC-123 --x" in
  let wmic flags :=
    "CommandLine=C:\ls.exe " +:+ flags +:+ newline +:+ "ProcessId=4321" +:+ newline in
  let ps flags := "user 4321 0.0 0.1 1 2 ? S 10:00 0:01 /opt/ls " +:+ flags +:+ newline in
  windowsProcess (wmic flags) = Some (chars ("C:\ls.exe " +:+ flags), 4321%Z)
  ∧ unixProcess (chars (ps flags)) = Some (chars ("/opt/ls " +:+ flags), Some 4321%Z)
  ∧ portFlag (chars flags) = Some (chars "5")
  ∧ csrfTokenFlag (chars flags) = None
  ∧ apiServerUrlSegment (chars flags) = Some (chars uuid1)
  ∧ csrfTokenFlag (chars withFlag) = Some (chars "ABC-123")
  ∧ Windows.parseProcessInfo (wmic flags)
    = Some (ParsedProcessInfo.mk (Some 4321%Z) 5 uuid1)
  ∧ Unix.parseProcessInfo (ps flags)
    = Some (ParsedProcessInfo.mk (Some 4321%Z) 5 uuid2)
  ∧ Windows.parseProcessInfo (wmic withFlag)
    = Some (ParsedProcessInfo.mk (Some 4321%Z) 5 "ABC-123")
  ∧ Unix.parseProcessInfo (ps withFlag)
    = Some (ParsedProcessInfo.mk (Some 4321%Z) 5 "ABC-123")
  ∧ uuidShaped (chars uuid1)
  ∧ apiServerUrlSegment (chars "--api_server_url=https://h/abc") = Some (chars "abc")
  ∧ ¬ uuidShaped (chars "abc").
Proof.
  cbv zeta. split_and!; try (by vm_compute).
  intros [Hlen _]. by vm_compute in Hlen.
Qed.

End TokenExtraction.

(** ** The quota source, continued *)

Module QuotaManagerMore.
Import QuotaManager QuotaManagerFacts.

Section Facts.
Variable World : Type.
Variable JSON_parse : string → option ServerUserStatusResponse.
Variable Date_parse : string → Date.
Variable toLocaleDateString : Date → string.
Variable toLocaleTimeString : Date → string.

#[local] Abbreviation formatTime := (formatTime toLocaleDateString toLocaleTimeString).
#[local] Abbreviation parseModel :=
  (parseModel Date_parse toLocaleDateString toLocaleTimeString).
#[local] Abbreviation parseResponse :=
  (parseResponse Date_parse toLocaleDateString toLocaleTimeString).
#[local] Abbreviation fetchQuota :=
  (fetchQuota World JSON_parse Date_parse toLocaleDateString toLocaleTimeString).
#[local] Abbreviation request := (request JSON_parse).

(** X24.  What [fetchQuota] returns and what it stores.  A snapshot that
    is returned is the one [getLastSnapshot] gives afterwards.  The stored
    snapshot changes only when the response is JSON and [parseResponse]
    does not throw, and then to the parsed response, whatever the update
    callback does: when the callback throws, null is returned and the
    error is reported, but the new snapshot stays stored.  When
    [parseResponse] throws (a body without [userStatus]), nothing is
    stored, null is returned and the error is reported, as for a failed
    exchange.  Port, token and callbacks are never changed. *)
Theorem fetchQuota_stores_what_it_returns tr clock (m : QuotaManager.t World) w :
  let r := fetchQuota tr clock m w in
  let m' := r.1.2 in
  (∀ snapshot, r.1.1 = Some snapshot → getLastSnapshot World m' = Some snapshot)
  ∧ (∀ data snapshot,
       request tr = inr data → parseResponse clock data = inr snapshot →
       getLastSnapshot World m' = Some snapshot
       ∧ match updateCallback m with
         | Some callback =>
             match (callback snapshot w).2 with
             | None => r.1.1 = Some snapshot ∧ r.2 = (callback snapshot w).1
             | Some err =>
                 r.1.1 = None ∧ r.2 = reportError m err (callback snapshot w).1
             end
         | None => r.1.1 = Some snapshot ∧ r.2 = w
         end)
  ∧ (∀ data err,
       request tr = inr data → parseResponse clock data = inl err →
       r = (None, m, reportError m err w))
  ∧ (∀ data,
       request tr = inr data → userStatus data = None →
       ∃ err, r = (None, m, reportError m err w))
  ∧ (∀ err, request tr = inl err → r = (None, m, reportError m err w))
  ∧ port m' = port m ∧ csrfToken m' = csrfToken m
  ∧ updateCallback m' = updateCallback m ∧ errorCallback m' = errorCallback m.
Proof.
  cbn zeta. unfold QuotaManager.fetchQuota.
  destruct (request tr) as [err|data] eqn:E.
  - cbn [fst snd]. split; [done|]. split; [done|]. split; [done|]. split; [done|].
    split; [by intros ? [= <-]|]. repeat split.
  - assert (Hus : userStatus data = None → ∃ err, parseResponse clock data = inl err).
    { intros Hn. eexists. unfold QuotaManager.parseResponse. by rewrite Hn. }
    destruct (parseResponse clock data) as [err|snapshot] eqn:Ep.
    + cbn [fst snd]. split; [done|].
      split; [intros ? ? [= <-] ?; congruence|].
      split; [intros ? ? [= <-] ?; congruence|].
      split; [intros ? [= <-] _; by exists err|]. split; [done|]. repeat split.
    + assert (Hno : userStatus data ≠ None).
      { intros Hn. destruct (Hus Hn) as [? ?]. done. }
      cbn zeta. cbn [updateCallback set_lastSnapshot].
      destruct (updateCallback m) as [callback|] eqn:Eu.
      * destruct (callback snapshot w) as [w1 [err|]] eqn:Ec; cbn [fst snd].
        -- split; [done|]. split.
           { intros ? s' [= <-] Hs'. assert (s' = snapshot) as -> by congruence.
             rewrite Ec. done. }
           split; [intros ? ? [= <-] ?; congruence|].
           split; [by intros ? [= <-] ?|].
           split; [done|]. repeat split; done.
        -- split; [by intros ? [= <-]|]. split.
           { intros ? s' [= <-] Hs'. assert (s' = snapshot) as -> by congruence.
             rewrite Ec. done. }
           split; [intros ? ? [= <-] ?; congruence|].
           split; [by intros ? [= <-] ?|].
           split; [done|]. repeat split; done.
      * cbn [fst snd]. split; [by intros ? [= <-]|]. split.
        { intros ? s' [= <-] Hs'. assert (s' = snapshot) as -> by congruence. done. }
        split; [intros ? ? [= <-] ?; congruence|].
        split; [by intros ? [= <-] ?|].
        split; [done|]. repeat split; done.
Qed.

Lemma representable_0 : Float64.representable 0.
Proof. by vm_compute. Qed.

Lemma representable_1 : Float64.representable 1.
Proof. by vm_compute. Qed.

Lemma representable_100 : Float64.representable 100.
Proof. by vm_compute. Qed.

Lemma mul_100_between x :
  (0 <= x)%Q → (x <= 1)%Q →
  (0 <= Float64.mul x 100)%Q ∧ (Float64.mul x 100 <= 100)%Q.
Proof.
  intros H0 H1. unfold Float64.mul.
  apply Float64Facts.round_between;
    [apply representable_0 | apply representable_100 | lra | lra].
Qed.

Lemma div_between x monthly :
  (0 < monthly)%Q → (0 <= x)%Q → (x <= monthly)%Q →
  (0 <= Float64.div x monthly)%Q ∧ (Float64.div x monthly <= 1)%Q.
Proof.
  intros Hm H0 H1. unfold Float64.div.
  apply Float64Facts.round_between;
    [apply representable_0 | apply representable_1 | |].
  - apply Qle_shift_div_l; [done | lra].
  - apply Qle_shift_div_r; [done | lra].
Qed.

(** X25.  The two percentages of the prompt credits, in the arithmetic of
    the program.  With [0 ≤ available ≤ monthly] the remaining percentage
    lies between 0 and 100 and the used one is at least 0, and at most
    100 when the monthly allotment is a binary64 number; when all credits
    are available they are 100 and 0, when none is they are 0 and 100;
    with more credits available than the monthly allotment the used
    percentage is at most 0 and the remaining one at least 100. *)
Theorem promptCredits_percentages us pc :
  parsePromptCredits us = Some pc →
  ((0 <= PromptCreditsInfo.available pc)%Q →
   (PromptCreditsInfo.available pc <= PromptCreditsInfo.monthly pc)%Q →
     (0 <= PromptCreditsInfo.remainingPercentage pc)%Q
     ∧ (PromptCreditsInfo.remainingPercentage pc <= 100)%Q
     ∧ (0 <= PromptCreditsInfo.usedPercentage pc)%Q
     ∧ (Float64.representable (PromptCreditsInfo.monthly pc) →
          (PromptCreditsInfo.usedPercentage pc <= 100)%Q))
  ∧ ((PromptCreditsInfo.available pc == PromptCreditsInfo.monthly pc)%Q →
       (PromptCreditsInfo.remainingPercentage pc == 100)%Q
       ∧ (PromptCreditsInfo.usedPercentage pc == 0)%Q)
  ∧ ((PromptCreditsInfo.available pc == 0)%Q →
       (PromptCreditsInfo.remainingPercentage pc == 0)%Q
       ∧ (Float64.representable (PromptCreditsInfo.monthly pc) →
            (PromptCreditsInfo.usedPercentage pc == 100)%Q))
  ∧ ((PromptCreditsInfo.monthly pc < PromptCreditsInfo.available pc)%Q →
       (PromptCreditsInfo.usedPercentage pc <= 0)%Q
       ∧ (100 <= PromptCreditsInfo.remainingPercentage pc)%Q).
Proof.
  intros (ps & info & monthly & available & _ & _ & _ & _ & Hpos & ->)%parsePromptCredits_spec.
  cbn [PromptCreditsInfo.usedPercentage PromptCreditsInfo.remainingPercentage
       PromptCreditsInfo.available PromptCreditsInfo.monthly].
  assert (Hne : ¬ (monthly == 0)%Q) by lra.
  assert (E1 : ∀ x, (x == monthly)%Q → Float64.mul (Float64.div x monthly) 100 = 100%Q).
  { intros x Hx. unfold Float64.mul, Float64.div.
    rewrite (Float64Facts.round_proper (x / monthly) 1)
      by (rewrite Hx; field; exact Hne).
    by vm_compute. }
  assert (E0 : ∀ x, (x == 0)%Q → Float64.mul (Float64.div x monthly) 100 = 0%Q).
  { intros x Hx. unfold Float64.mul, Float64.div.
    rewrite (Float64Facts.round_proper (x / monthly) 0)
      by (rewrite Hx; field; exact Hne).
    by vm_compute. }
  split; [|split; [|split]].
  - intros H0 H1.
    destruct (div_between available monthly Hpos H0 H1) as [Hd0 Hd1].
    destruct (mul_100_between _ Hd0 Hd1) as [Hr0 Hr1].
    assert (Hs0 : (0 <= Float64.sub monthly available)%Q).
    { unfold Float64.sub. apply Float64Facts.round_nonneg. lra. }
    split; [done|]. split; [done|]. split.
    + unfold Float64.mul. apply Float64Facts.round_nonneg.
      apply Qmult_le_0_compat; [|done].
      unfold Float64.div. apply Float64Facts.round_nonneg.
      apply Qle_shift_div_l; [done | lra].
    + intros Hrep.
      assert (Hs1 : (Float64.sub monthly available <= monthly)%Q).
      { unfold Float64.sub.
        apply (Float64Facts.round_between 0 monthly);
          [apply representable_0 | exact Hrep | lra | lra]. }
      destruct (div_between _ monthly Hpos Hs0 Hs1) as [Hu0 Hu1].
      by apply mul_100_between.
  - intros Heq. split.
    + rewrite (E1 available Heq). reflexivity.
    + rewrite (E0 (Float64.sub monthly available)); [reflexivity|].
      unfold Float64.sub.
      rewrite (Float64Facts.round_proper (monthly - available) 0) by lra.
      by vm_compute.
  - intros Hz. split.
    + rewrite (E0 available Hz). reflexivity.
    + intros Hrep. rewrite (E1 (Float64.sub monthly available)); [reflexivity|].
      unfold Float64.sub.
      rewrite (Float64Facts.round_proper (monthly - available) monthly) by lra.
      exact Hrep.
  - intros Hover. split.
    + unfold Float64.mul. apply Float64Facts.round_nonpos.
      assert (Hd : (Float64.div (Float64.sub monthly available) monthly <= 0)%Q).
      { unfold Float64.div. apply Float64Facts.round_nonpos.
        assert (Hs : (Float64.sub monthly available <= 0)%Q).
        { unfold Float64.sub. apply Float64Facts.round_nonpos. lra. }
        apply Qle_shift_div_r; [done | lra]. }
      lra.
    + unfold Float64.mul.
      assert (Hd : (1 <= Float64.div available monthly)%Q).
      { unfold Float64.div.
        eapply Qle_trans;
          [|apply (Float64Facts.round_mono 1 (available / monthly));
            apply Qle_shift_div_l; [done | lra]].
        by vm_compute. }
      eapply Qle_trans;
        [|apply (Float64Facts.round_mono 100 (Float64.div available monthly * 100));
          lra].
      by vm_compute.
Qed.

(** X26.  For a positive time, [formatTime] shows the time rounded up to
    whole minutes, split into hours and minutes below 60: minutes alone
    under one hour, hours alone on the full hour; it is never "Ready". *)
Theorem formatTime_rounds_up ms resetTime :
  (0 < ms)%Z →
  ∃ hours minutes : Z,
    (0 <= hours)%Z ∧ (0 <= minutes < 60)%Z
    ∧ (60000 * (60 * hours + minutes - 1) < ms <= 60000 * (60 * hours + minutes))%Z
    ∧ formatTime (Some ms) resetTime
      = (if (hours =? 0)%Z then pretty minutes +:+ "m"
         else if (minutes =? 0)%Z then pretty hours +:+ "h"
         else pretty hours +:+ "h " +:+ pretty minutes +:+ "m")
        +:+ " (" +:+ toLocaleDateString resetTime +:+ " "
        +:+ toLocaleTimeString resetTime +:+ ")".
Proof.
  intros Hpos. unfold QuotaManager.formatTime.
  assert ((ms <=? 0)%Z = false) as -> by (apply Z.leb_gt; lia).
  cbn zeta. set (mins := ((ms + 59999) / 60000)%Z).
  pose proof (Z.div_mod (ms + 59999) 60000 ltac:(lia)) as Hd.
  pose proof (Z.mod_pos_bound (ms + 59999) 60000 ltac:(lia)) as Hb.
  fold mins in Hd.
  pose proof (Z.div_mod mins 60 ltac:(lia)) as Hd'.
  pose proof (Z.mod_pos_bound mins 60 ltac:(lia)) as Hb'.
  assert (Hmins : (1 <= mins)%Z) by lia.
  assert (Hh : (0 <= mins / 60)%Z) by (apply Z.div_pos; lia).
  exists (mins / 60)%Z, (mins mod 60)%Z.
  split; [done|]. split; [done|]. split; [lia|].
  f_equal.
  destruct (mins <? 60)%Z eqn:E.
  - apply Z.ltb_lt in E.
    assert (Hz : (mins / 60 = 0)%Z) by (apply Z.div_small; lia).
    rewrite Hz. cbn [Z.eqb]. by rewrite Z.mod_small by lia.
  - apply Z.ltb_ge in E.
    assert ((mins / 60 =? 0)%Z = false) as ->.
    { apply Z.eqb_neq. intros Hz. rewrite Hz in Hd'. lia. }
    destruct (0 <? mins mod 60)%Z eqn:Em.
    + apply Z.ltb_lt in Em.
      assert ((mins mod 60 =? 0)%Z = false) as -> by (apply Z.eqb_neq; lia). done.
    + apply Z.ltb_ge in Em.
      assert ((mins mod 60 =? 0)%Z = true) as -> by (apply Z.eqb_eq; lia). done.
Qed.

Lemma parseResponse_model clock data snapshot model :
  parseResponse clock data = inr snapshot →
  model ∈ models snapshot →
  ∃ now label alias q, model = parseModel now label alias q.
Proof.
  unfold QuotaManager.parseResponse.
  destruct (userStatus data) as [us|]; [|done].
  intros [= <-]. cbn [models].
  intros (i & Hi)%list_elem_of_lookup_1. rewrite list_lookup_imap in Hi.
  destruct (withQuotaInfo _ !! i) as [[[label alias] q]|]; [|done].
  injection Hi as <-. eauto.
Qed.

(** X27.  A model that [parseResponse] marks as exhausted is blocked by
    the guard whatever the thresholds: [checkModel] blocks it, and the
    state analysed from the snapshot is at level blocked. *)
Theorem exhausted_model_is_blocked clock data snapshot now c model :
  parseResponse clock data = inr snapshot →
  model ∈ models snapshot →
  ModelQuotaInfo.isExhausted model = true →
  GuardCheckResult.shouldBlock (QuotaGuard.checkModel c model) = true
  ∧ GuardCheckResult.level (QuotaGuard.checkModel c model) = blocked
  ∧ GuardState.level (QuotaGuard.analyzeQuotaState now c snapshot) = blocked.
Proof.
  intros Hparse Hin Hex.
  assert (Hp : (QuotaGuard.pctOf model <= 0)%Q).
  { destruct (parseResponse_model _ _ _ _ Hparse Hin) as (t & label & alias & q & ->).
    destruct (parseModel_spec Date_parse toLocaleDateString toLocaleTimeString
                t label alias q) as (_ & _ & _ & Hpct & _ & _ & Hexh & _).
    apply Hexh in Hex as (f & Hf & Hz).
    unfold QuotaGuard.pctOf. rewrite (Hpct f Hf). cbn [default].
    unfold Float64.mul.
    rewrite (Float64Facts.round_proper (f * 100) 0) by (rewrite Hz; ring).
    by vm_compute. }
  assert (Hb : ∀ p, (p <= 0)%Q → QuotaGuard.levelOf c p = blocked).
  { intros p Hle. unfold QuotaGuard.levelOf. by rewrite (proj2 (Qleb_le p 0) Hle). }
  split; [|split].
  - apply QuotaGuardMore.checkModel_shouldBlock. by left.
  - rewrite QuotaGuardFacts.checkModel_level. by apply Hb.
  - rewrite QuotaGuardFacts.analyzeQuotaState_level. apply Hb.
    eapply Qle_trans; [|exact Hp].
    apply QuotaGuardMore.analyzeQuotaState_lowest_le.
    unfold GuardNotions.analyzed. apply elem_of_app. by left.
Qed.

End Facts.

(** 250 credits left of 1000: 75 used, 25 remaining.  With 1 left of
    3 the two percentages of the program add up to less than 100. *)
Lemma promptCredits_percentages_witness :
  let us := mkUserStatus
              (Some (PlanStatus.mk (Some (PlanStatus.mkPlanInfo (Num 1000)))
                       (Num 250)))
              None in
  let pc := PromptCreditsInfo.mk 250 1000 75 25 in
  parsePromptCredits us = Some pc
  ∧ ((0 <= PromptCreditsInfo.available pc)%Q →
     (PromptCreditsInfo.available pc <= PromptCreditsInfo.monthly pc)%Q →
       (0 <= PromptCreditsInfo.remainingPercentage pc)%Q
       ∧ (PromptCreditsInfo.remainingPercentage pc <= 100)%Q
       ∧ (0 <= PromptCreditsInfo.usedPercentage pc)%Q
       ∧ (Float64.representable (PromptCreditsInfo.monthly pc) →
            (PromptCreditsInfo.usedPercentage pc <= 100)%Q))
  ∧ ((PromptCreditsInfo.available pc == PromptCreditsInfo.monthly pc)%Q →
       (PromptCreditsInfo.remainingPercentage pc == 100)%Q
       ∧ (PromptCreditsInfo.usedPercentage pc == 0)%Q)
  ∧ ((PromptCreditsInfo.available pc == 0)%Q →
       (PromptCreditsInfo.remainingPercentage pc == 0)%Q
       ∧ (Float64.representable (PromptCreditsInfo.monthly pc) →
            (PromptCreditsInfo.usedPercentage pc == 100)%Q))
  ∧ ((PromptCreditsInfo.monthly pc < PromptCreditsInfo.available pc)%Q →
       (PromptCreditsInfo.usedPercentage pc <= 0)%Q
       ∧ (100 <= PromptCreditsInfo.remainingPercentage pc)%Q).
Proof.
  cbv zeta. split; [by vm_compute|].
  apply (promptCredits_percentages
           (mkUserStatus
              (Some (PlanStatus.mk (Some (PlanStatus.mkPlanInfo (Num 1000)))
                       (Num 250)))
              None)).
  by vm_compute.
Defined.

Example promptCredits_sum_below_100 :
  ∃ pc,
    parsePromptCredits
      (mkUserStatus
         (Some (PlanStatus.mk (Some (PlanStatus.mkPlanInfo (Num 3))) (Num 1)))
         None) = Some pc
    ∧ (PromptCreditsInfo.usedPercentage pc
       + PromptCreditsInfo.remainingPercentage pc < 100)%Q.
Proof. eexists. split; [by vm_compute | by vm_compute]. Qed.

Lemma formatTime_rounds_up_witness :
  ∃ hours minutes : Z,
    (0 <= hours)%Z ∧ (0 <= minutes < 60)%Z
    ∧ (60000 * (60 * hours + minutes - 1) < 3600001
       <= 60000 * (60 * hours + minutes))%Z
    ∧ formatTime (fun _ => "01/02") (fun _ => "03:04") (Some 3600001%Z) (DateMs 0)
      = (if (hours =? 0)%Z then pretty minutes +:+ "m"
         else if (minutes =? 0)%Z then pretty hours +:+ "h"
         else pretty hours +:+ "h " +:+ pretty minutes +:+ "m")
        +:+ " (" +:+ "01/02" +:+ " " +:+ "03:04" +:+ ")".
Proof.
  apply (formatTime_rounds_up (fun _ => "01/02") (fun _ => "03:04") 3600001 (DateMs 0)).
  lia.
Defined.

Lemma exhausted_model_is_blocked_witness :
  let data := mkServerUserStatusResponse
                (Some (mkUserStatus None
                   (Some [ServerModelConfig.mk "Model" (Some "m1")
                            (Some (ServerModelConfig.mkQuotaInfo (Num 0) "soon"))]))) in
  let parse := parseResponse (fun _ => InvalidDate) (fun _ => "") (fun _ => "")
                 (fun _ => 0%Z) in
  let model := parseModel (fun _ => InvalidDate) (fun _ => "") (fun _ => "")
                 0 "Model" (Some "m1") (ServerModelConfig.mkQuotaInfo (Num 0) "soon") in
  let snapshot := mkQuotaSnapshot (DateMs 0) None [model] in
  parse data = inr snapshot
  ∧ GuardCheckResult.shouldBlock (QuotaGuard.checkModel QuotaGuard.defaultConfig model)
    = true
  ∧ GuardCheckResult.level (QuotaGuard.checkModel QuotaGuard.defaultConfig model) = blocked
  ∧ GuardState.level (QuotaGuard.analyzeQuotaState 0 QuotaGuard.defaultConfig snapshot)
    = blocked.
Proof.
  cbv zeta. split; [reflexivity|].
  apply (exhausted_model_is_blocked (fun _ => InvalidDate) (fun _ => "") (fun _ => "")
           (fun _ => 0%Z)
           (mkServerUserStatusResponse
              (Some (mkUserStatus None
                 (Some [ServerModelConfig.mk "Model" (Some "m1")
                          (Some (ServerModelConfig.mkQuotaInfo (Num 0) "soon"))]))))
           (mkQuotaSnapshot (DateMs 0) None
              [parseModel (fun _ => InvalidDate) (fun _ => "") (fun _ => "")
                 0 "Model" (Some "m1") (ServerModelConfig.mkQuotaInfo (Num 0) "soon")])
           0 QuotaGuard.defaultConfig).
  - reflexivity.
  - apply list_elem_of_here.
  - reflexivity.
Defined.

End QuotaManagerMore.
